(** * nanochat IPv6 pipeline: address codec, bucket reducer and verifier

    A shallow embedding of
    - [nanochat/tokenizer_ipv6.py]  (class [IPv6SegmentTokenizer]),
    - [nanochat/scanner.py]         (class [IPv6Scanner]),
    - [dev/prepare_ipv6_parquet.py] ([expand_ipv6], [process_low_memory]),
    - [config/ipv6_mac.py]          ([vocab_size], [max_seq_len]),
    together with the part of CPython 3.11's [ipaddress] module these
    files call ([IPv6Address], [.exploded], [str]).

    Python [str] values are modelled as [string]; a character is a code
    point below 256.  Python [int] values are modelled as [Z].  A raised
    [ValueError] (or its subclass [AddressValueError]) is modelled as
    [None]. *)

From Stdlib Require Import ZArith String Ascii List Lia QArith.
From stdpp Require Import gmap strings list.

Local Open Scope string_scope.
Local Open Scope list_scope.
Local Open Scope Z_scope.

(** ** Python built-ins on strings and integers *)

Module Py.

(** [bool(s)] for a string: non-empty. *)
Definition truthy (s : string) : bool :=
  match s with
  | EmptyString => false
  | String _ _ => true
  end.

(** [c.isspace()] for the code points below 256:
    U+0009..U+000D, U+001C..U+0020, U+0085, U+00A0. *)
Definition isspace (c : ascii) : bool :=
  let n := N_of_ascii c in
  ((9 <=? n) && (n <=? 13) || (28 <=? n) && (n <=? 32)
   || (n =? 133) || (n =? 160))%N.

Fixpoint lstrip (s : string) : string :=
  match s with
  | EmptyString => EmptyString
  | String c s' => if isspace c then lstrip s' else s
  end.

Fixpoint rstrip (s : string) : string :=
  match s with
  | EmptyString => EmptyString
  | String c s' =>
      match rstrip s' with
      | EmptyString => if isspace c then EmptyString else String c EmptyString
      | r => String c r
      end
  end.

(** [s.strip()] *)
Definition strip (s : string) : string := rstrip (lstrip s).

(** [c in s] for a one-character [c] *)
Fixpoint contains (c : ascii) (s : string) : bool :=
  match s with
  | EmptyString => false
  | String a s' => if Ascii.eqb a c then true else contains c s'
  end.

(** [s.startswith(c)] for a one-character [c] *)
Definition startswith (c : ascii) (s : string) : bool :=
  match s with
  | EmptyString => false
  | String a _ => Ascii.eqb a c
  end.

(** [s.split(sep)] for a one-character separator: never the empty list. *)
Fixpoint split (sep : ascii) (s : string) : list string :=
  match s with
  | EmptyString => [EmptyString]
  | String a s' =>
      if Ascii.eqb a sep then EmptyString :: split sep s'
      else match split sep s' with
           | p :: ps => String a p :: ps
           | [] => [String a EmptyString]
           end
  end.

(** [sep.join(parts)] *)
Definition join (sep : string) (parts : list string) : string :=
  String.concat sep parts.

(** [s.partition(sep)] for a one-character separator.  The middle
    component tells whether the separator was found. *)
Fixpoint partition (sep : ascii) (s : string) : string * bool * string :=
  match s with
  | EmptyString => (EmptyString, false, EmptyString)
  | String a s' =>
      if Ascii.eqb a sep then (EmptyString, true, s')
      else let '(h, found, t) := partition sep s' in (String a h, found, t)
  end.

(** [all(p(c) for c in s)] *)
Fixpoint all_chars (p : ascii -> bool) (s : string) : bool :=
  match s with
  | EmptyString => true
  | String a s' => p a && all_chars p s'
  end.

(** [s[start:start+len]] for [0 <= start]: shorter when [s] ends early. *)
Definition slice (start len : nat) (s : string) : string :=
  substring start len s.

(** *** Integer formatting and parsing *)

Definition hex_digit (d : Z) : ascii :=
  match d with
  | 0 => "0" | 1 => "1" | 2 => "2" | 3 => "3" | 4 => "4" | 5 => "5"
  | 6 => "6" | 7 => "7" | 8 => "8" | 9 => "9" | 10 => "a" | 11 => "b"
  | 12 => "c" | 13 => "d" | 14 => "e" | _ => "f"
  end%char.

(** The hexadecimal digits of [n > 0], most significant first, and the
    empty string for [n = 0]. *)
Fixpoint hex_digits (fuel : nat) (n : Z) : string :=
  match fuel with
  | O => EmptyString
  | S fuel' =>
      if Z.eqb n 0 then EmptyString
      else hex_digits fuel' (n / 16) +:+ String (hex_digit (n mod 16)) EmptyString
  end.

Definition hex_of_nonneg (n : Z) : string :=
  if Z.eqb n 0 then "0" else hex_digits (S (Z.to_nat (Z.log2 n))) n.

Fixpoint zeros (k : nat) : string :=
  match k with
  | O => EmptyString
  | S k' => String "0" (zeros k')
  end.

Definition zfill (width : nat) (s : string) : string :=
  zeros (width - String.length s) +:+ s.

(** ['%x' % n] *)
Definition format_x (n : Z) : string :=
  if Z.ltb n 0 then String "-" (hex_of_nonneg (- n)) else hex_of_nonneg n.

(** ['%0<width>x' % n] and [f"{n:0<width>x}"] *)
Definition format_0x (width : nat) (n : Z) : string :=
  if Z.ltb n 0 then String "-" (zfill (width - 1) (hex_of_nonneg (- n)))
  else zfill width (hex_of_nonneg n).

(** The value of a digit of [int(s, 16)]: ["0"]..["9"], ["a"]..["f"]
    and ["A"]..["F"], by code point. *)
Definition hex_value (c : ascii) : option Z :=
  let n := Z.of_N (N_of_ascii c) in
  if (48 <=? n) && (n <=? 57) then Some (n - 48)
  else if (97 <=? n) && (n <=? 102) then Some (n - 87)
  else if (65 <=? n) && (n <=? 70) then Some (n - 55)
  else None.

Definition is_hex_digit (c : ascii) : bool :=
  match hex_value c with Some _ => true | None => false end.

(** A decimal digit is a hexadecimal digit below ten. *)
Definition dec_value (c : ascii) : option Z :=
  d ← hex_value c;
  if d <? 10 then Some d else None.

(** [c.isascii() and c.isdigit()] *)
Definition is_ascii_digit (c : ascii) : bool :=
  match dec_value c with Some _ => true | None => false end.

Fixpoint int_digits (base : Z) (value : ascii -> option Z)
         (acc : Z) (s : string) : option Z :=
  match s with
  | EmptyString => Some acc
  | String c s' =>
      match value c with
      | Some d => int_digits base value (base * acc + d) s'
      | None => None
      end
  end.

(** [int(s, 16)] on strings of hexadecimal digits.  Every call in the
    modelled code passes either a string already checked against the
    hexadecimal alphabet or a group of an exploded address; the sign,
    prefix, underscore and surrounding-blank forms Python also accepts
    are answered with [None] here. *)
Definition int16 (s : string) : option Z :=
  if truthy s then int_digits 16 hex_value 0 s else None.

(** [int(s, 10)] on strings of ASCII decimal digits. *)
Definition int10 (s : string) : option Z :=
  if truthy s then int_digits 10 dec_value 0 s else None.

(** [l[lo:hi]] on a list, with Python's treatment of negative and
    out-of-range bounds. *)
Definition slice_list {A} (lo hi : Z) (l : list A) : list A :=
  let n := Z.of_nat (length l) in
  let norm i := if i <? 0 then Z.max (i + n) 0 else Z.min i n in
  take (Z.to_nat (norm hi - norm lo)) (drop (Z.to_nat (norm lo)) l).

(** The line terminator ["\n"]. *)
Definition newline : string := String (ascii_of_nat 10) EmptyString.

(** [l[-1]] of a non-empty list of strings *)
Definition last_part (parts : list string) : string :=
  List.last parts EmptyString.

End Py.

(** ** CPython 3.11 [ipaddress]: the functions behind [IPv6Address(s)],
    [.exploded] and [str(.)] *)

Module ipaddress.

Import Py.

(** *** class [_BaseV4] / [IPv4Address] *)
Module V4.

Definition _parse_octet (octet_str : string) : option Z :=
  if negb (truthy octet_str) then None
  else if negb (all_chars is_ascii_digit octet_str) then None
  else if (3 <? String.length octet_str)%nat then None
  else if negb (String.eqb octet_str "0") && startswith "0" octet_str
  then None
  else
    octet_int ← int10 octet_str;
    if 255 <? octet_int then None else Some octet_int.

(** [int.from_bytes(bs, 'big')] *)
Definition from_bytes_big (bs : list Z) : Z :=
  fold_left (fun acc b => 256 * acc + b) bs 0.

Definition _ip_int_from_string (ip_str : string) : option Z :=
  if negb (truthy ip_str) then None
  else
    let octets := split "." ip_str in
    if negb (length octets =? 4)%nat then None
    else from_bytes_big <$> mapM _parse_octet octets.

(** [IPv4Address(address)._ip] for a string [address] *)
Definition IPv4Address (address : string) : option Z :=
  if contains "/" address then None
  else _ip_int_from_string address.

End V4.

(** *** class [_BaseV6] *)

Definition _ALL_ONES : Z := 2 ^ 128 - 1.
Definition _HEXTET_COUNT : Z := 8.

Definition _parse_hextet (hextet_str : string) : option Z :=
  if negb (all_chars is_hex_digit hextet_str) then None
  else if (4 <? String.length hextet_str)%nat then None
  else int16 hextet_str.

(** [for i in range(1, len(parts) - 1): if not parts[i]: ...]
    over [middle = parts[1:-1]], [i] the index of its head.  The outer
    [None] is the raised "At most one '::' permitted". *)
Fixpoint _find_skip_index (i : nat) (middle : list string)
         (skip_index : option nat) : option (option nat) :=
  match middle with
  | [] => Some skip_index
  | p :: rest =>
      if negb (truthy p) then
        match skip_index with
        | Some _ => None
        | None => _find_skip_index (S i) rest (Some i)
        end
      else _find_skip_index (S i) rest skip_index
  end.

(** [for p in ps: ip_int <<= 16; ip_int |= _parse_hextet(p)] *)
Fixpoint _parse_hextets (ip_int : Z) (ps : list string) : option Z :=
  match ps with
  | [] => Some ip_int
  | p :: rest =>
      h ← _parse_hextet p;
      _parse_hextets (Z.lor (Z.shiftl ip_int 16) h) rest
  end.

(** The body of [_ip_int_from_string] after [parts = ip_str.split(':')]. *)
Definition _ip_int_from_parts (parts : list string) : option Z :=
  if (length parts <? 3)%nat then None
  else
    parts ←
      (if contains "." (last_part parts) then
         ipv4_int ← V4.IPv4Address (last_part parts);
         Some (removelast parts
                 ++ [format_x (Z.land (Z.shiftr ipv4_int 16) 65535);
                     format_x (Z.land ipv4_int 65535)])
       else Some parts);
    if (Z.to_nat (_HEXTET_COUNT + 1) <? length parts)%nat then None
    else
      skip_index ← _find_skip_index 1 (removelast (tail parts)) None;
      '(parts_hi, parts_lo, parts_skipped) ←
        match skip_index with
        | Some skip_index =>
            let parts_hi := Z.of_nat skip_index in
            let parts_lo := Z.of_nat (length parts) - Z.of_nat skip_index - 1 in
            parts_hi ←
              (if negb (truthy (hd EmptyString parts)) then
                 if negb (parts_hi - 1 =? 0) then None else Some (parts_hi - 1)
               else Some parts_hi);
            parts_lo ←
              (if negb (truthy (last_part parts)) then
                 if negb (parts_lo - 1 =? 0) then None else Some (parts_lo - 1)
               else Some parts_lo);
            let parts_skipped := _HEXTET_COUNT - (parts_hi + parts_lo) in
            if parts_skipped <? 1 then None
            else Some (parts_hi, parts_lo, parts_skipped)
        | None =>
            if negb (Z.of_nat (length parts) =? _HEXTET_COUNT) then None
            else if negb (truthy (hd EmptyString parts)) then None
            else if negb (truthy (last_part parts)) then None
            else Some (Z.of_nat (length parts), 0, 0)
        end;
      ip_int ← _parse_hextets 0 (take (Z.to_nat parts_hi) parts);
      _parse_hextets (Z.shiftl ip_int (16 * parts_skipped))
                     (drop (length parts - Z.to_nat parts_lo) parts).

Definition _ip_int_from_string (ip_str : string) : option Z :=
  if negb (truthy ip_str) then None
  else _ip_int_from_parts (split ":" ip_str).

(** The four loop variables of [_compress_hextets]. *)
Record doublecolon := {
  best_doublecolon_start : Z;
  best_doublecolon_len : Z;
  doublecolon_start : Z;
  doublecolon_len : Z
}.

Definition _compress_step (st : doublecolon) (index : Z) (hextet : string)
  : doublecolon :=
  if String.eqb hextet "0" then
    let doublecolon_len := doublecolon_len st + 1 in
    let doublecolon_start :=
      if doublecolon_start st =? -1 then index else doublecolon_start st in
    if best_doublecolon_len st <? doublecolon_len then
      {| best_doublecolon_start := doublecolon_start;
         best_doublecolon_len := doublecolon_len;
         doublecolon_start := doublecolon_start;
         doublecolon_len := doublecolon_len |}
    else
      {| best_doublecolon_start := best_doublecolon_start st;
         best_doublecolon_len := best_doublecolon_len st;
         doublecolon_start := doublecolon_start;
         doublecolon_len := doublecolon_len |}
  else
    {| best_doublecolon_start := best_doublecolon_start st;
       best_doublecolon_len := best_doublecolon_len st;
       doublecolon_start := -1;
       doublecolon_len := 0 |}.

(** [for index, hextet in enumerate(hextets): ...] *)
Fixpoint _compress_scan (st : doublecolon) (index : Z)
         (hextets : list string) : doublecolon :=
  match hextets with
  | [] => st
  | hextet :: rest =>
      _compress_scan (_compress_step st index hextet) (index + 1) rest
  end.

Definition _compress_hextets (hextets : list string) : list string :=
  let st :=
    _compress_scan
      {| best_doublecolon_start := -1; best_doublecolon_len := 0;
         doublecolon_start := -1; doublecolon_len := 0 |} 0 hextets in
  if 1 <? best_doublecolon_len st then
    let best_doublecolon_end :=
      best_doublecolon_start st + best_doublecolon_len st in
    let hextets :=
      if best_doublecolon_end =? Z.of_nat (length hextets)
      then hextets ++ [EmptyString] else hextets in
    let hextets :=
      take (Z.to_nat (best_doublecolon_start st)) hextets
        ++ [EmptyString] ++ drop (Z.to_nat best_doublecolon_end) hextets in
    if best_doublecolon_start st =? 0 then EmptyString :: hextets
    else hextets
  else hextets.

(** [range(0, 32, 4)] *)
Definition hextet_offsets : list nat := [0; 4; 8; 12; 16; 20; 24; 28]%nat.

Definition _string_from_ip_int (ip_int : Z) : option string :=
  if _ALL_ONES <? ip_int then None
  else
    let hex_str := format_0x 32 ip_int in
    hextets ←
      mapM (fun x => n ← int16 (slice x 4 hex_str); Some (format_x n))
           hextet_offsets;
    Some (join ":" (_compress_hextets hextets)).

Definition _split_scope_id (ip_str : string)
  : option (string * option string) :=
  let '(addr, sep, scope_id) := partition "%" ip_str in
  if negb sep then Some (addr, None)
  else if negb (truthy scope_id) || contains "%" scope_id then None
  else Some (addr, Some scope_id).

(** *** class [IPv6Address] *)

Record IPv6Address := {
  _ip : Z;
  _scope_id : option string
}.

(** [IPv6Address(address)] for a string [address] *)
Definition IPv6Address_of_str (address : string) : option IPv6Address :=
  if contains "/" address then None
  else
    '(addr_str, scope_id) ← _split_scope_id address;
    ip ← _ip_int_from_string addr_str;
    Some {| _ip := ip; _scope_id := scope_id |}.

(** [str(self)] *)
Definition str (self : IPv6Address) : option string :=
  ip_str ← _string_from_ip_int (_ip self);
  Some match _scope_id self with
       | Some scope_id =>
           if truthy scope_id then ip_str +:+ "%" +:+ scope_id else ip_str
       | None => ip_str
       end.

(** [self.exploded], that is [_explode_shorthand_ip_string]: the
    address is printed with [str] and parsed again. *)
Definition exploded (self : IPv6Address) : option string :=
  ip_str ← str self;
  ip_int ← _ip_int_from_string ip_str;
  let hex_str := format_0x 32 ip_int in
  Some (join ":" (map (fun x => slice x 4 hex_str) hextet_offsets)).

End ipaddress.


(** ** [nanochat/tokenizer_ipv6.py] *)

Module tokenizer_ipv6.

Import Py.

Definition TOKEN_OFFSET : Z := 65536.

Definition SPECIAL_TOKENS : list string :=
  [ "<|bos|>"; "<|eos|>"; "<|pad|>";
    "<|user_start|>"; "<|user_end|>";
    "<|assistant_start|>"; "<|assistant_end|>" ].

Record IPv6SegmentTokenizer := {
  special_tokens_map : gmap string Z;
  id_to_special_token : gmap Z string;
  bos_token_id : Z;
  eos_token_id : Z;
  pad_token_id : Z;
  vocab_size : Z
}.

(** [for i, token in enumerate(SPECIAL_TOKENS): ...] of [__init__],
    from index [i] on. *)
Fixpoint build_maps (i : Z) (tokens : list string)
         (maps : gmap string Z * gmap Z string)
  : gmap string Z * gmap Z string :=
  match tokens with
  | [] => maps
  | token :: rest =>
      let token_id := TOKEN_OFFSET + i in
      build_maps (i + 1) rest
                 (<[token := token_id]> (fst maps), <[token_id := token]> (snd maps))
  end.

(** [__init__].  The three subscripts [special_tokens_map["<|...|>"]]
    are total lookups: the keys are in the map ([init_ids] below). *)
Definition __init__ : IPv6SegmentTokenizer :=
  let maps := build_maps 0 SPECIAL_TOKENS (∅, ∅) in
  {| special_tokens_map := fst maps;
     id_to_special_token := snd maps;
     bos_token_id := fst maps !!! "<|bos|>";
     eos_token_id := fst maps !!! "<|eos|>";
     pad_token_id := fst maps !!! "<|pad|>";
     vocab_size := TOKEN_OFFSET + Z.of_nat (length SPECIAL_TOKENS) |}.

(** [get_tokenizer()] *)
Definition get_tokenizer : IPv6SegmentTokenizer := __init__.

(** [from_directory(tokenizer_dir)]: nothing is read from the directory. *)
Definition from_directory (tokenizer_dir : string) : IPv6SegmentTokenizer :=
  __init__.

(** [train_from_iterator(text_iterator, vocab_size)]: training is a
    no-op, both arguments are ignored. *)
Definition train_from_iterator (text_iterator : list string) (vocab_size : Z)
  : IPv6SegmentTokenizer :=
  __init__.

Section methods.

Variable self : IPv6SegmentTokenizer.

Definition get_vocab_size : Z := vocab_size self.

Definition get_special_tokens : gmap string Z := special_tokens_map self.

Definition get_bos_token_id : Z := bos_token_id self.

(** [idx in self.id_to_special_token] *)
Definition is_special_id (idx : Z) : bool :=
  match id_to_special_token self !! idx with
  | Some _ => true
  | None => false
  end.

Definition id_to_token (idx : Z) : string :=
  match id_to_special_token self !! idx with
  | Some token => token
  | None =>
      if (0 <=? idx) && (idx <=? 65535) then format_0x 4 idx
      else EmptyString
  end.

(** [self.special_tokens_map.get(text, self.eos_token_id)] *)
Definition encode_special (text : string) : Z :=
  default (eos_token_id self) (special_tokens_map self !! text).

(** A [prepend]/[append] argument that is not [None]: an [int] or the
    name of a special token. *)
Definition control_id (c : Z + string) : Z :=
  match c with
  | inl id => id
  | inr name => encode_special name
  end.

(** The [try] block of [_encode_one]; [None] is a raised [ValueError]. *)
Definition encode_body (text : string) : option (list Z) :=
  addr ← ipaddress.IPv6Address_of_str (strip text);
  full_str ← ipaddress.exploded addr;
  let parts := split ":" full_str in
  mapM int16 parts.

Definition _encode_one (text : string) (prepend append : option (Z + string))
  : list Z :=
  let ids := [] in
  let ids :=
    match prepend with
    | Some p => ids ++ [control_id p]
    | None => ids
    end in
  let ids :=
    if truthy (strip text) then
      match encode_body text with
      | Some token_ids => ids ++ token_ids
      | None => ids
      end
    else ids in
  match append with
  | Some a => ids ++ [control_id a]
  | None => ids
  end.

(** [encode] on a single string *)
Definition encode (text : string) (prepend append : option (Z + string))
  : list Z :=
  _encode_one text prepend append.

(** [encode] on a list of strings *)
Definition encode_batch (text : list string)
           (prepend append : option (Z + string)) : list (list Z) :=
  map (fun t => _encode_one t prepend append) text.

(** The loop of [decode]: the textual groups collected from [ids]. *)
Fixpoint decode_parts (parts : list string) (ids : list Z) : list string :=
  match ids with
  | [] => parts
  | idx :: rest =>
      if is_special_id idx then decode_parts parts rest
      else if (0 <=? idx) && (idx <=? 65535)
           then decode_parts (parts ++ [format_0x 4 idx]) rest
           else decode_parts parts rest
  end.

Definition decode (ids : list Z) : string :=
  let parts := decode_parts [] ids in
  if (length parts =? 0)%nat then EmptyString
  else
    let full_ip := join ":" parts in
    match addr ← ipaddress.IPv6Address_of_str full_ip; ipaddress.str addr with
    | Some compressed => compressed
    | None => full_ip
    end.

Record message := { role : string; content : string }.

Record conversation := { messages : list message }.

(** One iteration of the loop of [render_conversation]. *)
Definition render_message (acc : list Z * list Z) (m : message)
  : list Z * list Z :=
  let '(ids, mask) := acc in
  let encoded_ip := encode (content m) None None in
  if String.eqb (role m) "user" then
    (ids ++ encoded_ip, mask ++ repeat 0 (length encoded_ip))
  else if String.eqb (role m) "assistant" then
    ((ids ++ encoded_ip) ++ [eos_token_id self],
     (mask ++ repeat 1 (length encoded_ip)) ++ [1])
  else (ids, mask).

Definition render_conversation (conv : conversation) (max_tokens : Z)
  : list Z * list Z :=
  let bos := get_bos_token_id in
  let '(ids, mask) :=
    fold_left render_message (messages conv) ([bos], [0]) in
  (slice_list 0 max_tokens ids, slice_list 0 max_tokens mask).

Definition render_for_completion (conv : conversation) : list Z :=
  [get_bos_token_id].

End methods.

End tokenizer_ipv6.


(** ** [nanochat/scanner.py] *)

Module scanner.

(** What [subprocess.check_call(..., timeout=0.5)] can raise: the two
    exceptions [_ping_single] names, and any other error (for instance
    the [OSError] of a [ping6] that cannot be started). *)
Inductive exn := CalledProcessError | TimeoutExpired | OtherError.

Inductive outcome (A : Type) :=
| Returned (a : A)
| Raised (e : exn).
Arguments Returned {A} a.
Arguments Raised {A} e.

Record IPv6Scanner := { use_mock : bool }.

Section environment.

(** [check_call probe ip]: how the [ping6] process of the [probe]-th
    submitted task, run on [ip], ends. *)
Variable check_call : nat -> string -> outcome unit.

(** The successive values of [random.random()]. *)
Variable random : nat -> Q.

(** The order in which [concurrent.futures.as_completed] yields the
    submitted futures; a future is named by its position in
    [ip_list], and [future_to_ip[future]] is [ip_list[future]]. *)
Variable as_completed : list nat.

Definition _ping_single (probe : nat) (ip : string) : outcome bool :=
  match check_call probe ip with
  | Returned _ => Returned true
  | Raised CalledProcessError => Returned false
  | Raised TimeoutExpired => Returned false
  | Raised e => Raised e
  end.

Definition score (is_active : bool) : Q := if is_active then 1%Q else 0%Q.

(** [for future in as_completed(future_to_ip): ...]; [future.result()]
    re-raises what the task raised. *)
Fixpoint collect (ip_list : list string) (completed : list nat)
         (ip_status : gmap string Q) : outcome (gmap string Q) :=
  match completed with
  | [] => Returned ip_status
  | future :: rest =>
      match ip_list !! future with
      | Some ip =>
          match _ping_single future ip with
          | Returned is_active =>
              collect ip_list rest (<[ip := score is_active]> ip_status)
          | Raised e => Raised e
          end
      | None => collect ip_list rest ip_status
      end
  end.

Definition verify_batch (self : IPv6Scanner) (ip_list : list string)
  : outcome (list Q) :=
  if use_mock self then
    Returned (map (fun i => if Qle_bool (1 # 10) (random i) then 0%Q else 1%Q)
                  (seq 0 (length ip_list)))
  else
    match collect ip_list as_completed ∅ with
    | Returned ip_status =>
        Returned (map (fun ip => default 0%Q (ip_status !! ip)) ip_list)
    | Raised e => Raised e
    end.

End environment.

End scanner.

(** ** [dev/prepare_ipv6_parquet.py] *)

Module prepare_ipv6_parquet.

Import Py.

Definition NUM_BUCKETS : Z := 100.
Definition DOCS_PER_SHARD : Z := 200000.

Definition expand_ipv6 (ip_str : string) : option string :=
  addr ← ipaddress.IPv6Address_of_str ip_str;
  ipaddress.exploded addr.

(** *** Step 1: streaming and random bucketing *)

(** The body of [for line in fin] with the drawn [bucket_idx], an
    index into [bucket_files]; [bucket_files] holds what has been
    written to each bucket file. *)
Definition distribute_line (bucket_files : list string) (line : string)
           (bucket_idx : Z) : list string :=
  let line := strip line in
  if negb (truthy line) || startswith "#" line then bucket_files
  else alter (fun f => f +:+ (line +:+ newline)) (Z.to_nat bucket_idx) bucket_files.

(** The whole loop; [randint k] is the [k]-th value of
    [random.randint(0, NUM_BUCKETS - 1)], drawn for kept lines only. *)
Fixpoint distribute (randint : nat -> Z) (drawn : nat)
         (bucket_files : list string) (fin : list string) : list string :=
  match fin with
  | [] => bucket_files
  | line :: rest =>
      if negb (truthy (strip line)) || startswith "#" (strip line)
      then distribute randint drawn bucket_files rest
      else distribute randint (S drawn)
                      (distribute_line bucket_files line (randint drawn)) rest
  end.

(** *** Step 2: expand, deduplicate, shuffle and write shards *)

(** The written shards ([shard_index], rows of column [text]) and the
    two counters. *)
Record output := {
  shards : list (Z * list string);
  shard_index : Z;
  total_processed_ips : Z
}.

(** [for line in raw_lines: ...] filling [unique_ips] *)
Definition dedup_step (unique_ips : gset string) (line : string) : gset string :=
  match expand_ipv6 (strip line) with
  | Some expanded =>
      if truthy expanded then unique_ips ∪ {[ expanded ]} else unique_ips
  | None => unique_ips
  end.

Definition dedup (raw_lines : list string) : gset string :=
  fold_left dedup_step raw_lines ∅.

(** [while current_idx < len(ip_list): ...]; [None] when the fuel runs
    out before the loop ends. *)
Fixpoint write_shards (fuel : nat) (docs_per_shard : Z) (ip_list : list string)
         (current_idx : Z) (out : output) : option output :=
  match fuel with
  | O => None
  | S fuel' =>
      if current_idx <? Z.of_nat (length ip_list) then
        let chunk := slice_list current_idx (current_idx + docs_per_shard) ip_list in
        let out :=
          if (0 <? length chunk)%nat then
            {| shards := shards out ++ [(shard_index out, chunk)];
               shard_index := shard_index out + 1;
               total_processed_ips :=
                 total_processed_ips out + Z.of_nat (length chunk) |}
          else out in
        write_shards fuel' docs_per_shard ip_list (current_idx + docs_per_shard) out
      else Some out
  end.

Section reducer.

(** [random.shuffle]: the list it leaves behind. *)
Variable shuffle : list string -> list string.

(** The configured chunk size ([DOCS_PER_SHARD] by default). *)
Variable docs_per_shard : Z.

(** The shuffled, deduplicated sequence of one bucket. *)
Definition bucket_ip_list (raw_lines : list string) : list string :=
  shuffle (elements (dedup raw_lines)).

(** One iteration of [for i in range(NUM_BUCKETS)]. *)
Definition reduce_bucket (raw_lines : list string) (out : output)
  : option output :=
  let ip_list := bucket_ip_list raw_lines in
  write_shards (S (length ip_list)) docs_per_shard ip_list 0 out.

(** [for i in range(NUM_BUCKETS)] over the lines of the bucket files *)
Fixpoint reduce_buckets (buckets : list (list string)) (out : output)
  : option output :=
  match buckets with
  | [] => Some out
  | raw_lines :: rest =>
      out ← reduce_bucket raw_lines out;
      reduce_buckets rest out
  end.

End reducer.

(** [f.readlines()] of a text file with contents [s], read with
    universal newlines: a line ends at ["\n"], ["\r\n"] or ["\r"], and
    is returned with the terminator ["\n"]; [cur] is the line being
    read. *)
Fixpoint readlines_from (cur : string) (s : string) : list string :=
  match s with
  | EmptyString => if truthy cur then [cur] else []
  | String c s' =>
      if Ascii.eqb c (ascii_of_nat 10) then
        (cur +:+ newline) :: readlines_from EmptyString s'
      else if Ascii.eqb c (ascii_of_nat 13) then
        (cur +:+ newline)
          :: match s' with
             | String c' s'' =>
                 if Ascii.eqb c' (ascii_of_nat 10)
                 then readlines_from EmptyString s''
                 else readlines_from EmptyString s'
             | EmptyString => readlines_from EmptyString s'
             end
      else readlines_from (cur +:+ String c EmptyString) s'
  end.

Definition readlines (s : string) : list string :=
  readlines_from EmptyString s.

(** [process_low_memory] on an input file that exists and yields the
    lines [fin]: step 1 fills [NUM_BUCKETS] bucket files, step 2 reduces
    them in order with chunks of [DOCS_PER_SHARD]. *)
Definition process_low_memory (randint : nat -> Z)
           (shuffle : list string -> list string) (fin : list string)
  : option output :=
  let bucket_files :=
    distribute randint 0 (replicate (Z.to_nat NUM_BUCKETS) EmptyString) fin in
  reduce_buckets shuffle DOCS_PER_SHARD (map readlines bucket_files)
    {| shards := []; shard_index := 0; total_processed_ips := 0 |}.

End prepare_ipv6_parquet.

(** ** [config/ipv6_mac.py]: the settings that bound the tokenizer's output *)

Module ipv6_mac.

Definition vocab_size : Z := 65545.

Definition max_seq_len : Z := 32.

End ipv6_mac.

(** * Vocabulary of the statements

    What the properties are stated and proved with: renderings of
    numbers, the groups of a 128-bit value, the invariant of the
    compression scan, the sequences the spec describes. *)

Import Py ipaddress tokenizer_ipv6 scanner prepare_ipv6_parquet.

(** Fixed-width hexadecimal rendering: the [w] low digits of [n]. *)
Fixpoint hexw (w : nat) (n : Z) : string :=
  match w with
  | O => EmptyString
  | S w' => hexw w' (n / 16) +:+ String (hex_digit (n mod 16)) EmptyString
  end.

(** The [k]-th sixteen-bit group of [v], counted from the right. *)
Definition hextet_of (v : Z) (k : nat) : Z :=
  (v / 2 ^ (16 * Z.of_nat k)) mod 65536.

(** The [k] low groups of [v], leftmost first. *)
Fixpoint hextets_of (k : nat) (v : Z) : list Z :=
  match k with
  | O => []
  | S k' => hextet_of v k' :: hextets_of k' v
  end.

(** No group of [ps] is empty. *)
Definition all_truthy (ps : list string) : Prop :=
  Forall (fun p => truthy p = true) ps.

(** The extra empty group [_compress_hextets] puts at an end of the list
    when the compressed run touches that end. *)
Definition pad (ps : list string) : list string :=
  match ps with
  | [] => [EmptyString]
  | _ :: _ => []
  end.

(** What the four loop variables hold once the groups [done] have been
    read: the run of ["0"] groups ending at the current position, and the
    leftmost longest run seen so far. *)
Inductive scan_inv (done : list string) (st : doublecolon) : Prop :=
| ScanInv (cur_len best_len best_start : nat)
    (inv_cl : doublecolon_len st = Z.of_nat cur_len)
    (inv_cs : doublecolon_start st
              = if (cur_len =? 0)%nat then -1
                else Z.of_nat (length done - cur_len))
    (inv_cur_le : (cur_len <= length done)%nat)
    (inv_cur_run : drop (length done - cur_len) done = replicate cur_len "0")
    (inv_bl : best_doublecolon_len st = Z.of_nat best_len)
    (inv_le : (cur_len <= best_len)%nat)
    (inv_bs : best_doublecolon_start st
              = if (best_len =? 0)%nat then -1 else Z.of_nat best_start)
    (inv_best_le : (best_start + best_len <= length done)%nat)
    (inv_best_run : take best_len (drop best_start done)
                    = replicate best_len "0").

(** The loop variables before the first group is read. *)
Definition scan_init : doublecolon :=
  {| best_doublecolon_start := -1; best_doublecolon_len := 0;
     doublecolon_start := -1; doublecolon_len := 0 |}.

(** A check of every value from [x] on, [fuel] of them. *)
Fixpoint check_upto (P : Z -> bool) (fuel : nat) (x : Z) : bool :=
  match fuel with
  | O => true
  | S fuel' => P x && check_upto P fuel' (x + 1)
  end.

(** The text [s] is non-empty, holds none of the characters the address
    parser gives a meaning to, and reads back as the group [h]. *)
Definition text_ok (h : Z) (s : string) : bool :=
  truthy s
  && negb (contains ":" s) && negb (contains "." s)
  && negb (contains "/" s) && negb (contains "%" s)
  && match _parse_hextet s with
     | Some h' => h' =? h
     | None => false
     end.

(** [text_ok] for the text ['%x' % h] of a group. *)
Definition hextet_text_ok (h : Z) : bool := text_ok h (format_x h).

(** The strings of [gs] one after the other. *)
Fixpoint concat_str (gs : list string) : string :=
  match gs with
  | [] => EmptyString
  | g :: gs' => g +:+ concat_str gs'
  end.

(** What [str] prints for the address [v]. *)
Definition compressed_text (v : Z) : string :=
  join ":" (_compress_hextets (map format_x (hextets_of 8 v))).

(** What [.exploded] prints for the address [v]. *)
Definition exploded_text (v : Z) : string :=
  join ":" (map (hexw 4) (hextets_of 8 v)).

(** No character of [s] is a blank. *)
Definition nonspace (s : string) : Prop :=
  all_chars (fun c => negb (isspace c)) s = true.

(** A segment token: an id in [[0, 65535]]. *)
Definition is_segment (idx : Z) : bool := (0 <=? idx) && (idx <=? 65535).

(** A lower-case hexadecimal digit. *)
Definition is_lower_hex (c : ascii) : bool :=
  match c with
  | "0" | "1" | "2" | "3" | "4" | "5" | "6" | "7" | "8" | "9"
  | "a" | "b" | "c" | "d" | "e" | "f" => true
  | _ => false
  end%char.

(** What the spec asks of one message: its body tokens, each paired with
    mask 0 for role ["user"] and mask 1 for role ["assistant"], the latter
    followed by the end token with mask 1.  A message of any other role
    adds nothing. *)
Definition rendered_message (self : IPv6SegmentTokenizer) (m : message)
  : list (Z * Z) :=
  let body := encode self (content m) None None in
  if String.eqb (role m) "user" then map (fun tok => (tok, 0)) body
  else if String.eqb (role m) "assistant"
       then map (fun tok => (tok, 1)) body ++ [(eos_token_id self, 1)]
       else [].

(** The start token with mask 0, then the messages in order. *)
Definition rendered_conversation (self : IPv6SegmentTokenizer)
           (conv : conversation) : list (Z * Z) :=
  (bos_token_id self, 0) :: concat (map (rendered_message self) (messages conv)).

(** The chunks the [while] loop cuts: [size] elements at a time until the
    list is used up. *)
Fixpoint chunked {A} (fuel size : nat) (l : list A) : list (list A) :=
  match fuel with
  | O => []
  | S fuel' =>
      match l with
      | [] => []
      | _ :: _ => take size l :: chunked fuel' size (drop size l)
      end
  end.

(** Writing the chunks [chunks] as new shards after [out]. *)
Definition emit (out : output) (chunks : list (list string)) : output :=
  fold_left
    (fun out chunk =>
       {| shards := shards out ++ [(shard_index out, chunk)];
          shard_index := shard_index out + 1;
          total_processed_ips := total_processed_ips out + Z.of_nat (length chunk) |})
    chunks out.

(** The chunks one bucket is cut into. *)
Definition bucket_chunks (shuffle : list string -> list string)
           (docs_per_shard : Z) (raw_lines : list string) : list (list string) :=
  let ip_list := bucket_ip_list shuffle raw_lines in
  chunked (S (length ip_list)) (Z.to_nat docs_per_shard) ip_list.

(** The lines of a small bucket: four address texts, two of them for the
    same address, and one line that is no address. *)
Definition sample_bucket : list string :=
  map (fun s => s +:+ newline) ["::1"; "bad"; "0::1"; "::2"; "1::"].

(** The state of the writer after seven shards. *)
Definition sample_output : output :=
  {| shards := []; shard_index := 7; total_processed_ips := 0 |}.

(** The probe ends with a verdict: [ping6] returned, exited with a
    non-zero status, or ran into the timeout. *)
Definition has_verdict (check_call : nat -> string -> outcome unit)
           (probe : nat) (ip : string) : Prop :=
  check_call probe ip <> Raised OtherError.

(** [IPv6Scanner(use_mock=False)] *)
Definition real_scanner : IPv6Scanner := {| use_mock := false |}.

(** An environment where the probe of [2001:db8::1] times out and every
    other probe succeeds. *)
Definition sample_check_call (probe : nat) (ip : string) : outcome unit :=
  if String.eqb ip "2001:db8::1" then Raised TimeoutExpired else Returned ().

(** The three addresses of the module's self-test. *)
Definition sample_ips : list string :=
  ["2400:3200::1"; "2001:4860:4860::8888"; "2001:db8::1"].

(** A character an address text holds outside a zone identifier: a
    hexadecimal digit, [":"] or ["."]. *)
Definition is_address_char (c : ascii) : bool :=
  is_hex_digit c || Ascii.eqb c ":" || Ascii.eqb c ".".

(** The 128-bit value whose sixteen-bit groups, leftmost first, are [hs]. *)
Definition address_of_hextets (hs : list Z) : Z :=
  fold_left (fun acc h => acc * 65536 + h) hs 0.

(** The ids a [prepend] or [append] argument contributes. *)
Definition control_ids (self : IPv6SegmentTokenizer) (c : option (Z + string))
  : list Z :=
  match c with
  | Some c => [control_id self c]
  | None => []
  end.

(** The body tokens of [text]: the eight groups of the address
    [text.strip()] denotes when it is an address without a zone, and
    nothing for any other text. *)
Definition body_tokens (text : string) : list Z :=
  match IPv6Address_of_str (strip text) with
  | Some addr =>
      match _scope_id addr with
      | None => hextets_of 8 (_ip addr)
      | Some _ => []
      end
  | None => []
  end.

(** [IPv6Scanner(use_mock=True)] *)
Definition mock_scanner : IPv6Scanner := {| use_mock := true |}.

(** An environment where no [ping6] process can be started. *)
Definition broken_check_call (probe : nat) (ip : string) : outcome unit :=
  Raised OtherError.

(** An environment where the first submitted probe succeeds and every
    other one times out. *)
Definition first_only_check_call (probe : nat) (ip : string) : outcome unit :=
  if (probe =? 0)%nat then Returned () else Raised TimeoutExpired.

(** A lower-case hexadecimal digit or a colon. *)
Definition is_exploded_char (c : ascii) : bool :=
  is_lower_hex c || Ascii.eqb c ":".

(** A line the bucketizer keeps: not blank once stripped, and no
    comment. *)
Definition kept (line : string) : bool :=
  truthy (strip line) && negb (startswith "#" (strip line)).

(** No line terminator in [s]. *)
Definition no_eol (s : string) : bool :=
  negb (contains (ascii_of_nat 10) s) && negb (contains (ascii_of_nat 13) s).

(** The contents of a file the lines [ls] were written to, each
    followed by a newline. *)
Definition written_lines (ls : list string) : string :=
  concat_str (map (fun s => s +:+ newline) ls).

(** The loop of step 1 on the lines of the buckets instead of the
    contents of the bucket files: [buckets] holds, for every bucket, the
    stripped lines written to it so far, in order. *)
Fixpoint assign (randint : nat -> Z) (drawn : nat)
         (buckets : list (list string)) (fin : list string)
  : list (list string) :=
  match fin with
  | [] => buckets
  | line :: rest =>
      if kept line
      then assign randint (S drawn)
                  (alter (fun ls => ls ++ [strip line])
                         (Z.to_nat (randint drawn)) buckets)
                  rest
      else assign randint drawn buckets rest
  end.

(** The writer before the first shard. *)
Definition no_output : output :=
  {| shards := []; shard_index := 0; total_processed_ips := 0 |}.

(** The rows of all the shards, in the order they were written. *)
Definition rows (out : output) : list string :=
  concat (map snd (shards out)).

(** * Properties *)

#[local] Arguments String.append : simpl nomatch.
#[local] Arguments Py.join : simpl never.

Lemma app_nil_r_str (s : string) : s +:+ EmptyString = s.
Proof. induction s; simpl; congruence. Qed.

Lemma app_assoc_str (a b c : string) : (a +:+ b) +:+ c = a +:+ (b +:+ c).
Proof. induction a; simpl; congruence. Qed.

Lemma length_app_str (a b : string) :
  String.length (a +:+ b) = (String.length a + String.length b)%nat.
Proof. induction a; simpl; congruence. Qed.

Lemma zeros_snoc k : zeros k +:+ "0" = zeros (S k).
Proof. induction k; simpl in *; congruence. Qed.

Lemma hexw_0 w : hexw w 0 = zeros w.
Proof.
  induction w; [reflexivity|].
  cbn [hexw]. change (0 / 16) with 0. change (0 mod 16) with 0.
  rewrite IHw. apply zeros_snoc.
Qed.

Lemma length_hexw w n : String.length (hexw w n) = w.
Proof.
  revert n; induction w; intros n; [reflexivity|].
  cbn [hexw]. rewrite length_app_str, IHw. simpl. lia.
Qed.

Lemma zfill_snoc w s c :
  zfill (S w) (s +:+ String c EmptyString) = zfill w s +:+ String c EmptyString.
Proof.
  unfold zfill. rewrite length_app_str. simpl String.length.
  replace (S w - (String.length s + 1))%nat with (w - String.length s)%nat by lia.
  now rewrite app_assoc_str.
Qed.

Lemma zfill_empty w : zfill w EmptyString = zeros w.
Proof. unfold zfill. simpl. rewrite Nat.sub_0_r. apply app_nil_r_str. Qed.

Lemma hex_digits_zfill fuel : forall w n,
  0 <= n < 16 ^ Z.of_nat fuel -> n < 16 ^ Z.of_nat w ->
  zfill w (hex_digits fuel n) = hexw w n.
Proof.
  induction fuel as [|fuel IH]; intros w n Hn Hw.
  - simpl in *. assert (n = 0) by lia. subst. now rewrite zfill_empty, hexw_0.
  - cbn [hex_digits]. destruct (Z.eqb_spec n 0) as [->|Hne].
    + now rewrite zfill_empty, hexw_0.
    + destruct w as [|w]; [simpl in Hw; lia|].
      rewrite zfill_snoc. cbn [hexw]. f_equal.
      rewrite Nat2Z.inj_succ, Z.pow_succ_r in Hn, Hw by lia.
      apply IH.
      * split; [apply Z.div_pos; lia|]. apply Z.div_lt_upper_bound; lia.
      * apply Z.div_lt_upper_bound; lia.
Qed.

Lemma hex_of_nonneg_zfill w n :
  (1 <= w)%nat -> 0 <= n < 16 ^ Z.of_nat w -> zfill w (hex_of_nonneg n) = hexw w n.
Proof.
  intros Hw Hn. unfold hex_of_nonneg. destruct (Z.eqb_spec n 0) as [->|Hne].
  - rewrite hexw_0. unfold zfill. simpl String.length.
    replace w with (S (w - 1)) at 2 by lia. now rewrite zeros_snoc.
  - apply hex_digits_zfill; [|lia]. split; [lia|].
    assert (Hl := Z.log2_spec n ltac:(lia)).
    assert (0 <= Z.log2 n) by apply Z.log2_nonneg.
    rewrite Nat2Z.inj_succ, Z2Nat.id by lia.
    eapply Z.lt_le_trans; [apply Hl|].
    apply Z.pow_le_mono_l. lia.
Qed.

Lemma format_0x_hexw w n :
  (1 <= w)%nat -> 0 <= n < 16 ^ Z.of_nat w -> format_0x w n = hexw w n.
Proof.
  intros Hw Hn. unfold format_0x.
  destruct (Z.ltb_spec n 0); [lia|]. now apply hex_of_nonneg_zfill.
Qed.

Lemma hexw_app b : forall a n,
  hexw (b + a) n = hexw a (n / 16 ^ Z.of_nat b) +:+ hexw b n.
Proof.
  induction b as [|b IH]; intros a n.
  - simpl. now rewrite Z.div_1_r, app_nil_r_str.
  - cbn [Nat.add hexw]. rewrite IH, app_assoc_str. do 2 f_equal.
    rewrite Nat2Z.inj_succ, Z.pow_succ_r by lia.
    rewrite Z.div_div by lia. reflexivity.
Qed.

Lemma hexw_mod w : forall n, hexw w (n mod 16 ^ Z.of_nat w) = hexw w n.
Proof.
  induction w as [|w IH]; intros n; [reflexivity|].
  cbn [hexw]. rewrite Nat2Z.inj_succ, Z.pow_succ_r by lia.
  assert (H16 : 0 < 16 ^ Z.of_nat w) by (apply Z.pow_pos_nonneg; lia).
  f_equal.
  - rewrite <- (IH (n / 16)). f_equal.
    rewrite Z.rem_mul_r by lia.
    rewrite Z.mul_comm, Z.div_add by lia.
    rewrite (Z.div_small (n mod 16)) by (apply Z.mod_pos_bound; lia). 
    simpl. reflexivity.
  - do 2 f_equal. rewrite Z.rem_mul_r by lia.
    rewrite Z.mul_comm, Z.mod_add by lia. apply Z.mod_mod; lia.
Qed.

(** *** Characters of rendered numbers *)

Lemma hex_digit_is_hex d : is_hex_digit (hex_digit d) = true.
Proof.
  unfold hex_digit.
  repeat match goal with
         | |- context [match ?x with _ => _ end] => destruct x
         end; reflexivity.
Qed.

Lemma hex_value_hex_digit d : 0 <= d < 16 -> hex_value (hex_digit d) = Some d.
Proof.
  intros H.
  assert (d = 0 \/ d = 1 \/ d = 2 \/ d = 3 \/ d = 4 \/ d = 5 \/ d = 6 \/ d = 7 \/
          d = 8 \/ d = 9 \/ d = 10 \/ d = 11 \/ d = 12 \/ d = 13 \/ d = 14 \/ d = 15)
    as Hd by lia.
  repeat (destruct Hd as [-> | Hd]; [reflexivity|]). now subst.
Qed.

Lemma all_chars_app p a b :
  all_chars p (a +:+ b) = all_chars p a && all_chars p b.
Proof. induction a; simpl; [reflexivity|]. now rewrite IHa, andb_assoc. Qed.

Lemma all_chars_hexw w n : all_chars is_hex_digit (hexw w n) = true.
Proof.
  revert n; induction w; intros n; [reflexivity|].
  cbn [hexw]. rewrite all_chars_app, IHw. simpl. now rewrite hex_digit_is_hex.
Qed.

Lemma all_chars_impl (p q : ascii -> bool) s :
  (forall c, p c = true -> q c = true) ->
  all_chars p s = true -> all_chars q s = true.
Proof.
  intros Hpq. induction s; simpl; [reflexivity|].
  intros [H1 H2]%andb_prop. rewrite (Hpq _ H1). now apply IHs.
Qed.

Lemma contains_all_chars p c s :
  p c = false -> all_chars p s = true -> contains c s = false.
Proof.
  intros Hc. induction s; simpl; [reflexivity|].
  intros [H1 H2]%andb_prop. destruct (Ascii.eqb_spec a c) as [->|_].
  - congruence.
  - now apply IHs.
Qed.

Lemma contains_app c a b : contains c (a +:+ b) = contains c a || contains c b.
Proof. induction a; simpl; [reflexivity|]. destruct (Ascii.eqb a c); auto. Qed.

(** *** Reading digits back *)

Lemma int_digits_app base value acc a b :
  int_digits base value acc (a +:+ b)
  = match int_digits base value acc a with
    | Some acc' => int_digits base value acc' b
    | None => None
    end.
Proof.
  revert acc; induction a; intros acc; simpl; [reflexivity|].
  destruct (value a); [apply IHa | reflexivity].
Qed.

Lemma int_digits_hexw w : forall acc n,
  int_digits 16 hex_value acc (hexw w n)
  = Some (acc * 16 ^ Z.of_nat w + n mod 16 ^ Z.of_nat w).
Proof.
  induction w as [|w IH]; intros acc n.
  - simpl. rewrite Z.mod_1_r. f_equal. lia.
  - cbn [hexw]. rewrite int_digits_app, IH. simpl int_digits.
    rewrite hex_value_hex_digit by (apply Z.mod_pos_bound; lia).
    f_equal. rewrite Nat2Z.inj_succ, Z.pow_succ_r by lia.
    rewrite (Z.rem_mul_r n 16) by (try apply Z.pow_nonzero; lia). 
    assert (0 < 16 ^ Z.of_nat w) by (apply Z.pow_pos_nonneg; lia). lia.
Qed.

Lemma int_digits_bound base value s : forall acc r,
  1 < base -> (forall c d, value c = Some d -> 0 <= d < base) ->
  int_digits base value acc s = Some r -> 0 <= acc ->
  acc * base ^ Z.of_nat (String.length s) <= r
  < (acc + 1) * base ^ Z.of_nat (String.length s).
Proof.
  intros acc r Hb Hv. revert acc r.
  induction s as [|c s IH]; intros acc r H Hacc.
  - simpl in *. injection H as <-. lia.
  - simpl in H. destruct (value c) as [d|] eqn:Hd; [|discriminate].
    apply Hv in Hd. apply IH in H; [|nia].
    cbn [String.length]. rewrite Nat2Z.inj_succ, Z.pow_succ_r by lia.
    assert (0 < base ^ Z.of_nat (String.length s)) by (apply Z.pow_pos_nonneg; lia).
    nia.
Qed.

Lemma hex_value_range c d : hex_value c = Some d -> 0 <= d < 16.
Proof.
  unfold hex_value.
  repeat match goal with
         | |- context [if ?b then _ else _] => destruct b eqn:?
         end; intros [= <-]; lia.
Qed.

Lemma truthy_length s : truthy s = true <-> (0 < String.length s)%nat.
Proof. destruct s; simpl; split; (lia || congruence). Qed.

Lemma truthy_app_l a b : truthy a = true -> truthy (a +:+ b) = true.
Proof. destruct a; simpl; congruence. Qed.

Lemma truthy_hexw w n : (0 < w)%nat -> truthy (hexw w n) = true.
Proof. intros H. apply truthy_length. now rewrite length_hexw. Qed.

(** *** Slicing, splitting and joining *)

Lemma substring_0_app a b :
  substring 0 (String.length a) (a +:+ b) = a.
Proof.
  induction a; simpl.
  - now destruct b.
  - now rewrite IHa.
Qed.

Lemma substring_skip_app a b k m :
  substring (String.length a + k) m (a +:+ b) = substring k m b.
Proof. induction a; simpl; auto. Qed.

Lemma split_no_sep c s : contains c s = false -> split c s = [s].
Proof.
  induction s as [|a s IH]; simpl; [reflexivity|].
  destruct (Ascii.eqb a c); [discriminate|]. intros H. now rewrite IH.
Qed.

Lemma split_app_sep c p rest :
  contains c p = false ->
  split c (p +:+ String c rest) = p :: split c rest.
Proof.
  induction p as [|a p IH]; simpl.
  - now rewrite Ascii.eqb_refl.
  - destruct (Ascii.eqb a c); [discriminate|]. intros H. now rewrite IH.
Qed.

Lemma join_cons sep p q ps :
  join sep (p :: q :: ps) = p +:+ (sep +:+ join sep (q :: ps)).
Proof. reflexivity. Qed.

Lemma split_join c ps :
  ps <> [] -> Forall (fun p => contains c p = false) ps ->
  split c (join (String c EmptyString) ps) = ps.
Proof.
  intros Hne H. induction H as [|p ps Hp Hps IH]; [congruence|].
  destruct ps as [|q ps].
  - simpl. now apply split_no_sep.
  - rewrite join_cons. simpl append. rewrite split_app_sep by assumption.
    f_equal. now apply IH.
Qed.

Lemma split_nonempty c s : split c s <> [].
Proof.
  destruct s as [|a s]; simpl; [discriminate|].
  destruct (Ascii.eqb a c); [discriminate|]. now destruct (split c s).
Qed.

Lemma join_split c s : join (String c EmptyString) (split c s) = s.
Proof.
  induction s as [|a s IH]; [reflexivity|]. simpl.
  pose proof (split_nonempty c s) as Hne.
  destruct (split c s) as [|p ps]; [congruence|]. clear Hne.
  destruct (Ascii.eqb_spec a c) as [->|_].
  - rewrite join_cons. simpl. now rewrite IH.
  - destruct ps as [|q qs].
    + unfold join in *. simpl in *. now rewrite IH.
    + rewrite join_cons in *. simpl in *. now rewrite IH.
Qed.

Lemma contains_join c sep ps :
  contains c sep = false -> Forall (fun p => contains c p = false) ps ->
  contains c (join sep ps) = false.
Proof.
  intros Hsep H. induction H as [|p ps Hp Hps IH]; [reflexivity|].
  destruct ps as [|q ps]; [assumption|].
  rewrite join_cons, !contains_app, Hp, Hsep. apply IH.
Qed.

Lemma join_snoc sep ps p :
  ps <> [] -> join sep (ps ++ [p]) = join sep ps +:+ (sep +:+ p).
Proof.
  induction ps as [|q ps IH]; [congruence|]. intros _.
  destruct ps as [|q' ps].
  - reflexivity.
  - specialize (IH ltac:(discriminate)).
    cbn [app] in *. rewrite (join_cons sep q q'), IH, join_cons.
    now rewrite !app_assoc_str.
Qed.

Lemma partition_not_found c s :
  contains c s = false -> partition c s = (s, false, EmptyString).
Proof.
  induction s as [|a s IH]; simpl; [reflexivity|].
  destruct (Ascii.eqb a c); [discriminate|]. intros H. now rewrite IH.
Qed.

Lemma partition_found_false c s h t :
  partition c s = (h, false, t) -> h = s /\ contains c s = false.
Proof.
  revert h t; induction s as [|a s IH]; simpl; intros h t.
  - intros [= <- <-]. auto.
  - destruct (Ascii.eqb a c); [discriminate|].
    destruct (partition c s) as [[h' f'] t'] eqn:E. intros [= <- -> <-].
    destruct (IH _ _ eq_refl) as [-> ->]. auto.
Qed.

(** *** Stripping *)

Lemma rstrip_all_nonspace s :
  all_chars (fun c => negb (isspace c)) s = true -> rstrip s = s.
Proof.
  induction s as [|a s IH]; simpl; [reflexivity|].
  intros [H1 H2]%andb_prop. rewrite IH by assumption.
  apply negb_true_iff in H1. rewrite H1. now destruct s.
Qed.

Lemma rstrip_app a b :
  truthy b = true -> rstrip b = b -> rstrip (a +:+ b) = a +:+ b.
Proof.
  intros Hb Hr. induction a as [|c a IH]; simpl; [assumption|].
  rewrite IH. destruct (a +:+ b) eqn:E; [|reflexivity].
  destruct a; simpl in E; [subst; discriminate | discriminate].
Qed.

(** *** Sixteen-bit groups of an integer *)

Lemma lor_shiftl_rebuild q :
  Z.lor (Z.shiftl (q / 65536) 16) (q mod 65536) = q.
Proof.
  apply Z.bits_inj'. intros n Hn.
  rewrite Z.lor_spec, Z.shiftl_spec by assumption.
  change 65536 with (2 ^ 16).
  destruct (Z.lt_ge_cases n 16) as [Hlt|Hge].
  - rewrite Z.testbit_neg_r by lia.
    rewrite Z.mod_pow2_bits_low by lia. reflexivity.
  - rewrite Z.div_pow2_bits by lia.
    rewrite Z.mod_pow2_bits_high by lia.
    rewrite orb_false_r. f_equal. lia.
Qed.

Lemma lor_shiftl_add a h :
  0 <= h < 65536 -> Z.lor (Z.shiftl a 16) h = a * 65536 + h.
Proof.
  intros Hh. rewrite <- (lor_shiftl_rebuild (a * 65536 + h)) at 1.
  rewrite Z.div_add_l, Z.div_small, Z.add_0_r by lia.
  now rewrite Z.add_comm, Z.mod_add, Z.mod_small by lia.
Qed.

Lemma hextet_of_range v k : 0 <= hextet_of v k < 65536.
Proof. apply Z.mod_pos_bound. lia. Qed.

Lemma length_hextets_of k v : length (hextets_of k v) = k.
Proof. induction k; simpl; congruence. Qed.

Lemma Forall_hextets_of k v :
  Forall (fun h => 0 <= h < 65536) (hextets_of k v).
Proof. induction k; simpl; constructor; auto using hextet_of_range. Qed.

(** *** [_parse_hextet] and [_parse_hextets] *)

Lemma parse_hextet_hexw n : _parse_hextet (hexw 4 n) = Some (n mod 65536).
Proof.
  unfold _parse_hextet. rewrite all_chars_hexw, length_hexw. simpl negb.
  cbn match. unfold int16. rewrite truthy_hexw by lia.
  rewrite int_digits_hexw. reflexivity.
Qed.

Lemma parse_hextet_Some p h :
  _parse_hextet p = Some h ->
  0 <= h < 65536 /\ truthy p = true /\ all_chars is_hex_digit p = true.
Proof.
  unfold _parse_hextet, int16.
  destruct (all_chars is_hex_digit p) eqn:Hall; [|discriminate]. simpl.
  destruct (Nat.ltb_spec 4 (String.length p)) as [|Hlen]; [discriminate|].
  destruct (truthy p) eqn:Ht; [|discriminate]. intros H.
  apply int_digits_bound in H; [|lia|apply hex_value_range|lia].
  repeat split; try lia.
  eapply Z.lt_le_trans; [apply H|]. rewrite Z.mul_1_l.
  change 65536 with (16 ^ 4). apply Z.pow_le_mono_r; lia.
Qed.

Lemma parse_hextets_app ps qs : forall acc,
  _parse_hextets acc (ps ++ qs)
  = match _parse_hextets acc ps with
    | Some acc' => _parse_hextets acc' qs
    | None => None
    end.
Proof.
  induction ps as [|p ps IH]; intros acc; simpl; [reflexivity|].
  destruct (_parse_hextet p); simpl; [apply IH | reflexivity].
Qed.

Lemma parse_hextet_zero : _parse_hextet "0" = Some 0.
Proof. reflexivity. Qed.

Lemma parse_hextets_zeros l : forall acc,
  _parse_hextets acc (replicate l "0") = Some (Z.shiftl acc (16 * Z.of_nat l)).
Proof.
  induction l as [|l IH]; intros acc.
  - simpl. now rewrite Z.shiftl_0_r.
  - cbn [replicate _parse_hextets]. rewrite parse_hextet_zero. simpl mbind.
    cbn. rewrite IH, Z.lor_0_r, Z.shiftl_shiftl by lia. do 2 f_equal. lia.
Qed.

Lemma parse_hextets_bound ps : forall acc r n,
  _parse_hextets acc ps = Some r -> 0 <= n -> 0 <= acc < 2 ^ n ->
  0 <= r < 2 ^ (n + 16 * Z.of_nat (length ps)).
Proof.
  induction ps as [|p ps IH]; intros acc r n H Hn Hacc.
  - simpl in *. injection H as <-. now rewrite Z.add_0_r.
  - simpl in H. destruct (_parse_hextet p) as [h|] eqn:Hp; [|discriminate].
    simpl in H. apply parse_hextet_Some in Hp as (Hh & _ & _).
    rewrite lor_shiftl_add in H by assumption.
    apply (IH _ _ (n + 16)) in H; [| lia |].
    + cbn [length]. rewrite Nat2Z.inj_succ.
      replace (n + 16 * Z.succ (Z.of_nat (length ps)))
        with (n + 16 + 16 * Z.of_nat (length ps)) by lia. exact H.
    + rewrite Z.pow_add_r by lia. change (2 ^ 16) with 65536. nia.
Qed.

Lemma parse_hextets_Forall ps : forall acc r,
  _parse_hextets acc ps = Some r ->
  Forall (fun p => truthy p = true /\ all_chars is_hex_digit p = true) ps.
Proof.
  induction ps as [|p ps IH]; intros acc r H; [constructor|].
  simpl in H. destruct (_parse_hextet p) as [h|] eqn:Hp; [|discriminate].
  apply parse_hextet_Some in Hp as (_ & Ht & Hc).
  constructor; [auto|]. eapply IH, H.
Qed.

(** Reading the groups of [v] back, leftmost first, rebuilds [v]. *)
Lemma parse_hextets_pack v k : forall ps,
  Forall2 (fun p h => _parse_hextet p = Some h) ps (hextets_of k v) ->
  _parse_hextets (v / 2 ^ (16 * Z.of_nat k)) ps = Some v.
Proof.
  induction k as [|k IH]; intros ps H.
  - inversion H; subst. simpl. now rewrite Z.div_1_r.
  - cbn [hextets_of] in H. inversion H as [|p h ps' hs Hp Hps]; subst.
    cbn [_parse_hextets]. rewrite Hp. simpl mbind. cbn.
    rewrite <- (IH ps' Hps). f_equal.
    unfold hextet_of.
    replace (v / 2 ^ (16 * Z.of_nat (S k)))
      with (v / 2 ^ (16 * Z.of_nat k) / 65536).
    + apply lor_shiftl_rebuild.
    + rewrite Z.div_div by (try apply Z.pow_pos_nonneg; lia).
      f_equal. change 65536 with (2 ^ 16). rewrite <- Z.pow_add_r by lia.
      f_equal. lia.
Qed.

(** *** Locating the [::] *)

Lemma find_skip_none ps : forall i sk,
  all_truthy ps -> _find_skip_index i ps sk = Some sk.
Proof.
  induction ps as [|p ps IH]; intros i sk H; [reflexivity|].
  inversion H as [|? ? Hp Hps]; subst. simpl. rewrite Hp. simpl. now apply IH.
Qed.

Lemma find_skip_one X Y : forall i,
  all_truthy X -> all_truthy Y ->
  _find_skip_index i (X ++ EmptyString :: Y) None = Some (Some (i + length X)%nat).
Proof.
  induction X as [|p X IH]; intros i HX HY.
  - simpl. rewrite find_skip_none by assumption. do 2 f_equal. lia.
  - inversion HX as [|? ? Hp HX']; subst. simpl. rewrite Hp. simpl.
    rewrite IH by assumption. do 2 f_equal. lia.
Qed.

Lemma find_skip_range ps : forall i sk j,
  _find_skip_index i ps sk = Some (Some j) ->
  sk = Some j \/ (i <= j < i + length ps)%nat.
Proof.
  induction ps as [|p ps IH]; intros i sk j H; simpl in H.
  - left. congruence.
  - destruct (truthy p); simpl in H.
    + apply IH in H as [H|H]; [auto | right; simpl; lia].
    + destruct sk; [discriminate|].
      apply IH in H as [H|H]; right; simpl; [injection H as <-|]; lia.
Qed.

Lemma last_part_app X Y : Y <> [] -> last_part (X ++ Y) = last_part Y.
Proof.
  intros HY. unfold last_part. induction X as [|x X IH]; [reflexivity|].
  simpl. destruct (X ++ Y) eqn:E; [|exact IH].
  apply app_eq_nil in E as [_ ?]. congruence.
Qed.

Lemma last_part_cons x Y : Y <> [] -> last_part (x :: Y) = last_part Y.
Proof. intros HY. now apply (last_part_app [x]). Qed.

Lemma last_part_removelast Y : Y <> [] -> Y = removelast Y ++ [last_part Y].
Proof. intros H. now apply app_removelast_last. Qed.

Lemma all_truthy_removelast Y : all_truthy Y -> all_truthy (removelast Y).
Proof.
  induction 1 as [|y Y Hy HY IH]; [constructor|].
  simpl. destruct Y; [constructor|]. constructor; assumption.
Qed.

Lemma all_truthy_tail Y : all_truthy Y -> all_truthy (tail Y).
Proof. destruct 1; [constructor | assumption]. Qed.

Lemma all_truthy_hd ps : ps <> [] -> all_truthy ps -> truthy (hd EmptyString ps) = true.
Proof. intros Hne H. destruct H; [congruence | assumption]. Qed.

Lemma all_truthy_last ps :
  ps <> [] -> all_truthy ps -> truthy (last_part ps) = true.
Proof.
  intros Hne H. rewrite (last_part_removelast ps Hne) in H.
  apply Forall_app in H as [_ H]. now inversion H.
Qed.

(** [_ip_int_from_parts] on eight non-empty groups. *)
Lemma from_parts_full parts :
  length parts = 8%nat -> all_truthy parts ->
  contains "." (last_part parts) = false ->
  _ip_int_from_parts parts = _parse_hextets 0 parts.
Proof.
  intros Hlen Hall Hdot. unfold _ip_int_from_parts.
  assert (Hne : parts <> []) by (intros ->; discriminate).
  rewrite Hlen, Hdot. simpl.
  rewrite Hlen. simpl.
  rewrite find_skip_none by now apply all_truthy_removelast, all_truthy_tail.
  simpl.
  rewrite all_truthy_hd, all_truthy_last by assumption. simpl.
  rewrite take_ge, drop_ge by lia.
  destruct (_parse_hextets 0 parts) as [r|]; simpl; [|reflexivity].
  now rewrite Z.shiftl_0_r.
Qed.

(** [_ip_int_from_parts] once the single empty group inside the list is
    located: [X] and [Y] are what stands before and after it. *)
Lemma from_parts_core X Y :
  X <> [] -> Y <> [] -> all_truthy (tail X) -> all_truthy (removelast Y) ->
  contains "." (last_part Y) = false -> (length X + length Y <= 8)%nat ->
  _ip_int_from_parts (X ++ EmptyString :: Y) =
    parts_hi ←
      (if negb (truthy (hd EmptyString X)) then
         if negb (Z.of_nat (length X) - 1 =? 0) then None
         else Some (Z.of_nat (length X) - 1)
       else Some (Z.of_nat (length X)));
    parts_lo ←
      (if negb (truthy (last_part Y)) then
         if negb (Z.of_nat (length Y) - 1 =? 0) then None
         else Some (Z.of_nat (length Y) - 1)
       else Some (Z.of_nat (length Y)));
    if 8 - (parts_hi + parts_lo) <? 1 then None
    else
      ip_int ← _parse_hextets 0 (take (Z.to_nat parts_hi) (X ++ EmptyString :: Y));
      _parse_hextets (Z.shiftl ip_int (16 * (8 - (parts_hi + parts_lo))))
        (drop (length (X ++ EmptyString :: Y) - Z.to_nat parts_lo)
              (X ++ EmptyString :: Y)).
Proof.
  intros HX HY HtX HtY Hdot Hlen. unfold _ip_int_from_parts.
  set (parts := X ++ EmptyString :: Y).
  assert (Hlp : length parts = (length X + 1 + length Y)%nat).
  { unfold parts. rewrite length_app. simpl. lia. }
  assert (HlX : (1 <= length X)%nat) by (destruct X; [congruence | simpl; lia]).
  assert (HlY : (1 <= length Y)%nat) by (destruct Y; [congruence | simpl; lia]).
  destruct (Nat.ltb_spec (length parts) 3) as [|_]; [lia|].
  assert (Hlast : last_part parts = last_part Y).
  { unfold parts. rewrite last_part_app by discriminate.
    now apply last_part_cons. }
  rewrite Hlast, Hdot. simpl mbind.
  change (Some parts ≫= ?f) with (f parts). cbv beta.
  destruct (Nat.ltb_spec (Z.to_nat (_HEXTET_COUNT + 1)) (length parts)) as [Hgt|_].
  { unfold _HEXTET_COUNT in Hgt. lia. }
  assert (Hmid : removelast (tail parts) = tail X ++ EmptyString :: removelast Y).
  { unfold parts. destruct X as [|x X]; [congruence|]. simpl tail.
    rewrite removelast_app by discriminate.
    f_equal. simpl. destruct Y; [congruence | reflexivity]. }
  rewrite Hmid, find_skip_one by assumption.
  replace (1 + length (tail X))%nat with (length X)
    by (destruct X; [congruence | simpl; lia]).
  change (Some (Some (length X)) ≫= ?f) with (f (Some (length X))). cbv beta iota.
  replace (Z.of_nat (length parts) - Z.of_nat (length X) - 1)
    with (Z.of_nat (length Y)) by lia.
  replace (hd EmptyString parts) with (hd EmptyString X)
    by (unfold parts; destruct X; [congruence | reflexivity]).
  rewrite Hlast. unfold _HEXTET_COUNT.
  destruct (truthy (hd EmptyString X)), (truthy (last_part Y)); simpl;
    repeat match goal with
           | |- context [Z.eqb ?a ?b] => destruct (Z.eqb a b); simpl
           | |- context [Z.ltb ?a ?b] => destruct (Z.ltb a b); simpl
           end; reflexivity.
Qed.

Lemma from_parts_skip A B :
  all_truthy A -> all_truthy B -> (length A + length B <= 7)%nat ->
  contains "." (last_part B) = false ->
  _ip_int_from_parts (pad A ++ A ++ EmptyString :: B ++ pad B)
  = match _parse_hextets 0 A with
    | Some a =>
        _parse_hextets
          (Z.shiftl a (16 * (8 - Z.of_nat (length A + length B)))) B
    | None => None
    end.
Proof.
  intros HA HB Hlen Hdot.
  rewrite (app_assoc (pad A) A).
  assert (HX : pad A ++ A <> []) by (destruct A; discriminate).
  assert (HY : B ++ pad B <> []) by (destruct B; discriminate).
  rewrite from_parts_core; try assumption.
  - assert (Hhd : hd EmptyString (pad A ++ A) = hd EmptyString A).
    { destruct A; reflexivity. }
    assert (Hlast : last_part (B ++ pad B) = last_part B).
    { destruct B as [|b B]; [reflexivity|]. simpl pad. now rewrite app_nil_r. }
    rewrite Hhd, Hlast.
    assert (Htake : forall n, n = length A ->
              take n ((pad A ++ A) ++ EmptyString :: B ++ pad B) = A).
    { intros n ->. destruct A as [|a A]; [reflexivity|].
      simpl pad. rewrite app_nil_l.
      rewrite take_app_le, take_ge by lia. reflexivity. }
    assert (Hdrop : forall n, n = length B ->
              drop (length ((pad A ++ A) ++ EmptyString :: B ++ pad B) - n)
                   ((pad A ++ A) ++ EmptyString :: B ++ pad B) = B).
    { intros n ->. destruct B as [|b B].
      - simpl length at 2. rewrite Nat.sub_0_r. now apply drop_ge.
      - simpl pad. rewrite app_nil_r.
        change (EmptyString :: b :: B) with ([EmptyString] ++ b :: B).
        rewrite app_assoc.
        replace (length (((pad A ++ A) ++ [EmptyString]) ++ b :: B) - length (b :: B))%nat
          with (length ((pad A ++ A) ++ [EmptyString])) by (rewrite (length_app _ (b :: B)); lia).
        now rewrite drop_app_length. }
    assert (Hhi : (if negb (truthy (hd EmptyString A)) then
                     if negb (Z.of_nat (length (pad A ++ A)) - 1 =? 0) then None
                     else Some (Z.of_nat (length (pad A ++ A)) - 1)
                   else Some (Z.of_nat (length (pad A ++ A))))
                  = Some (Z.of_nat (length A))).
    { destruct A as [|a A]; [reflexivity|].
      rewrite (all_truthy_hd (a :: A)) by (discriminate || assumption).
      reflexivity. }
    assert (Hlo : (if negb (truthy (last_part B)) then
                     if negb (Z.of_nat (length (B ++ pad B)) - 1 =? 0) then None
                     else Some (Z.of_nat (length (B ++ pad B)) - 1)
                   else Some (Z.of_nat (length (B ++ pad B))))
                  = Some (Z.of_nat (length B))).
    { destruct B as [|b B]; [reflexivity|].
      rewrite (all_truthy_last (b :: B)) by (discriminate || assumption).
      simpl pad. now rewrite app_nil_r. }
    rewrite Hhi, Hlo. cbn [mbind option_bind].
    destruct (Z.ltb_spec (8 - (Z.of_nat (length A) + Z.of_nat (length B))) 1);
      [lia|].
    rewrite !Nat2Z.id, Htake, Hdrop by reflexivity.
    destruct (_parse_hextets 0 A); [|reflexivity]. cbn [mbind option_bind].
    do 3 f_equal. lia.
  - destruct A; [constructor|]. now apply all_truthy_tail.
  - destruct B as [|b B]; [constructor|]. simpl pad. rewrite app_nil_r.
    now apply all_truthy_removelast.
  - destruct B as [|b B]; [reflexivity|]. simpl pad. now rewrite app_nil_r.
  - destruct A, B; simpl; rewrite ?length_app; simpl; simpl in Hlen; lia.
Qed.

(** *** The scan of [_compress_hextets] *)

Lemma scan_inv_init : scan_inv [] scan_init.
Proof. now apply (ScanInv _ _ 0 0 0)%nat. Qed.

Lemma replicate_snoc {A} n (x : A) : replicate n x ++ [x] = replicate (S n) x.
Proof. symmetry. apply replicate_S_end. Qed.

Lemma scan_inv_step done st h :
  scan_inv done st ->
  scan_inv (done ++ [h]) (_compress_step st (Z.of_nat (length done)) h).
Proof.
  intros [cl bl bs Hcl Hcs Hcle Hcrun Hbl Hle Hbs Hble Hbrun].
  unfold _compress_step.
  assert (Hlen : length (done ++ [h]) = S (length done))
    by (rewrite length_app; simpl; lia).
  assert (Hkeep : take bl (drop bs (done ++ [h])) = replicate bl "0").
  { rewrite drop_app_le by lia. rewrite take_app_le; [assumption|].
    rewrite length_drop. lia. }
  destruct (String.eqb_spec h "0") as [->|Hne].
  - assert (Hstart : (if doublecolon_start st =? -1 then Z.of_nat (length done)
                      else doublecolon_start st)
                     = Z.of_nat (length done - cl)).
    { rewrite Hcs. destruct (Nat.eqb_spec cl 0) as [->|Hc].
      - simpl. f_equal. lia.
      - destruct (Z.eqb_spec (Z.of_nat (length done - cl)) (-1)); [lia|reflexivity]. }
    assert (Hrun : drop (S (length done) - S cl) (done ++ ["0"])
                   = replicate (S cl) "0").
    { replace (S (length done) - S cl)%nat with (length done - cl)%nat by lia.
      rewrite drop_app_le by lia. rewrite Hcrun. apply replicate_snoc. }
    rewrite Hstart, Hcl, Hbl.
    destruct (Z.ltb_spec (Z.of_nat bl) (Z.of_nat cl + 1)) as [Hlt|Hge].
    + apply (ScanInv _ _ (S cl) (S cl) (length done - cl)%nat);
        cbn [doublecolon_len doublecolon_start best_doublecolon_len
             best_doublecolon_start]; rewrite ?Hlen; try lia.
      * simpl; first [reflexivity | f_equal; lia].
      * exact Hrun.
      * reflexivity.
      * replace (S (length done) - S cl)%nat with (length done - cl)%nat in Hrun by lia.
        rewrite Hrun. apply take_ge. rewrite length_replicate. lia.
    + apply (ScanInv _ _ (S cl) bl bs);
        cbn [doublecolon_len doublecolon_start best_doublecolon_len
             best_doublecolon_start]; rewrite ?Hlen; try lia;
        first [ exact Hrun | exact Hkeep | assumption
              | simpl; first [reflexivity | f_equal; lia] ].
  - apply (ScanInv _ _ 0%nat bl bs);
      cbn [doublecolon_len doublecolon_start best_doublecolon_len
           best_doublecolon_start]; rewrite ?Hlen; try lia;
      first [ exact Hkeep | assumption | reflexivity
            | rewrite Nat.sub_0_r; apply drop_ge; lia ].
Qed.

Lemma scan_inv_scan rest : forall done st,
  scan_inv done st ->
  scan_inv (done ++ rest) (_compress_scan st (Z.of_nat (length done)) rest).
Proof.
  induction rest as [|h rest IH]; intros done st H.
  - now rewrite app_nil_r.
  - cbn [_compress_scan].
    replace (done ++ h :: rest) with ((done ++ [h]) ++ rest)
      by now rewrite <- app_assoc.
    replace (Z.of_nat (length done) + 1) with (Z.of_nat (length (done ++ [h])))
      by (rewrite length_app; simpl; lia).
    apply IH. now apply scan_inv_step.
Qed.

(** The list [_compress_hextets] returns: either the list it was given, or
    the list with a run of at least two ["0"] groups replaced by one empty
    group, padded with another where the run touched an end. *)
Lemma compress_shape hs :
  _compress_hextets hs = hs \/
  exists s l : nat,
    (2 <= l)%nat /\ (s + l <= length hs)%nat /\
    hs = take s hs ++ replicate l "0" ++ drop (s + l) hs /\
    _compress_hextets hs
    = pad (take s hs) ++ take s hs ++ EmptyString :: drop (s + l) hs
        ++ pad (drop (s + l) hs).
Proof.
  unfold _compress_hextets. fold scan_init.
  pose proof (scan_inv_scan hs [] scan_init scan_inv_init) as H.
  simpl in H. change (Z.of_nat 0) with 0 in H.
  destruct H as [cl bl bs _ _ _ _ Hbl _ Hbs Hble Hbrun].
  rewrite Hbl, Hbs.
  destruct (Z.ltb_spec 1 (Z.of_nat bl)) as [Hlt|_]; [right | now left].
  exists bs, bl. destruct (Nat.eqb_spec bl 0) as [|_]; [lia|].
  split; [lia|]. split; [assumption|]. split.
  - rewrite <- Hbrun. rewrite <- drop_drop.
    now rewrite !take_drop.
  - rewrite Nat2Z.id, <- Nat2Z.inj_add, Nat2Z.id.
    destruct (Z.eqb_spec (Z.of_nat (bs + bl)) (Z.of_nat (length hs))) as [He|He].
    + apply Nat2Z.inj in He.
      assert (Hd : drop (bs + bl) (hs ++ [EmptyString]) = [EmptyString])
        by (rewrite He; apply drop_app_length).
      rewrite Hd, (drop_ge hs) by lia.
      rewrite take_app_le by lia. simpl pad.
      destruct (Z.eqb_spec (Z.of_nat bs) 0) as [Hz|Hz].
      * assert (bs = 0)%nat as -> by lia. reflexivity.
      * destruct (take bs hs) eqn:E; [|reflexivity].
        apply (f_equal length) in E. rewrite length_take in E. simpl in E. lia.
    + assert (Hd : pad (drop (bs + bl) hs) = []).
      { destruct (drop (bs + bl) hs) eqn:E; [|reflexivity].
        apply (f_equal length) in E. rewrite length_drop in E. simpl in E. lia. }
      rewrite Hd, app_nil_r.
      destruct (Z.eqb_spec (Z.of_nat bs) 0) as [Hz|Hz].
      * assert (bs = 0)%nat as -> by lia. reflexivity.
      * destruct (take bs hs) eqn:E; [|reflexivity].
        apply (f_equal length) in E. rewrite length_take in E. simpl in E. lia.
Qed.

Lemma truthy_join_two sep p q ps :
  truthy sep = true -> truthy (join sep (p :: q :: ps)) = true.
Proof.
  intros Hsep. rewrite join_cons. destruct p; [|reflexivity].
  simpl. now apply truthy_app_l.
Qed.

Lemma Forall_last_part (P : string -> Prop) ps :
  P EmptyString -> Forall P ps -> P (last_part ps).
Proof.
  intros H0 H. destruct ps as [|p ps]; [exact H0|].
  rewrite (last_part_removelast (p :: ps)) in H by discriminate.
  apply Forall_app in H as [_ H]. now inversion H.
Qed.

(** Printing eight groups with [_compress_hextets] and reading the text
    back gives what reading the eight groups gives. *)
Lemma compress_parse hs :
  length hs = 8%nat -> all_truthy hs ->
  Forall (fun p => contains ":" p = false) hs ->
  Forall (fun p => contains "." p = false) hs ->
  _ip_int_from_string (join ":" (_compress_hextets hs)) = _parse_hextets 0 hs.
Proof.
  intros Hlen Ht Hcolon Hdot. unfold _ip_int_from_string.
  destruct (compress_shape hs) as [->|(s & l & Hl & Hsl & Hhs & ->)].
  - do 2 (destruct hs as [|? hs]; [discriminate|]).
    rewrite truthy_join_two by reflexivity. simpl negb. cbn match.
    rewrite split_join by (discriminate || assumption).
    apply from_parts_full; try assumption.
    now apply (Forall_last_part (fun p => contains "." p = false)).
  - set (A := take s hs) in *. set (B := drop (s + l) hs) in *.
    assert (HA : all_truthy A) by now apply Forall_take.
    assert (HB : all_truthy B) by now apply Forall_drop.
    assert (Hparts : exists p q ps, pad A ++ A ++ EmptyString :: B ++ pad B = p :: q :: ps).
    { destruct A as [|a [|a' A']]; simpl; eauto. }
    destruct Hparts as (p & q & ps & Hparts).
    rewrite Hparts at 1. rewrite truthy_join_two by reflexivity.
    simpl negb. cbn match.
    rewrite split_join.
    + rewrite from_parts_skip; try assumption.
      * rewrite Hhs at 1. rewrite !parse_hextets_app.
        destruct (_parse_hextets 0 A) as [a|]; [|reflexivity].
        rewrite parse_hextets_app, parse_hextets_zeros. do 3 f_equal.
        unfold A, B. rewrite length_take, length_drop. lia.
      * unfold A, B. rewrite length_take, length_drop. lia.
      * apply (Forall_last_part (fun p => contains "." p = false));
          [reflexivity | now apply Forall_drop].
    + destruct A; discriminate.
    + repeat (apply Forall_app; split); try (apply Forall_cons; split);
        try (apply Forall_app; split);
        try (now apply Forall_take); try (now apply Forall_drop);
        try reflexivity.
      * destruct A; repeat constructor.
      * destruct B; repeat constructor.
Qed.

(** *** The text of one sixteen-bit group *)

Lemma check_upto_spec P fuel : forall x y,
  check_upto P fuel x = true -> x <= y < x + Z.of_nat fuel -> P y = true.
Proof.
  induction fuel as [|fuel IH]; intros x y H Hy; [lia|].
  cbn [check_upto] in H. apply andb_prop in H as [H1 H2].
  destruct (Z.eq_dec x y) as [->|]; [assumption|].
  apply (IH (x + 1)); [assumption | lia].
Qed.

Lemma hextet_text_ok_all :
  check_upto hextet_text_ok (Z.to_nat 65536) 0 = true.
Proof. vm_compute. reflexivity. Qed.

Lemma format_x_hextet h :
  0 <= h < 65536 ->
  truthy (format_x h) = true /\ contains ":" (format_x h) = false /\
  contains "." (format_x h) = false /\ contains "/" (format_x h) = false /\
  contains "%" (format_x h) = false /\ _parse_hextet (format_x h) = Some h.
Proof.
  intros Hh.
  pose proof (check_upto_spec _ _ 0 h hextet_text_ok_all) as H.
  rewrite Z2Nat.id in H by lia.
  specialize (H ltac:(lia)). unfold hextet_text_ok, text_ok in H.
  repeat (apply andb_prop in H as [H ?]).
  repeat match goal with
         | H : negb _ = true |- _ => apply negb_true_iff in H
         end.
  destruct (_parse_hextet (format_x h)) as [h'|]; [|discriminate].
  repeat split; try assumption. f_equal. lia.
Qed.

(** *** The thirty-two digits of an address *)

Lemma hexw_groups k v :
  hexw (4 * k) v = concat_str (map (hexw 4) (hextets_of k v)).
Proof.
  induction k as [|k IH]; [reflexivity|].
  replace (4 * S k)%nat with (4 * k + 4)%nat by lia.
  rewrite hexw_app. cbn [hextets_of map concat_str].
  rewrite <- IH. f_equal.
  unfold hextet_of. change 65536 with (16 ^ Z.of_nat 4).
  rewrite hexw_mod. f_equal. f_equal.
  change 16 with (2 ^ 4) at 1. rewrite <- Z.pow_mul_r by lia. f_equal. lia.
Qed.

Lemma slices_concat gs :
  Forall (fun g => String.length g = 4%nat) gs ->
  map (fun i => slice (4 * i) 4 (concat_str gs)) (seq 0 (length gs)) = gs.
Proof.
  induction 1 as [|g gs Hg Hgs IH]; [reflexivity|].
  cbn [length seq map concat_str]. f_equal.
  - unfold slice. simpl Nat.mul. rewrite <- Hg. apply substring_0_app.
  - rewrite <- seq_shift, map_map. rewrite <- IH at 2.
    apply map_ext. intros i. unfold slice.
    replace (4 * S i)%nat with (String.length g + 4 * i)%nat by lia.
    apply substring_skip_app.
Qed.

Lemma format_032x_slices v :
  0 <= v < 2 ^ 128 ->
  map (fun x => slice x 4 (format_0x 32 v)) hextet_offsets
  = map (hexw 4) (hextets_of 8 v).
Proof.
  intros Hv. rewrite format_0x_hexw by (simpl; lia).
  change 32%nat with (4 * 8)%nat. rewrite hexw_groups.
  pose proof (slices_concat (map (hexw 4) (hextets_of 8 v))) as H.
  rewrite length_map, length_hextets_of in H.
  etransitivity; [|apply H].
  - reflexivity.
  - apply Forall_map, Forall_forall. intros. apply length_hexw.
Qed.

Lemma mapM_map_Some {A B C} (f : A -> option B) (g : C -> A) (h : C -> B) l :
  (forall x, x ∈ l -> f (g x) = Some (h x)) ->
  mapM f (map g l) = Some (map h l).
Proof.
  induction l as [|x l IH]; intros H; [reflexivity|].
  cbn [map mapM]. rewrite H by constructor.
  cbn. rewrite IH; [reflexivity|]. intros y Hy. apply H. now constructor.
Qed.

Lemma mapM_compose {A B C} (f : B -> option C) (g : A -> B) l :
  mapM (fun x => f (g x)) l = mapM f (map g l).
Proof. induction l as [|x l IH]; [reflexivity|]. cbn [map mapM]. now rewrite IH. Qed.

(** *** The two texts of a 128-bit value *)

Lemma int16_hexw h : 0 <= h < 65536 -> int16 (hexw 4 h) = Some h.
Proof.
  intros Hh. unfold int16. rewrite truthy_hexw by lia.
  rewrite int_digits_hexw. f_equal. simpl. apply Z.mod_small. exact Hh.
Qed.

Lemma string_from_ip_int_text v :
  0 <= v < 2 ^ 128 -> _string_from_ip_int v = Some (compressed_text v).
Proof.
  intros Hv. unfold _string_from_ip_int, _ALL_ONES.
  destruct (Z.ltb_spec (2 ^ 128 - 1) v); [lia|].
  rewrite (mapM_compose (fun s => n ← int16 s; Some (format_x n))
                        (fun x => slice x 4 (format_0x 32 v))).
  rewrite format_032x_slices by assumption.
  rewrite (mapM_map_Some _ (hexw 4) format_x); [reflexivity|].
  intros h Hh. rewrite int16_hexw; [reflexivity|].
  pose proof (Forall_hextets_of 8 v) as HF. rewrite Forall_forall in HF. auto.
Qed.

Lemma hextets_texts v :
  Forall (fun p => truthy p = true /\ contains ":" p = false /\
                   contains "." p = false /\ contains "/" p = false /\
                   contains "%" p = false)
         (map format_x (hextets_of 8 v)).
Proof.
  apply Forall_map. eapply Forall_impl; [apply Forall_hextets_of|].
  intros h Hh. simpl. pose proof (format_x_hextet h Hh). tauto.
Qed.

Lemma pack_zero v : 0 <= v < 2 ^ 128 -> v / 2 ^ (16 * Z.of_nat 8) = 0.
Proof. intros Hv. apply Z.div_small. exact Hv. Qed.

Lemma parse_compressed v :
  0 <= v < 2 ^ 128 -> _ip_int_from_string (compressed_text v) = Some v.
Proof.
  intros Hv. unfold compressed_text.
  pose proof (hextets_texts v) as HF.
  rewrite compress_parse.
  - rewrite <- (pack_zero v Hv). apply parse_hextets_pack.
    apply Forall2_fmap_l, Forall_Forall2_diag.
    eapply Forall_impl; [apply Forall_hextets_of|].
    intros h Hh. now apply format_x_hextet.
  - now rewrite length_map, length_hextets_of.
  - eapply Forall_impl; [apply HF|]. simpl. tauto.
  - eapply Forall_impl; [apply HF|]. simpl. tauto.
  - eapply Forall_impl; [apply HF|]. simpl. tauto.
Qed.

Lemma hexw_texts v :
  Forall (fun p => truthy p = true /\ contains ":" p = false /\
                   contains "." p = false /\ contains "/" p = false /\
                   contains "%" p = false)
         (map (hexw 4) (hextets_of 8 v)).
Proof.
  apply Forall_map, Forall_forall. intros h _. cbv beta. unfold compose.
  split; [apply truthy_hexw; lia|].
  repeat split; apply (contains_all_chars is_hex_digit);
    (reflexivity || apply all_chars_hexw).
Qed.

Lemma parse_exploded v :
  0 <= v < 2 ^ 128 -> _ip_int_from_string (exploded_text v) = Some v.
Proof.
  intros Hv. unfold exploded_text, _ip_int_from_string.
  pose proof (hexw_texts v) as HF.
  set (gs := map (hexw 4) (hextets_of 8 v)) in *.
  assert (Hlen : length gs = 8%nat)
    by (unfold gs; now rewrite length_map, length_hextets_of).
  assert (Ht : truthy (join ":" gs) = true).
  { do 2 (destruct gs as [|? gs]; [discriminate|]).
    now apply truthy_join_two. }
  rewrite Ht. simpl negb. cbn match.
  rewrite split_join.
  - rewrite from_parts_full; try assumption.
    + rewrite <- (pack_zero v Hv). apply parse_hextets_pack.
      unfold gs. apply Forall2_fmap_l, Forall_Forall2_diag.
      eapply Forall_impl; [apply Forall_hextets_of|].
      intros h Hh. cbv beta. unfold compose. rewrite parse_hextet_hexw. f_equal.
      now apply Z.mod_small.
    + eapply Forall_impl; [apply HF|]. simpl. tauto.
    + apply (Forall_last_part (fun p => contains "." p = false));
        [reflexivity|]. eapply Forall_impl; [apply HF|]. simpl. tauto.
  - destruct gs; discriminate.
  - eapply Forall_impl; [apply HF|]. simpl. tauto.
Qed.

Lemma Forall_compress (P : string -> Prop) hs :
  P EmptyString -> Forall P hs -> Forall P (_compress_hextets hs).
Proof.
  intros H0 H.
  destruct (compress_shape hs) as [->|(s & l & _ & _ & _ & ->)]; [assumption|].
  assert (Hpad : forall ps, Forall P (pad ps)) by (intros []; repeat constructor; auto).
  repeat (apply Forall_app; split); auto using Forall_take.
  constructor; [assumption|].
  apply Forall_app; auto using Forall_drop.
Qed.

Lemma compressed_text_chars v c :
  contains c ":" = false ->
  Forall (fun p => contains c p = false) (map format_x (hextets_of 8 v)) ->
  contains c (compressed_text v) = false.
Proof.
  intros Hc H. unfold compressed_text. apply contains_join; [assumption|].
  now apply Forall_compress.
Qed.

Lemma IPv6Address_no_scope s v :
  contains "/" s = false -> contains "%" s = false ->
  _ip_int_from_string s = Some v ->
  IPv6Address_of_str s = Some {| _ip := v; _scope_id := None |}.
Proof.
  intros Hs Hp Hv. unfold IPv6Address_of_str, _split_scope_id.
  rewrite Hs, partition_not_found by assumption. simpl. now rewrite Hv.
Qed.

Lemma IPv6Address_compressed v :
  0 <= v < 2 ^ 128 ->
  IPv6Address_of_str (compressed_text v)
  = Some {| _ip := v; _scope_id := None |}.
Proof.
  intros Hv. pose proof (hextets_texts v) as HF.
  apply IPv6Address_no_scope.
  - apply compressed_text_chars; [reflexivity|].
    eapply Forall_impl; [apply HF|]. simpl. tauto.
  - apply compressed_text_chars; [reflexivity|].
    eapply Forall_impl; [apply HF|]. simpl. tauto.
  - now apply parse_compressed.
Qed.

Lemma IPv6Address_exploded v :
  0 <= v < 2 ^ 128 ->
  IPv6Address_of_str (exploded_text v)
  = Some {| _ip := v; _scope_id := None |}.
Proof.
  intros Hv. pose proof (hexw_texts v) as HF.
  apply IPv6Address_no_scope.
  - apply contains_join; [reflexivity|].
    eapply Forall_impl; [apply HF|]. simpl. tauto.
  - apply contains_join; [reflexivity|].
    eapply Forall_impl; [apply HF|]. simpl. tauto.
  - now apply parse_exploded.
Qed.

Lemma str_no_scope v :
  0 <= v < 2 ^ 128 ->
  str {| _ip := v; _scope_id := None |} = Some (compressed_text v).
Proof.
  intros Hv. unfold str. cbn [_ip _scope_id].
  now rewrite string_from_ip_int_text.
Qed.

Lemma exploded_no_scope v :
  0 <= v < 2 ^ 128 ->
  exploded {| _ip := v; _scope_id := None |} = Some (exploded_text v).
Proof.
  intros Hv. unfold exploded. rewrite str_no_scope by assumption.
  cbn [mbind option_bind]. rewrite parse_compressed by assumption.
  cbn [mbind option_bind]. now rewrite format_032x_slices.
Qed.

(** *** What a successful [_ip_int_from_parts] went through *)

Lemma length_removelast_tail (ps : list string) :
  length (removelast (tail ps)) = (length ps - 2)%nat.
Proof.
  rewrite removelast_firstn_len, length_take.
  destruct ps as [|p ps]; simpl; lia.
Qed.

Lemma from_parts_inv parts v :
  _ip_int_from_parts parts = Some v ->
  (3 <= length parts)%nat /\
  exists parts' hi lo skipped a,
    ((contains "." (last_part parts) = true /\
      is_Some (V4.IPv4Address (last_part parts)) /\
      hd EmptyString parts' = hd EmptyString parts)
     \/ parts' = parts) /\
    0 <= hi <= Z.of_nat (length parts') /\ 0 <= lo <= Z.of_nat (length parts') /\
    0 <= skipped /\ hi + lo + skipped = 8 /\
    (truthy (hd EmptyString parts') = true -> 1 <= hi) /\
    (truthy (last_part parts') = true ->
     1 <= lo \/ hi = Z.of_nat (length parts')) /\
    _parse_hextets 0 (take (Z.to_nat hi) parts') = Some a /\
    _parse_hextets (Z.shiftl a (16 * skipped))
                   (drop (length parts' - Z.to_nat lo) parts') = Some v.
Proof.
  unfold _ip_int_from_parts, _HEXTET_COUNT. intros H.
  destruct (Nat.ltb_spec (length parts) 3) as [|Hlen]; [discriminate|].
  split; [assumption|].
  match type of H with
  | (?e ≫= _) = _ => destruct e as [parts'|] eqn:Hparts'; [|discriminate]
  end.
  cbn [mbind option_bind] in H.
  destruct (Nat.ltb_spec (Z.to_nat (8 + 1)) (length parts')) as [|Hmax];
    [discriminate|].
  destruct (_find_skip_index 1 (removelast (tail parts')) None) as [sk|] eqn:Hsk;
    [|discriminate].
  cbn [mbind option_bind] in H.
  assert (Hrel : (contains "." (last_part parts) = true /\
                  is_Some (V4.IPv4Address (last_part parts)) /\
                  hd EmptyString parts' = hd EmptyString parts)
                 \/ parts' = parts).
  { destruct (contains "." (last_part parts)) eqn:Hdot.
    - left. destruct (V4.IPv4Address (last_part parts)) eqn:H4; [|discriminate].
      cbn in Hparts'. injection Hparts' as <-.
      repeat split; [eauto|].
      destruct parts as [|p [|q ps]]; simpl in Hlen; try lia. reflexivity.
    - right. congruence. }
  exists parts'.
  destruct sk as [j|].
  - apply find_skip_range in Hsk as [|Hj]; [discriminate|].
    rewrite length_removelast_tail in Hj.
    match type of H with
    | (?e ≫= _) = _ => destruct e as [[[hi lo] skipped]|] eqn:He; [|discriminate]
    end.
    cbn [mbind option_bind] in H.
    destruct (_parse_hextets 0 (take (Z.to_nat hi) parts')) as [a|] eqn:Ha;
      [|discriminate].
    cbn [mbind option_bind] in H.
    exists hi, lo, skipped, a.
    destruct (truthy (hd EmptyString parts')) eqn:Hhd,
             (truthy (last_part parts')) eqn:Hlast; cbn in He;
      repeat match type of He with
             | context [Z.eqb ?x ?y] =>
                 destruct (Z.eqb_spec x y); cbn in He; try discriminate
             | context [Z.ltb ?x ?y] =>
                 destruct (Z.ltb_spec x y); cbn in He; try discriminate
             end;
      injection He as <- <- <-;
      (split; [exact Hrel|]); repeat split; try lia; try discriminate;
        try assumption; intros; lia.
  - cbn [mbind option_bind] in H.
    destruct (Z.eqb_spec (Z.of_nat (length parts')) 8) as [Hl8|];
      [|discriminate].
    destruct (truthy (hd EmptyString parts')) eqn:Hhd; [|discriminate].
    destruct (truthy (last_part parts')) eqn:Hlast; [|discriminate].
    cbn [negb mbind option_bind] in H.
    destruct (_parse_hextets 0 (take (Z.to_nat (Z.of_nat (length parts'))) parts'))
      as [a|] eqn:Ha; [|discriminate].
    cbn [mbind option_bind] in H.
    exists (Z.of_nat (length parts')), 0, 0, a.
    split; [exact Hrel|]. repeat split; try lia; try assumption.
Qed.

(** Every address [_ip_int_from_parts] accepts fits in 128 bits. *)
Lemma from_parts_range parts v :
  _ip_int_from_parts parts = Some v -> 0 <= v < 2 ^ 128.
Proof.
  intros H. apply from_parts_inv in H
    as (_ & parts' & hi & lo & skipped & a & _ & Hhi & Hlo & Hsk & Hsum & _ & _ & Ha & Hv).
  apply (parse_hextets_bound _ _ _ 0) in Ha; [|lia|simpl; lia].
  rewrite length_take in Ha.
  set (na := Z.of_nat (Z.to_nat hi `min` length parts')) in *.
  assert (Hna : 0 <= na <= hi) by (unfold na; lia).
  apply (parse_hextets_bound _ _ _ (16 * na + 16 * skipped)) in Hv; [|lia|].
  - rewrite length_drop in Hv.
    split; [lia|]. eapply Z.lt_le_trans; [apply Hv|].
    apply Z.pow_le_mono_r; lia.
  - rewrite Z.shiftl_mul_pow2 by lia. rewrite Z.pow_add_r by lia.
    rewrite Z.add_0_l in Ha. fold na in Ha.
    assert (0 < 2 ^ (16 * skipped)) by (apply Z.pow_pos_nonneg; lia).
    split; [apply Z.mul_nonneg_nonneg; lia|].
    apply Z.mul_lt_mono_pos_r; lia.
Qed.

(** *** An accepted address text has no blank at either end *)

Lemma hex_digit_nonspace c : is_hex_digit c = true -> negb (isspace c) = true.
Proof.
  destruct c as [[] [] [] [] [] [] [] []]; intros H; vm_compute in H;
    first [discriminate H | reflexivity].
Qed.

Lemma ascii_digit_nonspace c : is_ascii_digit c = true -> negb (isspace c) = true.
Proof.
  destruct c as [[] [] [] [] [] [] [] []]; intros H; vm_compute in H;
    first [discriminate H | reflexivity].
Qed.

Lemma all_chars_join P sep ps :
  all_chars P sep = true -> Forall (fun p => all_chars P p = true) ps ->
  all_chars P (join sep ps) = true.
Proof.
  intros Hsep H. induction H as [|p ps Hp Hps IH]; [reflexivity|].
  destruct ps as [|q ps]; [assumption|].
  rewrite join_cons, !all_chars_app, Hp, Hsep. apply IH.
Qed.

Lemma parse_octet_chars o x :
  V4._parse_octet o = Some x -> all_chars is_ascii_digit o = true.
Proof.
  unfold V4._parse_octet. destruct (truthy o); [|discriminate]. simpl.
  now destruct (all_chars is_ascii_digit o).
Qed.

Lemma ipv4_nonspace s : is_Some (V4.IPv4Address s) -> nonspace s.
Proof.
  intros [x H]. unfold V4.IPv4Address, V4._ip_int_from_string in H.
  destruct (contains "/" s); [discriminate|].
  destruct (truthy s); [|discriminate]. simpl in H.
  destruct (length (split "." s) =? 4)%nat; [|discriminate]. simpl in H.
  apply fmap_Some in H as (bs & H & _). apply mapM_Some_1 in H.
  unfold nonspace. rewrite <- (join_split "." s).
  apply all_chars_join; [reflexivity|].
  induction H as [|o b os bs Ho _ IH]; constructor; [|exact IH].
  eapply all_chars_impl; [apply ascii_digit_nonspace|].
  eapply parse_octet_chars, Ho.
Qed.

Lemma last_part_drop k ps :
  (k < length ps)%nat -> last_part (drop k ps) = last_part ps.
Proof.
  intros Hk. rewrite <- (take_drop k ps) at 2.
  rewrite last_part_app; [reflexivity|].
  intros E. apply (f_equal length) in E. rewrite length_drop in E. simpl in E. lia.
Qed.

Lemma hex_nonspace s : all_chars is_hex_digit s = true -> nonspace s.
Proof. apply all_chars_impl, hex_digit_nonspace. Qed.

Lemma from_parts_ends parts v :
  _ip_int_from_parts parts = Some v ->
  nonspace (hd EmptyString parts) /\ nonspace (last_part parts).
Proof.
  intros H. apply from_parts_inv in H
    as (Hlen & parts' & hi & lo & skipped & a & Hrel & Hhi & Hlo & _ & _
        & Hfirst & Hend & Ha & Hv).
  apply parse_hextets_Forall in Ha, Hv.
  assert (Hhex : forall ps,
             Forall (fun p => truthy p = true /\ all_chars is_hex_digit p = true) ps ->
             Forall nonspace ps).
  { intros ps Hps. eapply Forall_impl; [exact Hps|].
    intros p [_ Hp]. now apply hex_nonspace. }
  apply Hhex in Ha, Hv. split.
  - replace (hd EmptyString parts) with (hd EmptyString parts')
      by (destruct Hrel as [(_ & _ & ->)| ->]; reflexivity).
    destruct parts' as [|p0 ps]; [reflexivity|]. cbn [hd] in *.
    destruct (truthy p0) eqn:Hp0; [|now destruct p0].
    specialize (Hfirst eq_refl).
    destruct (Z.to_nat hi) as [|n] eqn:Hn; [lia|].
    cbn [take] in Ha. now inversion Ha.
  - destruct Hrel as [(_ & H4 & _)| ->]; [now apply ipv4_nonspace|].
    destruct (truthy (last_part parts)) eqn:Hpl;
      [|now destruct (last_part parts)].
    destruct (Hend eq_refl) as [Hlo1 | ->].
    + rewrite <- (last_part_drop (length parts - Z.to_nat lo)) by lia.
      now apply (Forall_last_part nonspace).
    + rewrite Nat2Z.id, take_ge in Ha by lia.
      now apply (Forall_last_part nonspace).
Qed.

Lemma lstrip_app_nonspace p c rest :
  nonspace p -> isspace c = false ->
  lstrip (p +:+ String c rest) = p +:+ String c rest.
Proof.
  intros Hp Hc. destruct p as [|a p]; simpl.
  - now rewrite Hc.
  - unfold nonspace in Hp. simpl in Hp. apply andb_prop in Hp as [Ha _].
    apply negb_true_iff in Ha. now rewrite Ha.
Qed.

(** A text [_ip_int_from_string] accepts is left alone by [strip]. *)
Lemma ip_int_from_string_strip s v :
  _ip_int_from_string s = Some v -> strip s = s /\ truthy s = true.
Proof.
  unfold _ip_int_from_string. destruct (truthy s) eqn:Ht; [|discriminate].
  simpl. intros H. split; [|reflexivity].
  pose proof (from_parts_ends _ _ H) as [Hhd Hlast].
  apply from_parts_inv in H as (Hlen & _).
  pose proof (join_split ":" s) as Hjoin.
  destruct (split ":" s) as [|p0 [|p1 ps]] eqn:Hsplit; simpl in Hlen; try lia.
  cbn [hd] in Hhd. unfold strip.
  assert (Hl : lstrip s = s).
  { rewrite <- Hjoin, join_cons. simpl append.
    now apply lstrip_app_nonspace. }
  rewrite Hl.
  rewrite (last_part_removelast (p0 :: p1 :: ps)) in Hjoin by discriminate.
  rewrite join_snoc in Hjoin.
  - rewrite <- Hjoin. apply rstrip_app; [reflexivity|].
    apply rstrip_all_nonspace. simpl. exact Hlast.
  - destruct ps; discriminate.
Qed.

(** ** The tokenizer *)

(** The two dictionaries [__init__] builds. *)
Lemma init_special_tokens_map :
  special_tokens_map get_tokenizer
  = <["<|assistant_end|>" := 65542]>
      (<["<|assistant_start|>" := 65541]>
         (<["<|user_end|>" := 65540]>
            (<["<|user_start|>" := 65539]>
               (<["<|pad|>" := 65538]>
                  (<["<|eos|>" := 65537]> (<["<|bos|>" := 65536]> ∅)))))).
Proof. reflexivity. Qed.

Lemma init_id_to_special_token :
  id_to_special_token get_tokenizer
  = <[65542 := "<|assistant_end|>"]>
      (<[65541 := "<|assistant_start|>"]>
         (<[65540 := "<|user_end|>"]>
            (<[65539 := "<|user_start|>"]>
               (<[65538 := "<|pad|>"]>
                  (<[65537 := "<|eos|>"]> (<[65536 := "<|bos|>"]> ∅)))))).
Proof. reflexivity. Qed.

Lemma init_ids :
  bos_token_id get_tokenizer = 65536 /\ eos_token_id get_tokenizer = 65537
  /\ pad_token_id get_tokenizer = 65538 /\ vocab_size get_tokenizer = 65543.
Proof. repeat split; vm_compute; reflexivity. Qed.

Lemma special_not_segment idx :
  is_special_id get_tokenizer idx = true -> is_segment idx = false.
Proof.
  unfold is_special_id, is_segment. rewrite init_id_to_special_token.
  destruct (Z.leb_spec idx 65535) as [Hle|]; [|now rewrite andb_false_r].
  rewrite !lookup_insert_ne, lookup_empty by lia. discriminate.
Qed.

Lemma decode_parts_filter ids : forall parts,
  decode_parts get_tokenizer parts ids
  = parts ++ map (format_0x 4) (List.filter is_segment ids).
Proof.
  induction ids as [|idx ids IH]; intros parts.
  - simpl. now rewrite app_nil_r.
  - cbn [decode_parts List.filter].
    destruct (is_special_id get_tokenizer idx) eqn:Hs.
    + rewrite (special_not_segment _ Hs). apply IH.
    + fold (is_segment idx). destruct (is_segment idx).
      * rewrite IH, <- app_assoc. reflexivity.
      * apply IH.
Qed.

Lemma filter_segment_all hs :
  Forall (fun h => 0 <= h < 65536) hs -> List.filter is_segment hs = hs.
Proof.
  induction 1 as [|h hs Hh _ IH]; [reflexivity|].
  simpl. rewrite IH. unfold is_segment.
  destruct (Z.leb_spec 0 h), (Z.leb_spec h 65535); try lia. reflexivity.
Qed.

Lemma format_04x_hexw h : 0 <= h < 65536 -> format_0x 4 h = hexw 4 h.
Proof. intros Hh. apply format_0x_hexw; simpl; lia. Qed.

(** Decoding the eight groups of [v] prints [v] in compressed form. *)
Lemma decode_hextets v :
  0 <= v < 2 ^ 128 ->
  decode get_tokenizer (hextets_of 8 v) = compressed_text v.
Proof.
  intros Hv. unfold decode.
  rewrite decode_parts_filter, app_nil_l.
  rewrite filter_segment_all by apply Forall_hextets_of.
  assert (Hparts : map (format_0x 4) (hextets_of 8 v)
                   = map (hexw 4) (hextets_of 8 v)).
  { apply Forall_fmap_ext_1. eapply Forall_impl; [apply Forall_hextets_of|].
    intros h Hh. now apply format_04x_hexw. }
  rewrite Hparts, length_map, length_hextets_of. simpl Nat.eqb. cbn match.
  fold (exploded_text v).
  rewrite IPv6Address_exploded by assumption. cbn [mbind option_bind].
  now rewrite str_no_scope.
Qed.

(** Encoding an accepted, unscoped address text yields its eight groups. *)
Lemma encode_valid a v :
  IPv6Address_of_str a = Some {| _ip := v; _scope_id := None |} ->
  0 <= v < 2 ^ 128 /\
  encode get_tokenizer a None None = hextets_of 8 v.
Proof.
  intros H.
  assert (Hs : _ip_int_from_string a = Some v).
  { unfold IPv6Address_of_str, _split_scope_id in H.
    destruct (contains "/" a); [discriminate|].
    destruct (partition "%" a) as [[h found] t] eqn:Hp.
    destruct found; cbn in H.
    - destruct (negb (truthy t) || contains "%" t); cbn in H; [discriminate|].
      destruct (_ip_int_from_string h); cbn in H; [|discriminate]. congruence.
    - apply partition_found_false in Hp as [-> _].
      destruct (_ip_int_from_string a); cbn in H; [|discriminate]. congruence. }
  assert (Hv : 0 <= v < 2 ^ 128).
  { unfold _ip_int_from_string in Hs. destruct (truthy a); [|discriminate].
    eapply from_parts_range, Hs. }
  split; [assumption|].
  apply ip_int_from_string_strip in Hs as [Hstrip Ht].
  unfold encode, _encode_one, encode_body. rewrite Hstrip, Ht, H.
  cbn [mbind option_bind]. rewrite exploded_no_scope by assumption.
  cbn [mbind option_bind]. unfold exploded_text.
  pose proof (hexw_texts v) as HF.
  rewrite split_join.
  - rewrite (mapM_map_Some _ (hexw 4) id); [now rewrite map_id|].
    intros h Hh. apply int16_hexw.
    pose proof (Forall_hextets_of 8 v) as HR. rewrite Forall_forall in HR. auto.
  - discriminate.
  - eapply Forall_impl; [apply HF|]. simpl. tauto.
Qed.

(** C1 (as amended).  For every address text [a] that [IPv6Address]
    accepts and that carries no zone identifier, [decode(encode(a))]
    with no prepend and no append is exactly the compressed text [str]
    prints for the address, and that text is accepted again as the same
    address: same 128-bit value, still without a zone. *)
Theorem roundtrip_unscoped (a : string) (addr : IPv6Address) :
  IPv6Address_of_str a = Some addr ->
  _scope_id addr = None ->
  str addr = Some (decode get_tokenizer (encode get_tokenizer a None None))
  /\ IPv6Address_of_str (decode get_tokenizer (encode get_tokenizer a None None))
     = Some addr.
Proof.
  destruct addr as [v scope]. cbn [_scope_id]. intros H ->.
  apply encode_valid in H as [Hv ->].
  rewrite decode_hextets by assumption.
  split; [now apply str_no_scope | now apply IPv6Address_compressed].
Qed.

Lemma roundtrip_unscoped_witness :
  IPv6Address_of_str "2001:DB8:0:0:0:0:0:1"
  = Some {| _ip := 42540766411282592856903984951653826561; _scope_id := None |}
  /\ str {| _ip := 42540766411282592856903984951653826561; _scope_id := None |}
     = Some (decode get_tokenizer
               (encode get_tokenizer "2001:DB8:0:0:0:0:0:1" None None))
  /\ IPv6Address_of_str
       (decode get_tokenizer (encode get_tokenizer "2001:DB8:0:0:0:0:0:1" None None))
     = Some {| _ip := 42540766411282592856903984951653826561; _scope_id := None |}.
Proof.
  split; [vm_compute; reflexivity|].
  apply (roundtrip_unscoped "2001:DB8:0:0:0:0:0:1"
           {| _ip := 42540766411282592856903984951653826561; _scope_id := None |});
    vm_compute; reflexivity.
Defined.

(** The boundary cases named with C1. *)
Example roundtrip_boundary_cases :
  map (fun a => decode get_tokenizer (encode get_tokenizer a None None))
      [ "::"; "::1"; "0:0:0:0:0:0:0:1";
        "ffff:ffff:ffff:ffff:ffff:ffff:ffff:ffff";
        "2001:db8:85a3:1:2:8a2e:370:7334"; "1:0:0:2:0:0:0:3" ]
  = [ "::"; "::1"; "::1";
      "ffff:ffff:ffff:ffff:ffff:ffff:ffff:ffff";
      "2001:db8:85a3:1:2:8a2e:370:7334"; "1:0:0:2::3" ].
Proof. vm_compute. reflexivity. Qed.

(** A single zero group is printed as [0]: the compressed form is not
    always the shortest text of the address. *)
Example single_zero_group_kept :
  decode get_tokenizer (encode get_tokenizer "1::3:4:5:6:7:8" None None)
  = "1:0:3:4:5:6:7:8"
  /\ IPv6Address_of_str "1::3:4:5:6:7:8" = IPv6Address_of_str "1:0:3:4:5:6:7:8".
Proof. split; vm_compute; reflexivity. Qed.

(** C1 as stated fails: a text with a zone identifier is accepted by
    [IPv6Address], yet it encodes to no token at all, and decoding gives
    the empty string, which denotes no address. *)
Lemma roundtrip_scoped_counterexample :
  ~ (forall a addr,
        IPv6Address_of_str a = Some addr ->
        exists addr',
          IPv6Address_of_str (decode get_tokenizer (encode get_tokenizer a None None))
          = Some addr'
          /\ _ip addr' = _ip addr).
Proof.
  intros H.
  destruct (H "fe80::1%eth0"
              {| _ip := 338288524927261089654018896841347694593;
                 _scope_id := Some "eth0" |})
    as (addr' & Hdec & _).
  - vm_compute. reflexivity.
  - vm_compute in Hdec. discriminate.
Qed.

(** C8.  The worked example: ["2001:db8::1"] encodes to its eight groups
    and these decode to ["2001:db8::1"]. *)
Theorem example_2001_db8 :
  encode get_tokenizer "2001:db8::1" None None
  = [0x2001; 0x0db8; 0; 0; 0; 0; 0; 1]
  /\ decode get_tokenizer [0x2001; 0x0db8; 0; 0; 0; 0; 0; 1] = "2001:db8::1".
Proof. split; vm_compute; reflexivity. Qed.

(** *** Decoding arbitrary ids *)

Lemma hex_digit_lower d : is_lower_hex (hex_digit d) = true.
Proof.
  unfold hex_digit.
  repeat match goal with
         | |- context [match ?x with _ => _ end] => destruct x
         end; reflexivity.
Qed.

Lemma all_chars_lower_hexw w n : all_chars is_lower_hex (hexw w n) = true.
Proof.
  revert n; induction w; intros n; [reflexivity|].
  cbn [hexw]. rewrite all_chars_app, IHw. simpl. now rewrite hex_digit_lower.
Qed.

(** C10.  [encode_special] answers a name outside [SPECIAL_TOKENS] with
    the end-of-sequence id 65537, and the [i]-th name of [SPECIAL_TOKENS]
    with [65536 + i]. *)
Theorem encode_special_default (s : string) :
  (s ∉ SPECIAL_TOKENS -> encode_special get_tokenizer s = 65537)
  /\ (forall i : nat,
         SPECIAL_TOKENS !! i = Some s ->
         encode_special get_tokenizer s = 65536 + Z.of_nat i).
Proof.
  split.
  - intros H. unfold encode_special.
    destruct init_ids as (_ & -> & _). rewrite init_special_tokens_map.
    unfold SPECIAL_TOKENS in H.
    rewrite !lookup_insert_ne, lookup_empty; [reflexivity | ..];
      intros <-; apply H; set_solver.
  - intros i H. unfold SPECIAL_TOKENS in H.
    do 7 (destruct i as [|i]; [injection H as <-; vm_compute; reflexivity|]).
    discriminate H.
Qed.

Lemma encode_special_default_witness :
  ("<|system|>" ∉ SPECIAL_TOKENS)
  /\ encode_special get_tokenizer "<|system|>" = 65537.
Proof.
  assert (H : "<|system|>" ∉ SPECIAL_TOKENS).
  { unfold SPECIAL_TOKENS. rewrite !not_elem_of_cons.
    repeat split; try discriminate. apply not_elem_of_nil. }
  split; [exact H|].
  exact (proj1 (encode_special_default "<|system|>") H).
Defined.

(** *** Rendering a conversation *)

Lemma slice_list_prefix {A} (m : Z) (l : list A) :
  0 <= m -> slice_list 0 m l = take (Z.to_nat m) l.
Proof.
  intros Hm. unfold slice_list.
  destruct (Z.ltb_spec m 0); [lia|]. destruct (Z.ltb_spec 0 0); [lia|].
  rewrite (Z.min_l 0) by lia. rewrite Z.sub_0_r. change (Z.to_nat 0) with 0%nat.
  rewrite drop_0.
  destruct (Z.le_ge_cases m (Z.of_nat (length l))).
  - now rewrite Z.min_l by lia.
  - rewrite Z.min_r, Nat2Z.id by lia. now rewrite !take_ge by lia.
Qed.

Lemma map_fst_const {A B} (b : B) (l : list A) :
  map fst (map (fun x => (x, b)) l) = l.
Proof. rewrite map_map. apply map_id. Qed.

Lemma map_snd_const {A B} (b : B) (l : list A) :
  map snd (map (fun x => (x, b)) l) = repeat b (length l).
Proof. induction l; simpl; congruence. Qed.

Lemma render_messages self ms : forall ids mask,
  fold_left (render_message self) ms (ids, mask)
  = (ids ++ map fst (concat (map (rendered_message self) ms)),
     mask ++ map snd (concat (map (rendered_message self) ms))).
Proof.
  induction ms as [|m ms IH]; intros ids mask.
  - simpl. now rewrite !app_nil_r.
  - cbn [fold_left map concat]. rewrite !map_app, !app_assoc.
    unfold render_message at 2. unfold rendered_message at 1 3.
    destruct (String.eqb (role m) "user").
    + rewrite IH, map_fst_const, map_snd_const. reflexivity.
    + destruct (String.eqb (role m) "assistant").
      * rewrite IH, !map_app, map_fst_const, map_snd_const.
        cbn [map fst snd]. now rewrite !app_assoc.
      * rewrite IH. cbn [map]. now rewrite !app_nil_r.
Qed.

(** C5.  [render_conversation] returns the spec's sequence cut to
    [max_tokens]: the start token with mask 0, then for each message its
    body tokens with mask 0 (user) or mask 1 (assistant, followed by the
    end token with mask 1), truncated at the tail; tokens and mask have
    the same length, at most [max_tokens]. *)
Theorem render_conversation_spec (conv : conversation) (max_tokens : Z) :
  0 <= max_tokens ->
  let '(ids, mask) := render_conversation get_tokenizer conv max_tokens in
  ids = map fst (take (Z.to_nat max_tokens) (rendered_conversation get_tokenizer conv))
  /\ mask = map snd (take (Z.to_nat max_tokens) (rendered_conversation get_tokenizer conv))
  /\ length ids = length mask
  /\ Z.of_nat (length ids) <= max_tokens.
Proof.
  intros Hm. unfold render_conversation, get_bos_token_id.
  rewrite render_messages, !slice_list_prefix by assumption.
  unfold rendered_conversation.
  set (body := concat (map (rendered_message get_tokenizer) (messages conv))).
  change ([bos_token_id get_tokenizer] ++ map fst body)
    with (map fst ((bos_token_id get_tokenizer, 0) :: body)).
  change ([0] ++ map snd body)
    with (map snd ((bos_token_id get_tokenizer, 0) :: body)).
  rewrite !firstn_map.
  repeat split.
  - now rewrite !length_map.
  - rewrite length_map, length_take. lia.
Qed.

Lemma render_conversation_spec_witness :
  0 <= 12 /\
  render_conversation get_tokenizer
    {| messages := [ {| role := "user"; content := "2001:db8::1" |};
                     {| role := "assistant"; content := "2001:db8::2" |} ] |} 12
  = ([65536; 8193; 3512; 0; 0; 0; 0; 0; 1; 8193; 3512; 0],
     [0; 0; 0; 0; 0; 0; 0; 0; 0; 1; 1; 1]).
Proof.
  split; [lia|].
  pose proof (render_conversation_spec
    {| messages := [ {| role := "user"; content := "2001:db8::1" |};
                     {| role := "assistant"; content := "2001:db8::2" |} ] |} 12
    ltac:(lia)) as H.
  destruct (render_conversation _ _ _) as [ids mask].
  destruct H as (-> & -> & _). vm_compute. reflexivity.
Defined.

(** ** The bucketizer *)

Lemma rstrip_newline s : rstrip (s +:+ newline) = rstrip s.
Proof.
  induction s as [|c s IH]; [reflexivity|].
  change (String c s +:+ newline) with (String c (s +:+ newline)).
  cbn [rstrip]. now rewrite IH.
Qed.

Lemma lstrip_newline s :
  lstrip (s +:+ newline) = lstrip s +:+ newline
  \/ (lstrip s = EmptyString /\ lstrip (s +:+ newline) = EmptyString).
Proof.
  induction s as [|c s IH]; [right; split; reflexivity|].
  change (String c s +:+ newline) with (String c (s +:+ newline)).
  cbn [lstrip]. destruct (isspace c); [exact IH|]. now left.
Qed.

Lemma strip_newline s : strip (s +:+ newline) = strip s.
Proof.
  unfold strip. destruct (lstrip_newline s) as [-> | [-> ->]].
  - apply rstrip_newline.
  - reflexivity.
Qed.

(** C4 (as amended).  A line whose stripped content is non-empty and does
    not start with ["#"] makes the bucketizer append that stripped
    content and a newline to the chosen bucket, and to no other; when the
    line (with or without its terminator) has no blank at either end of
    its content, what is appended is the content unchanged. *)
Theorem distribute_line_appends_stripped
        (bucket_files : list string) (line : string) (bucket_idx : Z)
        (written : string) :
  0 <= bucket_idx ->
  bucket_files !! Z.to_nat bucket_idx = Some written ->
  truthy (strip line) = true ->
  startswith "#" (strip line) = false ->
  distribute_line bucket_files line bucket_idx
  = <[Z.to_nat bucket_idx := written +:+ (strip line +:+ newline)]> bucket_files
  /\ (forall content,
         line = content \/ line = content +:+ newline ->
         strip content = content ->
         distribute_line bucket_files line bucket_idx
         = <[Z.to_nat bucket_idx := written +:+ (content +:+ newline)]> bucket_files).
Proof.
  intros Hidx Hold Ht Hs.
  assert (Hd : distribute_line bucket_files line bucket_idx
               = <[Z.to_nat bucket_idx := written +:+ (strip line +:+ newline)]>
                   bucket_files).
  { unfold distribute_line. rewrite Ht, Hs. simpl.
    apply list_eq. intros i.
    destruct (decide (i = Z.to_nat bucket_idx)) as [->|Hne].
    - rewrite list_lookup_alter_eq, Hold. simpl.
      rewrite list_lookup_insert_eq; [reflexivity|].
      now apply lookup_lt_Some in Hold.
    - rewrite list_lookup_alter_ne, list_lookup_insert_ne by congruence.
      reflexivity. }
  split; [exact Hd|].
  intros content [-> | ->] Hc; rewrite Hd.
  - now rewrite Hc.
  - now rewrite strip_newline, Hc.
Qed.

Lemma distribute_line_appends_stripped_witness :
  (0 <= 1 /\ truthy (strip ("2001:db8::1" +:+ newline)) = true)
  /\ distribute_line ["a"; "b"; "c"] ("2001:db8::1" +:+ newline) 1
     = ["a"; "b" +:+ ("2001:db8::1" +:+ newline); "c"].
Proof.
  split; [split; [lia | reflexivity]|].
  refine (proj2 (distribute_line_appends_stripped
                   ["a"; "b"; "c"] ("2001:db8::1" +:+ newline) 1 "b"
                   _ _ _ _) "2001:db8::1" _ _);
    first [lia | reflexivity | now right].
Defined.

(** C4 as stated fails: a line with a leading blank is neither blank nor
    a comment, yet what reaches the bucket is not the line's content. *)
Lemma distribute_line_verbatim_counterexample :
  ~ (forall bucket_files content bucket_idx written,
        0 <= bucket_idx ->
        bucket_files !! Z.to_nat bucket_idx = Some written ->
        truthy (strip content) = true ->
        startswith "#" content = false ->
        distribute_line bucket_files (content +:+ newline) bucket_idx
          !! Z.to_nat bucket_idx
        = Some (written +:+ (content +:+ newline))).
Proof.
  intros H.
  specialize (H [EmptyString] " ::1" 0 EmptyString
                ltac:(lia) eq_refl eq_refl eq_refl).
  vm_compute in H. discriminate H.
Qed.

(** ** The bucket reducer *)

Lemma slice_list_chunk {A} (k : nat) (c : Z) (l : list A) :
  0 < c -> (k < length l)%nat ->
  slice_list (Z.of_nat k) (Z.of_nat k + c) l = take (Z.to_nat c) (drop k l).
Proof.
  intros Hc Hk. unfold slice_list.
  destruct (Z.ltb_spec (Z.of_nat k) 0); [lia|].
  destruct (Z.ltb_spec (Z.of_nat k + c) 0); [lia|].
  rewrite (Z.min_l (Z.of_nat k)) by lia. rewrite Nat2Z.id.
  destruct (Z.le_ge_cases (Z.of_nat k + c) (Z.of_nat (length l))).
  - rewrite Z.min_l by lia. f_equal. lia.
  - rewrite Z.min_r by lia. rewrite !take_ge; [reflexivity|..];
      rewrite length_drop; lia.
Qed.

Lemma write_shards_chunked (c : Z) (l : list string) :
  0 < c ->
  forall fuel k out,
    (length l - k < fuel)%nat ->
    write_shards fuel c l (Z.of_nat k) out
    = Some (emit out (chunked fuel (Z.to_nat c) (drop k l))).
Proof.
  intros Hc. induction fuel as [|fuel IH]; intros k out Hfuel; [lia|].
  cbn [write_shards chunked].
  destruct (Z.ltb_spec (Z.of_nat k) (Z.of_nat (length l))) as [Hlt|Hge].
  - rewrite slice_list_chunk by lia.
    destruct (drop k l) as [|x rest] eqn:Hdrop.
    { apply (f_equal length) in Hdrop. rewrite length_drop in Hdrop.
      simpl in Hdrop. lia. }
    assert (Hlen : (0 < length (take (Z.to_nat c) (x :: rest)))%nat).
    { rewrite length_take. simpl. lia. }
    destruct (Nat.ltb_spec 0 (length (take (Z.to_nat c) (x :: rest)))); [|lia].
    replace (Z.of_nat k + c) with (Z.of_nat (k + Z.to_nat c)) by lia.
    rewrite IH by lia. cbn [emit fold_left].
    rewrite <- Hdrop, drop_drop. reflexivity.
  - rewrite drop_ge by lia. reflexivity.
Qed.

Lemma emit_spec chunks : forall out,
  emit out chunks
  = {| shards :=
         shards out
         ++ imap (fun i chunk => (shard_index out + Z.of_nat i, chunk)) chunks;
       shard_index := shard_index out + Z.of_nat (length chunks);
       total_processed_ips :=
         total_processed_ips out + Z.of_nat (length (concat chunks)) |}.
Proof.
  induction chunks as [|ch chunks IH]; intros out.
  - simpl. destruct out. cbn. rewrite app_nil_r, !Z.add_0_r. reflexivity.
  - cbn [emit fold_left]. fold (emit
      {| shards := shards out ++ [(shard_index out, ch)];
         shard_index := shard_index out + 1;
         total_processed_ips := total_processed_ips out + Z.of_nat (length ch) |}
      chunks).
    rewrite IH. cbn [shards shard_index total_processed_ips imap concat].
    rewrite <- app_assoc. cbn [app]. rewrite Z.add_0_r.
    f_equal.
    + do 2 f_equal. apply imap_ext. intros i x _. cbn. f_equal. lia.
    + cbn [length]. lia.
    + rewrite length_app. lia.
Qed.

Lemma chunked_concat {A} (size : nat) : forall fuel (l : list A),
  (0 < size)%nat -> (length l <= fuel)%nat ->
  concat (chunked fuel size l) = l.
Proof.
  induction fuel as [|fuel IH]; intros l Hs Hl.
  - destruct l; [reflexivity | simpl in Hl; lia].
  - destruct l as [|x l]; [reflexivity|].
    cbn [chunked concat]. rewrite IH; [apply take_drop|assumption|].
    rewrite length_drop. simpl in *. lia.
Qed.

(** The [i]-th chunk holds [size] elements, or what is left of the list
    when that is less. *)
Lemma chunked_lookup {A} (size : nat) : forall fuel (l : list A) i chunk,
  (0 < size)%nat -> (length l <= fuel)%nat ->
  chunked fuel size l !! i = Some chunk ->
  (i * size < length l)%nat /\
  length chunk = (size `min` (length l - i * size))%nat.
Proof.
  induction fuel as [|fuel IH]; intros l i chunk Hs Hl H.
  - discriminate.
  - destruct l as [|x l]; [discriminate|].
    cbn [chunked] in H. destruct i as [|i].
    + injection H as <-. rewrite length_take. simpl. lia.
    + cbn [lookup list_lookup] in H. apply IH in H; [|assumption|].
      * rewrite length_drop in H. simpl length in *. lia.
      * rewrite length_drop. simpl length in *. lia.
Qed.

Lemma chunked_length {A} (size : nat) : forall fuel (l : list A),
  (0 < size)%nat -> (length l <= fuel)%nat ->
  (length l <= length (chunked fuel size l) * size
   /\ (length (chunked fuel size l) * size < length l + size))%nat.
Proof.
  induction fuel as [|fuel IH]; intros l Hs Hl.
  - destruct l; simpl in *; lia.
  - destruct l as [|x l]; [simpl; lia|].
    cbn [chunked length].
    specialize (IH (drop size (x :: l)) Hs).
    rewrite length_drop in IH. simpl length in *.
    destruct (Nat.le_gt_cases (S (length l)) size).
    + rewrite drop_ge in IH |- * by (simpl; lia).
      destruct fuel; simpl; lia.
    + specialize (IH ltac:(lia)). lia.
Qed.

Section reducer_properties.

Variable shuffle : list string -> list string.
Variable docs_per_shard : Z.
Hypothesis docs_per_shard_pos : 0 < docs_per_shard.

Lemma reduce_bucket_emit raw_lines out :
  reduce_bucket shuffle docs_per_shard raw_lines out
  = Some (emit out (bucket_chunks shuffle docs_per_shard raw_lines)).
Proof.
  unfold reduce_bucket, bucket_chunks.
  change 0 with (Z.of_nat 0).
  rewrite write_shards_chunked by lia. now rewrite drop_0.
Qed.

Lemma bucket_chunks_concat raw_lines :
  concat (bucket_chunks shuffle docs_per_shard raw_lines) = bucket_ip_list shuffle raw_lines.
Proof. apply chunked_concat; lia. Qed.

(** C6.  A bucket whose shuffled, deduplicated sequence has [n]
    elements is written as [ceil(n / c)] new shards, numbered on from
    the running shard index: the shards before position [n / c] hold
    exactly [c] rows; a shard at position [n / c] exists only when
    [n mod c > 0], is the last one and holds the [n mod c] remaining
    rows; together they hold the [n] elements in order, and the row
    counter grows by [n]. *)
Theorem shard_sizes (raw_lines : list string) (out : output) :
  let ip_list := bucket_ip_list shuffle raw_lines in
  let n := Z.of_nat (length ip_list) in
  let c := docs_per_shard in
  exists chunks : list (list string),
    reduce_bucket shuffle docs_per_shard raw_lines out
    = Some {| shards :=
                shards out
                ++ imap (fun i chunk => (shard_index out + Z.of_nat i, chunk))
                        chunks;
              shard_index := shard_index out + Z.of_nat (length chunks);
              total_processed_ips := total_processed_ips out + n |}
    /\ concat chunks = ip_list
    /\ Z.of_nat (length chunks) = (n + c - 1) / c
    /\ (forall (i : nat) chunk,
           chunks !! i = Some chunk ->
           (Z.of_nat i < n / c -> Z.of_nat (length chunk) = c)
           /\ (n / c <= Z.of_nat i ->
               Z.of_nat i = n / c /\ 0 < n mod c
               /\ Z.of_nat (length chunk) = n mod c)).
Proof.
  intros ip_list n c. exists (bucket_chunks shuffle docs_per_shard raw_lines).
  pose proof (bucket_chunks_concat raw_lines) as Hcat. fold ip_list in Hcat.
  assert (Hc : (0 < Z.to_nat c)%nat) by (unfold c; lia).
  pose proof (Z.div_mod n c ltac:(unfold c; lia)) as Hdm.
  pose proof (Z.mod_pos_bound n c docs_per_shard_pos) as Hmod.
  assert (Hq : 0 <= n / c) by (apply Z.div_pos; unfold n, c; lia).
  split; [|split; [exact Hcat|split]].
  - rewrite reduce_bucket_emit, emit_spec, Hcat. reflexivity.
  - pose proof (chunked_length (Z.to_nat c) (S (length ip_list)) ip_list
                  Hc ltac:(lia)) as [H1 H2].
    change (chunked (S (length ip_list)) (Z.to_nat c) ip_list)
      with (bucket_chunks shuffle docs_per_shard raw_lines) in H1, H2.
    set (K := length (bucket_chunks shuffle docs_per_shard raw_lines)) in *.
    apply (Z.div_unique _ _ _ (n + c - 1 - c * Z.of_nat K)).
    + left. unfold n. nia.
    + lia.
  - intros i chunk Hi.
    apply chunked_lookup in Hi as [Hlt Hlen]; [|assumption|lia].
    fold ip_list in Hlt, Hlen.
    assert (Hlt' : Z.of_nat i * c < n) by (unfold n; nia).
    split; intros Hi'.
    + assert (Z.of_nat i * c + c <= n) by nia. unfold n in *. nia.
    + assert (Z.of_nat i = n / c) by nia.
      repeat split; [assumption | nia |]. unfold n in *. nia.
Qed.

Lemma dedup_elem raw_lines x :
  x ∈ dedup raw_lines ->
  exists line, line ∈ raw_lines /\ expand_ipv6 (strip line) = Some x.
Proof.
  unfold dedup.
  assert (H : forall acc : gset string,
             x ∈ fold_left dedup_step raw_lines acc ->
             x ∈ acc \/ exists line,
                 line ∈ raw_lines /\ expand_ipv6 (strip line) = Some x).
  { induction raw_lines as [|l ls IH]; intros acc Hx; [now left|].
    cbn [fold_left] in Hx. apply IH in Hx as [Hx | (line & Hl & He)].
    - unfold dedup_step in Hx.
      destruct (expand_ipv6 (strip l)) as [e|] eqn:He; [|now left].
      destruct (truthy e); [|now left].
      apply elem_of_union in Hx as [Hx|Hx]; [now left|].
      apply elem_of_singleton in Hx as ->. right. exists l.
      split; [constructor | assumption].
    - right. exists line. split; [now constructor | assumption]. }
  intros Hx. apply H in Hx as [Hx|Hx]; [|exact Hx]. set_solver.
Qed.

(** [random.shuffle] rearranges the list it is given. *)
Hypothesis shuffle_permutes : forall l, shuffle l ≡ₚ l.

(** C7.  The rows written for one bucket, over all its shards, are
    pairwise distinct, and each is the exploded form of a line of the
    bucket. *)
Theorem bucket_rows_distinct (raw_lines : list string) (out : output) :
  exists (new_shards : list (Z * list string)) (out' : output),
    reduce_bucket shuffle docs_per_shard raw_lines out = Some out'
    /\ shards out' = shards out ++ new_shards
    /\ NoDup (concat (map snd new_shards))
    /\ (forall row, row ∈ concat (map snd new_shards) ->
          exists line, line ∈ raw_lines /\ expand_ipv6 (strip line) = Some row).
Proof.
  exists (imap (fun i chunk => (shard_index out + Z.of_nat i, chunk))
               (bucket_chunks shuffle docs_per_shard raw_lines)).
  eexists. split; [apply reduce_bucket_emit|].
  rewrite emit_spec. cbn [shards]. split; [reflexivity|].
  assert (Hrows : map snd (imap (fun i chunk => (shard_index out + Z.of_nat i, chunk))
                                (bucket_chunks shuffle docs_per_shard raw_lines))
                  = bucket_chunks shuffle docs_per_shard raw_lines).
  { generalize (shard_index out). generalize (bucket_chunks shuffle docs_per_shard raw_lines).
    induction l as [|ch l IH]; intros z; [reflexivity|].
    cbn [imap map snd]. f_equal.
    rewrite <- (IH (z + 1)) at 2. f_equal. apply imap_ext.
    intros i x _. cbn. f_equal. lia. }
  rewrite Hrows, bucket_chunks_concat. unfold bucket_ip_list. split.
  - rewrite shuffle_permutes. apply NoDup_elements.
  - intros row Hrow. rewrite shuffle_permutes in Hrow.
    apply elem_of_elements in Hrow. now apply dedup_elem.
Qed.

End reducer_properties.

Lemma shard_sizes_witness :
  0 < 2 /\
  exists chunks : list (list string),
    reduce_bucket (@reverse string) 2 sample_bucket sample_output
    = Some {| shards :=
                imap (fun i chunk => (7 + Z.of_nat i, chunk)) chunks;
              shard_index := 7 + Z.of_nat (length chunks);
              total_processed_ips := 3 |}
    /\ concat chunks
       = ["0000:0000:0000:0000:0000:0000:0000:0002";
          "0000:0000:0000:0000:0000:0000:0000:0001";
          "0001:0000:0000:0000:0000:0000:0000:0000"]
    /\ Z.of_nat (length chunks) = 2.
Proof.
  split; [lia|].
  destruct (shard_sizes (@reverse string) 2 ltac:(lia) sample_bucket sample_output)
    as (chunks & H1 & H2 & H3 & _).
  exists chunks. split; [exact H1 | split; [exact H2 | exact H3]].
Defined.

Lemma bucket_rows_distinct_witness :
  0 < 2 /\
  exists (new_shards : list (Z * list string)) (out' : output),
    reduce_bucket (@reverse string) 2 sample_bucket sample_output = Some out'
    /\ shards out' = new_shards
    /\ NoDup (concat (map snd new_shards)).
Proof.
  split; [lia|].
  destruct (bucket_rows_distinct (@reverse string) 2 ltac:(lia)
              (fun l => reverse_Permutation l) sample_bucket sample_output)
    as (new_shards & out' & H1 & H2 & H3 & _).
  exists new_shards, out'. split; [exact H1 | split; [exact H2 | exact H3]].
Defined.

(** ** The verifier *)

Section verifier_properties.

Variable check_call : nat -> string -> outcome unit.
Variable random : nat -> Q.

Lemma ping_single_verdict probe ip :
  has_verdict check_call probe ip ->
  exists is_active, _ping_single check_call probe ip = Returned is_active.
Proof.
  unfold has_verdict, _ping_single.
  destruct (check_call probe ip) as [[]|[]]; intros H; eauto. congruence.
Qed.

Lemma ping_single_raised probe ip e :
  _ping_single check_call probe ip = Raised e ->
  e = OtherError /\ check_call probe ip = Raised OtherError.
Proof.
  unfold _ping_single.
  destruct (check_call probe ip) as [[]|[]]; intros [= <-] || discriminate.
  auto.
Qed.

Lemma ping_single_failed probe ip :
  check_call probe ip = Raised CalledProcessError
  \/ check_call probe ip = Raised TimeoutExpired ->
  _ping_single check_call probe ip = Returned false.
Proof. unfold _ping_single. now intros [-> | ->]. Qed.

(** What [ip_status] holds after the futures [completed] have been
    handled: for every address, either its old entry (no completed
    probe was for it) or the score of one completed probe of it. *)
Lemma collect_returned ip_list completed : forall ip_status,
  (forall j ip, j ∈ completed -> ip_list !! j = Some ip -> has_verdict check_call j ip) ->
  exists ip_status',
    collect check_call ip_list completed ip_status = Returned ip_status'
    /\ forall ip,
        (ip_status' !! ip = ip_status !! ip
         /\ forall j, j ∈ completed -> ip_list !! j <> Some ip)
        \/ (exists j is_active,
               j ∈ completed /\ ip_list !! j = Some ip
               /\ _ping_single check_call j ip = Returned is_active
               /\ ip_status' !! ip = Some (score is_active)).
Proof.
  induction completed as [|future rest IH]; intros ip_status Hv.
  - exists ip_status. split; [reflexivity|]. intros ip. left.
    split; [reflexivity|]. intros j Hj. inversion Hj.
  - cbn [collect]. destruct (ip_list !! future) as [ip0|] eqn:Hf.
    + destruct (ping_single_verdict future ip0) as [b0 Hb0].
      { apply Hv; [constructor | assumption]. }
      rewrite Hb0.
      destruct (IH (<[ip0 := score b0]> ip_status)) as (st' & Hst' & Hall).
      { intros j ip Hj. apply Hv. now constructor. }
      exists st'. split; [assumption|]. intros ip.
      destruct (Hall ip) as [[Heq Hnone] | (j & b & Hj & Hip & Hb & Hs)].
      * destruct (decide (ip0 = ip)) as [->|Hne].
        -- right. exists future, b0. rewrite Heq, lookup_insert_eq.
           repeat split; try assumption. constructor.
        -- left. rewrite Heq, lookup_insert_ne by assumption.
           split; [reflexivity|]. intros j Hj.
           apply elem_of_cons in Hj as [->|Hj]; [congruence | now apply Hnone].
      * right. exists j, b. repeat split; try assumption. now constructor.
    + destruct (IH ip_status) as (st' & Hst' & Hall).
      { intros j ip Hj. apply Hv. now constructor. }
      exists st'. split; [assumption|]. intros ip.
      destruct (Hall ip) as [[Heq Hnone] | (j & b & Hj & Hip & Hb & Hs)].
      * left. split; [assumption|]. intros j Hj.
        apply elem_of_cons in Hj as [->|Hj]; [congruence | now apply Hnone].
      * right. exists j, b. repeat split; try assumption. now constructor.
Qed.

Lemma collect_raised ip_list completed : forall ip_status e,
  collect check_call ip_list completed ip_status = Raised e ->
  exists j ip,
    j ∈ completed /\ ip_list !! j = Some ip
    /\ _ping_single check_call j ip = Raised e.
Proof.
  induction completed as [|future rest IH]; intros ip_status e H;
    [discriminate|].
  cbn [collect] in H. destruct (ip_list !! future) as [ip0|] eqn:Hf.
  - destruct (_ping_single check_call future ip0) as [b|e'] eqn:Hp.
    + apply IH in H as (j & ip & Hj & Hip & Hr).
      exists j, ip. repeat split; try assumption. now constructor.
    + injection H as ->. exists future, ip0.
      repeat split; try assumption. constructor.
  - apply IH in H as (j & ip & Hj & Hip & Hr).
    exists j, ip. repeat split; try assumption. now constructor.
Qed.

(** When the loop ends without an error, every completed probe has
    ended with a verdict. *)
Lemma collect_verdicts ip_list completed : forall ip_status ip_status',
  collect check_call ip_list completed ip_status = Returned ip_status' ->
  forall j ip,
    j ∈ completed -> ip_list !! j = Some ip -> has_verdict check_call j ip.
Proof.
  induction completed as [|future rest IH]; intros st st' H j ip Hj Hip;
    [inversion Hj|].
  cbn [collect] in H. destruct (ip_list !! future) as [ip0|] eqn:Hf.
  - destruct (_ping_single check_call future ip0) as [b0|e] eqn:Hb0;
      [|discriminate].
    apply elem_of_cons in Hj as [->|Hj]; [|now apply (IH _ _ H j ip)].
    rewrite Hip in Hf. injection Hf as <-.
    unfold has_verdict. intros Hr.
    unfold _ping_single in Hb0. rewrite Hr in Hb0. discriminate.
  - apply elem_of_cons in Hj as [->|Hj]; [congruence|now apply (IH _ _ H j ip)].
Qed.

Variable as_completed : list nat.
Variable ip_list : list string.

(** [as_completed] yields every submitted future exactly once, in some
    order. *)
Hypothesis every_future_completes :
  as_completed ≡ₚ seq 0 (length ip_list).

Lemma verify_batch_scores :
  (forall i ip, ip_list !! i = Some ip -> has_verdict check_call i ip) ->
  exists scores,
    verify_batch check_call random as_completed real_scanner ip_list
    = Returned scores
    /\ length scores = length ip_list
    /\ forall i ip,
        ip_list !! i = Some ip ->
        exists j is_active,
          ip_list !! j = Some ip
          /\ _ping_single check_call j ip = Returned is_active
          /\ scores !! i = Some (score is_active).
Proof.
  intros Hv. unfold verify_batch, real_scanner. cbn [use_mock].
  destruct (collect_returned ip_list as_completed ∅) as (st & -> & Hall).
  { intros j ip _. apply Hv. }
  eexists. split; [reflexivity|]. split; [apply length_map|].
  intros i ip Hi.
  destruct (Hall ip) as [[_ Hnone] | (j & b & _ & Hj & Hb & Hs)].
  - exfalso. apply (Hnone i); [|assumption].
    rewrite every_future_completes. apply elem_of_seq.
    apply lookup_lt_Some in Hi. lia.
  - exists j, b. repeat split; try assumption.
    rewrite list_lookup_fmap || (change (map ?f ?l) with (f <$> l); rewrite list_lookup_fmap).
    rewrite Hi. cbn. now rewrite Hs.
Qed.

(** C2 (amended).  Whatever the order in which the probes complete, as
    long as no probe ends with an error other than a non-zero exit or
    a timeout, [verify_batch] returns one score per input address,
    each 0.0 or 1.0.  The score at position [i] is the score of a
    probe of the address at position [i]: 1.0 for a [ping6] that
    returned, 0.0 for one that failed or timed out.  When the probes
    of that address all end alike, in particular when the address
    occurs once, it is the score of the probe submitted for position
    [i]; when this holds of every address, the list returned is given
    by the probes alone, whatever the completion order. *)
Theorem verify_batch_input_order :
  (forall i ip, ip_list !! i = Some ip -> has_verdict check_call i ip) ->
  exists scores,
    verify_batch check_call random as_completed real_scanner ip_list
    = Returned scores
    /\ length scores = length ip_list
    /\ Forall (fun s => s = 0%Q \/ s = 1%Q) scores
    /\ (forall i ip,
           ip_list !! i = Some ip ->
           exists j,
             ip_list !! j = Some ip
             /\ (check_call j ip = Returned () /\ scores !! i = Some 1%Q
                 \/ (check_call j ip = Raised CalledProcessError
                     \/ check_call j ip = Raised TimeoutExpired)
                    /\ scores !! i = Some 0%Q))
    /\ (forall i ip,
           ip_list !! i = Some ip ->
           (forall j, ip_list !! j = Some ip ->
                      check_call j ip = check_call i ip) ->
           (scores !! i = Some 1%Q <-> check_call i ip = Returned ())
           /\ (scores !! i = Some 0%Q
               <-> check_call i ip = Raised CalledProcessError
                   \/ check_call i ip = Raised TimeoutExpired))
    /\ ((forall i j ip,
            ip_list !! i = Some ip -> ip_list !! j = Some ip ->
            check_call j ip = check_call i ip) ->
        scores = imap (fun i ip => match check_call i ip with
                                   | Returned _ => 1%Q
                                   | Raised _ => 0%Q
                                   end) ip_list).
Proof.
  intros Hv. destruct (verify_batch_scores Hv) as (scores & Hr & Hlen & Hs).
  assert (Hsome : forall i ip,
             ip_list !! i = Some ip ->
             exists j,
               ip_list !! j = Some ip
               /\ (check_call j ip = Returned () /\ scores !! i = Some 1%Q
                   \/ (check_call j ip = Raised CalledProcessError
                       \/ check_call j ip = Raised TimeoutExpired)
                      /\ scores !! i = Some 0%Q)).
  { intros i ip Hi. destruct (Hs i ip Hi) as (j & b & Hj & Hb & Hsc).
    exists j. split; [assumption|]. unfold _ping_single in Hb.
    destruct (check_call j ip) as [[]|[]]; try discriminate;
      injection Hb as <-; auto. }
  assert (Hown : forall i ip,
             ip_list !! i = Some ip ->
             (forall j, ip_list !! j = Some ip ->
                        check_call j ip = check_call i ip) ->
             (scores !! i = Some 1%Q <-> check_call i ip = Returned ())
             /\ (scores !! i = Some 0%Q
                 <-> check_call i ip = Raised CalledProcessError
                     \/ check_call i ip = Raised TimeoutExpired)).
  { intros i ip Hi Hsame.
    destruct (Hsome i ip Hi) as (j & Hj & Hcase).
    rewrite (Hsame j Hj) in Hcase.
    destruct Hcase as [[Hc ->] | [Hc ->]]; (split; split);
      first [ intros _; assumption
            | intros _; reflexivity
            | intros; exfalso; destruct Hc; intuition congruence
            | intros; exfalso; intuition congruence
            | discriminate ]. }
  exists scores.
  split; [assumption|]. split; [assumption|].
  split; [|split; [assumption|split; [assumption|]]].
  - apply Forall_lookup. intros i s Hi.
    destruct (ip_list !! i) as [ip|] eqn:Hip.
    + destruct (Hs i ip Hip) as (j & b & _ & _ & Hsc).
      rewrite Hi in Hsc. injection Hsc as ->. destruct b; auto.
    + apply lookup_lt_Some in Hi. apply lookup_ge_None in Hip. lia.
  - intros Hsame. apply list_eq. intros i. rewrite list_lookup_imap.
    destruct (ip_list !! i) as [ip|] eqn:Hip; cbn [fmap option_fmap option_map].
    + destruct (Hown i ip Hip) as [H1 H0].
      { intros j Hj. now apply (Hsame i j ip). }
      specialize (Hv i ip Hip). unfold has_verdict in Hv.
      destruct (check_call i ip) as [[]|[]].
      * now apply H1.
      * apply H0. now left.
      * apply H0. now right.
      * congruence.
    + apply lookup_ge_None. apply lookup_ge_None in Hip. lia.
Qed.

(** C3 (amended).  A probe that fails (non-zero exit) or times out
    counts as "not active" and never makes [verify_batch] raise: an
    address whose probes all end that way gets 0.0 at each of its
    positions.  But [verify_batch] returns a list, one score per
    input, exactly when no probe ends with another error; a probe
    that does makes [verify_batch] raise that error, and no score is
    returned. *)
Theorem verify_batch_failed_probe :
  (forall i ip,
      check_call i ip = Raised CalledProcessError
      \/ check_call i ip = Raised TimeoutExpired ->
      _ping_single check_call i ip = Returned false)
  /\ ((exists scores,
          verify_batch check_call random as_completed real_scanner ip_list
          = Returned scores)
      <-> (forall i ip, ip_list !! i = Some ip -> has_verdict check_call i ip))
  /\ (forall scores,
         verify_batch check_call random as_completed real_scanner ip_list
         = Returned scores ->
         length scores = length ip_list
         /\ forall i ip,
             ip_list !! i = Some ip ->
             (forall j, ip_list !! j = Some ip ->
                        check_call j ip = Raised CalledProcessError
                        \/ check_call j ip = Raised TimeoutExpired) ->
             scores !! i = Some 0%Q)
  /\ (forall e,
         verify_batch check_call random as_completed real_scanner ip_list
         = Raised e ->
         e = OtherError
         /\ exists j ip,
             ip_list !! j = Some ip /\ check_call j ip = Raised OtherError)
  /\ (forall j ip,
         ip_list !! j = Some ip -> check_call j ip = Raised OtherError ->
         verify_batch check_call random as_completed real_scanner ip_list
         = Raised OtherError).
Proof.
  assert (Hret : forall scores,
             verify_batch check_call random as_completed real_scanner ip_list
             = Returned scores ->
             forall i ip, ip_list !! i = Some ip -> has_verdict check_call i ip).
  { intros scores H i ip Hi.
    unfold verify_batch, real_scanner in H. cbn [use_mock] in H.
    destruct (collect check_call ip_list as_completed ∅) as [st|e] eqn:Hc;
      [|discriminate].
    apply (collect_verdicts _ _ _ _ Hc i ip); [|assumption].
    rewrite every_future_completes. apply elem_of_seq.
    apply lookup_lt_Some in Hi. lia. }
  assert (Hraise : forall e,
             verify_batch check_call random as_completed real_scanner ip_list
             = Raised e ->
             e = OtherError
             /\ exists j ip,
                 ip_list !! j = Some ip /\ check_call j ip = Raised OtherError).
  { intros e H. unfold verify_batch, real_scanner in H. cbn [use_mock] in H.
    destruct (collect check_call ip_list as_completed ∅) as [st|e'] eqn:Hc;
      [discriminate|].
    injection H as ->.
    apply collect_raised in Hc as (j & ip & _ & Hj & Hr).
    apply ping_single_raised in Hr as [-> Hr]. eauto. }
  split; [apply ping_single_failed|].
  split; [|split; [|split; [exact Hraise|]]].
  - split.
    + intros [scores H]. exact (Hret scores H).
    + intros Hv. destruct (verify_batch_scores Hv) as (scores & Hr & _). eauto.
  - intros scores H.
    destruct (verify_batch_scores (Hret scores H)) as (scores' & Hr & Hlen & Hs).
    rewrite H in Hr. injection Hr as <-.
    split; [assumption|]. intros i ip Hi Hfail.
    destruct (Hs i ip Hi) as (j & b & Hj & Hb & Hsc).
    rewrite (ping_single_failed _ _ (Hfail j Hj)) in Hb.
    injection Hb as <-. exact Hsc.
  - intros j ip Hj Hr.
    destruct (verify_batch check_call random as_completed real_scanner ip_list)
      as [scores|e] eqn:H.
    + exfalso. now apply (Hret scores eq_refl j ip Hj).
    + now destruct (Hraise e eq_refl) as [-> _].
Qed.

End verifier_properties.

Lemma verify_batch_input_order_witness :
  ([2; 0; 1]%nat ≡ₚ seq 0 (length sample_ips)
   /\ forall i ip, sample_ips !! i = Some ip -> has_verdict sample_check_call i ip)
  /\ verify_batch sample_check_call (fun _ => 0%Q) [2; 0; 1]%nat
                  real_scanner sample_ips
     = Returned [1%Q; 1%Q; 0%Q].
Proof.
  assert (Hperm : [2; 0; 1]%nat ≡ₚ seq 0 (length sample_ips)).
  { simpl. etransitivity; [apply Permutation_swap|].
    constructor. apply Permutation_swap. }
  assert (Hv : forall i ip,
             sample_ips !! i = Some ip -> has_verdict sample_check_call i ip).
  { intros i ip _. unfold has_verdict, sample_check_call.
    destruct (String.eqb ip "2001:db8::1"); discriminate. }
  split; [split; [exact Hperm|exact Hv]|].
  destruct (verify_batch_input_order sample_check_call (fun _ => 0%Q)
              [2; 0; 1]%nat sample_ips Hperm Hv)
    as (scores & Hr & _ & _ & _ & _ & Hall).
  rewrite Hr, Hall; [reflexivity|]. intros i j ip _ _. reflexivity.
Defined.

(** C2 as stated fails.  The scores are kept by address text, not by
    position: when an address is given twice and only the probe
    submitted first succeeds, both positions get the score of the probe
    that completes last.  Completed in the order of submission, the
    probes give 0.0 at the first position, whose own probe succeeded;
    completed in the other order they give another list. *)
Lemma verify_batch_input_order_counterexample :
  ~ (forall (check_call : nat -> string -> outcome unit) (random : nat -> Q)
            (as_completed : list nat) (ip_list : list string),
        as_completed ≡ₚ seq 0 (length ip_list) ->
        exists scores,
          verify_batch check_call random as_completed real_scanner ip_list
          = Returned scores
          /\ length scores = length ip_list
          /\ forall i ip,
              ip_list !! i = Some ip ->
              check_call i ip = Returned () -> scores !! i = Some 1%Q)
  /\ ~ (forall (check_call : nat -> string -> outcome unit) (random : nat -> Q)
              (first second : list nat) (ip_list : list string),
          first ≡ₚ seq 0 (length ip_list) ->
          second ≡ₚ seq 0 (length ip_list) ->
          verify_batch check_call random first real_scanner ip_list
          = verify_batch check_call random second real_scanner ip_list).
Proof.
  split.
  - intros H.
    destruct (H (fun probe _ =>
                   if (probe =? 0)%nat then Returned () else Raised TimeoutExpired)
                (fun _ => 0%Q) [0; 1]%nat ["::1"; "::1"])
      as (scores & Hr & _ & Hs); [reflexivity|].
    specialize (Hs 0%nat "::1" eq_refl eq_refl).
    vm_compute in Hr. injection Hr as <-. discriminate Hs.
  - intros H.
    specialize (H (fun probe _ =>
                     if (probe =? 0)%nat then Returned () else Raised TimeoutExpired)
                  (fun _ => 0%Q) [0; 1]%nat [1; 0]%nat ["::1"; "::1"]).
    specialize (H ltac:(reflexivity) ltac:(apply Permutation_swap)).
    vm_compute in H. discriminate H.
Qed.

Lemma verify_batch_failed_probe_witness :
  [2; 0; 1]%nat ≡ₚ seq 0 (length sample_ips)
  /\ sample_check_call 2 "2001:db8::1" = Raised TimeoutExpired
  /\ exists scores,
      verify_batch sample_check_call (fun _ => 0%Q) [2; 0; 1]%nat
                   real_scanner sample_ips = Returned scores
      /\ length scores = 3%nat
      /\ scores !! 2%nat = Some 0%Q.
Proof.
  assert (Hperm : [2; 0; 1]%nat ≡ₚ seq 0 (length sample_ips)).
  { simpl. etransitivity; [apply Permutation_swap|].
    constructor. apply Permutation_swap. }
  split; [exact Hperm|]. split; [reflexivity|].
  destruct (verify_batch_failed_probe sample_check_call (fun _ => 0%Q)
              [2; 0; 1]%nat sample_ips Hperm) as (_ & Hiff & Hzero & _).
  destruct (proj2 Hiff) as [scores Hr].
  { intros i ip _. unfold has_verdict, sample_check_call.
    destruct (String.eqb ip "2001:db8::1"); discriminate. }
  destruct (Hzero scores Hr) as [Hlen H0].
  exists scores. split; [exact Hr|]. split; [exact Hlen|].
  apply (H0 2%nat "2001:db8::1" eq_refl). intros j _. now right.
Defined.

(** C3 as stated fails.  Where [ping6] cannot be started, the probe ends
    with an error that is neither a non-zero exit nor a timeout;
    [_ping_single] does not catch it, and [verify_batch] raises it
    instead of returning a list of scores. *)
Lemma verify_batch_failed_probe_counterexample :
  ~ (forall (check_call : nat -> string -> outcome unit) (random : nat -> Q)
            (as_completed : list nat) (ip_list : list string),
        as_completed ≡ₚ seq 0 (length ip_list) ->
        exists scores,
          verify_batch check_call random as_completed real_scanner ip_list
          = Returned scores
          /\ length scores = length ip_list).
Proof.
  intros H.
  destruct (H (fun _ _ => Raised OtherError) (fun _ => 0%Q)
              [0]%nat ["2001:db8::1"])
    as (scores & Hr & _); [reflexivity|].
  vm_compute in Hr. discriminate Hr.
Qed.

(** Two probes of one address that end differently: the score both
    positions get is the one of the probe that completes last. *)
Example verify_batch_duplicate_address :
  let check_call (probe : nat) (ip : string) :=
    if (probe =? 0)%nat then Returned () else Raised TimeoutExpired in
  verify_batch check_call (fun _ => 0%Q) [0; 1]%nat real_scanner ["::1"; "::1"]
  = Returned [0%Q; 0%Q]
  /\ verify_batch check_call (fun _ => 0%Q) [1; 0]%nat real_scanner ["::1"; "::1"]
     = Returned [1%Q; 1%Q].
Proof. split; vm_compute; reflexivity. Qed.

(** ** Further properties of the address texts *)

(** *** [strip] is idempotent *)

Lemma rstrip_idem s : rstrip (rstrip s) = rstrip s.
Proof.
  induction s as [|c s IH]; [reflexivity|].
  cbn [rstrip]. destruct (rstrip s) as [|a r] eqn:Hr.
  - destruct (isspace c) eqn:Hc; [reflexivity|].
    cbn [rstrip]. now rewrite Hc.
  - change (rstrip (String c (String a r)))
      with (match rstrip (String a r) with
            | EmptyString => if isspace c then EmptyString else String c EmptyString
            | r' => String c r'
            end).
    now rewrite IH.
Qed.

Lemma lstrip_head s :
  lstrip s = EmptyString
  \/ exists c t, lstrip s = String c t /\ isspace c = false.
Proof.
  induction s as [|c s IH]; [now left|].
  cbn [lstrip]. destruct (isspace c) eqn:Hc; [exact IH|].
  right. eauto.
Qed.

Lemma rstrip_head c t :
  isspace c = false -> exists r, rstrip (String c t) = String c r.
Proof.
  intros Hc. cbn [rstrip]. destruct (rstrip t); [rewrite Hc|]; eauto.
Qed.

Lemma strip_idem s : strip (strip s) = strip s.
Proof.
  unfold strip.
  assert (Hl : lstrip (rstrip (lstrip s)) = rstrip (lstrip s)).
  { destruct (lstrip_head s) as [-> | (c & t & -> & Hc)]; [reflexivity|].
    destruct (rstrip_head c t Hc) as [r ->]. cbn [lstrip]. now rewrite Hc. }
  rewrite Hl. apply rstrip_idem.
Qed.

Lemma truthy_false s : truthy s = false -> s = EmptyString.
Proof. now destruct s. Qed.

(** *** The alphabet of an accepted address text *)

Lemma hex_address_char s :
  all_chars is_hex_digit s = true -> all_chars is_address_char s = true.
Proof.
  apply all_chars_impl. intros c Hc. unfold is_address_char. now rewrite Hc.
Qed.

Lemma ascii_digit_address_char c :
  is_ascii_digit c = true -> is_address_char c = true.
Proof.
  unfold is_ascii_digit, dec_value, is_address_char, is_hex_digit.
  destruct (hex_value c); [reflexivity|discriminate].
Qed.

Lemma ipv4_address_chars s :
  is_Some (V4.IPv4Address s) -> all_chars is_address_char s = true.
Proof.
  intros [x H]. unfold V4.IPv4Address, V4._ip_int_from_string in H.
  destruct (contains "/" s); [discriminate|].
  destruct (truthy s); [|discriminate]. simpl in H.
  destruct (length (split "." s) =? 4)%nat; [|discriminate]. simpl in H.
  apply fmap_Some in H as (bs & H & _). apply mapM_Some_1 in H.
  rewrite <- (join_split "." s).
  apply all_chars_join; [reflexivity|].
  induction H as [|o b os bs Ho _ IH]; constructor; [|exact IH].
  eapply all_chars_impl; [apply ascii_digit_address_char|].
  eapply parse_octet_chars, Ho.
Qed.

(** The group [_find_skip_index] reports is empty. *)
Lemma find_skip_empty ps : forall i sk j,
  _find_skip_index i ps sk = Some (Some j) ->
  sk = Some j \/ ((i <= j)%nat /\ ps !! (j - i)%nat = Some EmptyString).
Proof.
  induction ps as [|p ps IH]; intros i sk j H; simpl in H.
  - left. congruence.
  - destruct (truthy p) eqn:Hp; simpl in H.
    + apply IH in H as [H | [Hle H]]; [now left|].
      right. split; [lia|].
      replace (j - i)%nat with (S (j - S i)) by lia. exact H.
    + destruct sk; [discriminate|].
      apply IH in H as [H | [Hle H]].
      * injection H as <-. right. split; [lia|].
        rewrite Nat.sub_diag. simpl. f_equal. now apply truthy_false.
      * right. split; [lia|].
        replace (j - i)%nat with (S (j - S i)) by lia. exact H.
Qed.

Lemma lookup_removelast_tail (ps : list string) k p :
  removelast (tail ps) !! k = Some p -> ps !! S k = Some p.
Proof.
  rewrite removelast_firstn_len. intros H.
  apply lookup_take_Some in H as [H _].
  destruct ps; [discriminate|]. exact H.
Qed.

Lemma lookup_hd (ps : list string) :
  (0 < length ps)%nat -> ps !! 0%nat = Some (hd EmptyString ps).
Proof. destruct ps; simpl; [lia|reflexivity]. Qed.

Lemma lookup_last_part (ps : list string) :
  (0 < length ps)%nat -> ps !! (length ps - 1)%nat = Some (last_part ps).
Proof.
  intros H. rewrite (last_part_removelast ps) at 1 2 by (destruct ps; [simpl in H; lia|discriminate]).
  rewrite length_app. simpl.
  rewrite lookup_app_r by lia.
  replace (length (removelast ps) + 1 - 1 - length (removelast ps))%nat with 0%nat by lia.
  reflexivity.
Qed.

(** Every group of a text [_ip_int_from_parts] accepts is made of
    hexadecimal digits and dots. *)
Lemma from_parts_chars parts v :
  _ip_int_from_parts parts = Some v ->
  Forall (fun p => all_chars is_address_char p = true) parts.
Proof.
  unfold _ip_int_from_parts, _HEXTET_COUNT. intros H.
  destruct (Nat.ltb_spec (length parts) 3) as [|Hlen]; [discriminate|].
  match type of H with
  | (?e ≫= _) = _ => destruct e as [parts'|] eqn:Hparts'; [|discriminate]
  end.
  cbn [mbind option_bind] in H.
  assert (Hlen' : (3 <= length parts')%nat).
  { destruct (contains "." (last_part parts)).
    - destruct (V4.IPv4Address (last_part parts)); [|discriminate].
      cbn in Hparts'. injection Hparts' as <-.
      rewrite length_app, removelast_firstn_len, length_take. simpl. lia.
    - congruence. }
  enough (Hall : Forall (fun p => all_chars is_address_char p = true) parts').
  { destruct (contains "." (last_part parts)) eqn:Hdot; [|congruence].
    destruct (V4.IPv4Address (last_part parts)) eqn:H4; [|discriminate].
    cbn in Hparts'. injection Hparts' as <-.
    apply Forall_app in Hall as [Hall _].
    rewrite (last_part_removelast parts) by (destruct parts; [simpl in Hlen; lia|discriminate]).
    apply Forall_app. split; [exact Hall|].
    constructor; [|constructor]. apply ipv4_address_chars. eauto. }
  clear Hparts' Hlen parts.
  destruct (Nat.ltb_spec (Z.to_nat (8 + 1)) (length parts')) as [|Hmax];
    [discriminate|].
  destruct (_find_skip_index 1 (removelast (tail parts')) None) as [sk|] eqn:Hsk;
    [|discriminate].
  cbn [mbind option_bind] in H.
  assert (Hhex : forall ps acc r,
             _parse_hextets acc ps = Some r ->
             Forall (fun p => all_chars is_address_char p = true) ps).
  { intros ps acc r Hps. apply parse_hextets_Forall in Hps.
    eapply Forall_impl; [exact Hps|].
    intros p [_ Hp]. now apply hex_address_char. }
  destruct sk as [j|].
  - pose proof Hsk as Hrange.
    apply find_skip_range in Hrange as [|Hj]; [discriminate|].
    rewrite length_removelast_tail in Hj.
    apply find_skip_empty in Hsk as [|[_ Hskip]]; [discriminate|].
    apply lookup_removelast_tail in Hskip.
    replace (S (j - 1)) with j in Hskip by lia.
    match type of H with
    | (?e ≫= _) = _ => destruct e as [[[hi lo] skipped]|] eqn:He; [|discriminate]
    end.
    cbn [mbind option_bind] in H.
    destruct (_parse_hextets 0 (take (Z.to_nat hi) parts')) as [a|] eqn:Ha;
      [|discriminate].
    cbn [mbind option_bind] in H.
    apply Hhex in Ha, H.
    pose proof (lookup_hd parts' ltac:(lia)) as Hfirst.
    pose proof (lookup_last_part parts' ltac:(lia)) as Hend.
    assert (Hgap : forall idx p,
               parts' !! idx = Some p ->
               (Z.to_nat hi <= idx < length parts' - Z.to_nat lo)%nat ->
               p = EmptyString).
    { intros idx p Hp Hidx.
      destruct (truthy (hd EmptyString parts')) eqn:Hhd,
               (truthy (last_part parts')) eqn:Hlast; cbn in He;
        repeat match type of He with
               | context [Z.eqb ?x ?y] =>
                   destruct (Z.eqb_spec x y); cbn in He; try discriminate
               | context [Z.ltb ?x ?y] =>
                   destruct (Z.ltb_spec x y); cbn in He; try discriminate
               end;
        injection He as <- <- <-;
        apply truthy_false in Hhd || idtac;
        apply truthy_false in Hlast || idtac.
      - assert (idx = j) by lia. congruence.
      - assert (idx = j \/ idx = (length parts' - 1)%nat) as [->| ->] by lia;
          congruence.
      - assert (idx = j \/ idx = 0%nat) as [->| ->] by lia; congruence.
      - assert (idx = j \/ idx = 0%nat \/ idx = (length parts' - 1)%nat)
          as [->|[->| ->]] by lia; congruence. }
    apply Forall_lookup. intros idx p Hp.
    destruct (Nat.lt_ge_cases idx (Z.to_nat hi)) as [Hlo|Hge].
    + rewrite Forall_lookup in Ha. apply (Ha idx).
      rewrite lookup_take_lt by lia. exact Hp.
    + destruct (Nat.lt_ge_cases idx (length parts' - Z.to_nat lo)) as [Hmid|Hhi].
      * rewrite (Hgap idx p Hp) by lia. reflexivity.
      * rewrite Forall_lookup in H.
        apply (H (idx - (length parts' - Z.to_nat lo))%nat).
        rewrite lookup_drop. rewrite <- Hp. f_equal. lia.
  - cbn [mbind option_bind] in H.
    destruct (Z.eqb_spec (Z.of_nat (length parts')) 8) as [Hl8|];
      [|discriminate].
    destruct (truthy (hd EmptyString parts')) eqn:Hhd; [|discriminate].
    destruct (truthy (last_part parts')) eqn:Hlast; [|discriminate].
    cbn [negb mbind option_bind] in H.
    destruct (_parse_hextets 0 (take (Z.to_nat (Z.of_nat (length parts'))) parts'))
      as [a|] eqn:Ha; [|discriminate].
    apply Hhex in Ha. rewrite Nat2Z.id, take_ge in Ha by lia. exact Ha.
Qed.

(** A text [_ip_int_from_string] accepts is made of hexadecimal
    digits, colons and dots. *)
Lemma ip_int_from_string_chars s v :
  _ip_int_from_string s = Some v -> all_chars is_address_char s = true.
Proof.
  unfold _ip_int_from_string. destruct (truthy s); [|discriminate].
  simpl. intros H. apply from_parts_chars in H.
  rewrite <- (join_split ":" s). now apply all_chars_join.
Qed.

(** [_ip_int_from_string] refuses a text with a zone suffix. *)
Lemma ip_int_from_string_percent a z :
  _ip_int_from_string (a +:+ "%" +:+ z) = None.
Proof.
  destruct (_ip_int_from_string (a +:+ "%" +:+ z)) as [v|] eqn:H; [|reflexivity].
  apply ip_int_from_string_chars in H.
  rewrite all_chars_app in H. apply andb_prop in H as [_ H].
  discriminate H.
Qed.

(** What [IPv6Address] does with a text: the part before the first
    ["%"] is parsed, the part after it is the zone. *)
Lemma IPv6Address_inv s addr :
  IPv6Address_of_str s = Some addr ->
  exists a,
    _ip_int_from_string a = Some (_ip addr)
    /\ match _scope_id addr with
       | None => s = a
       | Some z => s = a +:+ "%" +:+ z /\ truthy z = true
       end.
Proof.
  unfold IPv6Address_of_str, _split_scope_id. intros H.
  destruct (contains "/" s); [discriminate|].
  destruct (partition "%" s) as [[h found] t] eqn:Hp.
  destruct found; cbn in H.
  - destruct (truthy t) eqn:Ht; cbn in H; [|discriminate].
    destruct (contains "%" t); cbn in H; [discriminate|].
    destruct (_ip_int_from_string h) eqn:Hh; cbn in H; [|discriminate].
    injection H as <-. exists h. cbn. repeat split; try assumption.
    clear -Hp. revert h Hp. induction s as [|c s IH]; intros h Hp.
    + discriminate.
    + cbn [partition] in Hp. destruct (Ascii.eqb_spec c "%") as [->|Hc].
      * now injection Hp as <- <-.
      * destruct (partition "%" s) as [[h' f'] t'].
        injection Hp as <- -> ->. simpl. f_equal. now apply IH.
  - apply partition_found_false in Hp as [-> _].
    destruct (_ip_int_from_string s) eqn:Hs; cbn in H; [|discriminate].
    injection H as <-. exists s. cbn. now split.
Qed.

(** [.exploded] fails on an address that carries a zone. *)
Lemma exploded_scoped s addr z :
  IPv6Address_of_str s = Some addr -> _scope_id addr = Some z ->
  exploded addr = None.
Proof.
  intros H Hz. apply IPv6Address_inv in H as (a & Ha & H).
  rewrite Hz in H. destruct H as [_ Ht].
  unfold exploded, str. rewrite Hz, Ht.
  destruct (_string_from_ip_int (_ip addr)) as [ip_str|]; [|reflexivity].
  cbn [mbind option_bind]. now rewrite ip_int_from_string_percent.
Qed.

(** ** Further properties of the tokenizer *)

(** *** Groups and values *)

Lemma hextet_of_div v k : hextet_of v (S k) = hextet_of (v / 65536) k.
Proof.
  unfold hextet_of. f_equal.
  rewrite Z.div_div by lia. f_equal.
  replace (16 * Z.of_nat (S k)) with (16 + 16 * Z.of_nat k) by lia.
  rewrite Z.pow_add_r by lia. reflexivity.
Qed.

Lemma hextets_of_snoc k : forall v,
  hextets_of (S k) v = hextets_of k (v / 65536) ++ [v mod 65536].
Proof.
  induction k as [|k IH]; intros v.
  - cbn [hextets_of app]. unfold hextet_of. simpl Z.of_nat.
    rewrite Z.mul_0_r, Z.pow_0_r, Z.div_1_r. reflexivity.
  - change (hextets_of (S (S k)) v)
      with (hextet_of v (S k) :: hextets_of (S k) v).
    rewrite IH. cbn [hextets_of app]. now rewrite hextet_of_div.
Qed.

Lemma address_of_hextets_snoc hs h :
  address_of_hextets (hs ++ [h]) = address_of_hextets hs * 65536 + h.
Proof. unfold address_of_hextets. now rewrite fold_left_app. Qed.

Lemma hextets_of_address hs :
  Forall (fun h => 0 <= h < 65536) hs ->
  hextets_of (length hs) (address_of_hextets hs) = hs.
Proof.
  induction hs as [|h hs IH] using rev_ind; intros H; [reflexivity|].
  apply Forall_app in H as [Hhs Hh]. inversion_clear Hh as [|? ? Hh' _].
  rewrite length_app, Nat.add_comm. cbn [length Nat.add].
  rewrite hextets_of_snoc, address_of_hextets_snoc.
  replace ((address_of_hextets hs * 65536 + h) / 65536)
    with (address_of_hextets hs)
    by (apply (Z.div_unique _ _ _ h); lia).
  replace ((address_of_hextets hs * 65536 + h) mod 65536) with h
    by (apply (Z.mod_unique _ _ (address_of_hextets hs)); lia).
  now rewrite IH.
Qed.

Lemma address_of_hextets_range hs :
  Forall (fun h => 0 <= h < 65536) hs ->
  0 <= address_of_hextets hs < 2 ^ (16 * Z.of_nat (length hs)).
Proof.
  induction hs as [|h hs IH] using rev_ind; intros H; [change (0 <= 0 < 1); lia|].
  apply Forall_app in H as [Hhs Hh]. inversion_clear Hh as [|? ? Hh' _].
  specialize (IH Hhs).
  rewrite address_of_hextets_snoc, length_app. cbn [length].
  replace (16 * Z.of_nat (length hs + 1)) with (16 * Z.of_nat (length hs) + 16)
    by lia.
  rewrite Z.pow_add_r by lia. change (2 ^ 16) with 65536. nia.
Qed.

Lemma hextets_of_inj v w :
  0 <= v < 2 ^ 128 -> 0 <= w < 2 ^ 128 ->
  hextets_of 8 v = hextets_of 8 w -> v = w.
Proof.
  intros Hv Hw E.
  pose proof (parse_exploded v Hv) as Pv.
  pose proof (parse_exploded w Hw) as Pw.
  unfold exploded_text in Pv, Pw. rewrite E in Pv. congruence.
Qed.

Lemma filter_segment_range ids :
  Forall (fun h => 0 <= h < 65536) (List.filter is_segment ids).
Proof.
  apply Forall_forall. intros h Hh. apply list_elem_of_In, filter_In in Hh as [_ Hh].
  unfold is_segment in Hh. lia.
Qed.

Lemma filter_segment_idem ids :
  List.filter is_segment (List.filter is_segment ids) = List.filter is_segment ids.
Proof. apply filter_segment_all, filter_segment_range. Qed.

(** *** What [encode] returns *)

Lemma encode_body_strip text : encode_body (strip text) = encode_body text.
Proof. unfold encode_body. now rewrite strip_idem. Qed.

Lemma hextets_of_8_cons v : exists h hs, hextets_of 8 v = h :: hs.
Proof. simpl. eauto. Qed.

Lemma encode_body_unscoped text v :
  IPv6Address_of_str (strip text) = Some {| _ip := v; _scope_id := None |} ->
  0 <= v < 2 ^ 128 /\ truthy (strip text) = true
  /\ encode_body text = Some (hextets_of 8 v).
Proof.
  intros H. destruct (encode_valid _ _ H) as [Hv He].
  split; [assumption|].
  unfold encode, _encode_one in He. rewrite strip_idem, encode_body_strip in He.
  destruct (hextets_of_8_cons v) as (h & hs & Hcons).
  rewrite Hcons in He. rewrite Hcons.
  destruct (truthy (strip text)); [|discriminate He].
  destruct (encode_body text); [|discriminate He].
  cbn [app] in He. now subst.
Qed.

Lemma encode_body_scoped text addr z :
  IPv6Address_of_str (strip text) = Some addr -> _scope_id addr = Some z ->
  encode_body text = None.
Proof.
  intros H Hz. unfold encode_body. rewrite H. cbn [mbind option_bind].
  now rewrite (exploded_scoped _ _ _ H Hz).
Qed.

Lemma encode_body_invalid text :
  IPv6Address_of_str (strip text) = None -> encode_body text = None.
Proof. intros H. unfold encode_body. now rewrite H. Qed.

Lemma encode_split self text prepend append :
  encode self text prepend append
  = control_ids self prepend ++ body_tokens text ++ control_ids self append.
Proof.
  unfold encode, _encode_one, body_tokens, control_ids.
  assert (Hbody : (if truthy (strip text)
                   then match encode_body text with
                        | Some token_ids => token_ids
                        | None => []
                        end
                   else [])
                  = match IPv6Address_of_str (strip text) with
                    | Some addr =>
                        match _scope_id addr with
                        | None => hextets_of 8 (_ip addr)
                        | Some _ => []
                        end
                    | None => []
                    end).
  { destruct (IPv6Address_of_str (strip text)) as [[v [z|]]|] eqn:H.
    - rewrite (encode_body_scoped _ _ _ H eq_refl). now destruct (truthy _).
    - destruct (encode_body_unscoped _ _ H) as (_ & -> & ->). reflexivity.
    - rewrite (encode_body_invalid _ H). now destruct (truthy _). }
  rewrite <- Hbody.
  destruct prepend, append, (truthy (strip text)), (encode_body text);
    cbn [app]; rewrite ?app_nil_r, <- ?app_assoc; reflexivity.
Qed.

Lemma body_tokens_shape text :
  (body_tokens text = [] \/ length (body_tokens text) = 8%nat)
  /\ Forall (fun id => 0 <= id < 65536) (body_tokens text).
Proof.
  unfold body_tokens.
  destruct (IPv6Address_of_str (strip text)) as [[v [z|]]|]; cbn [_scope_id _ip];
    try (split; [now left|constructor]).
  split; [right; apply length_hextets_of|apply Forall_hextets_of].
Qed.

Lemma encode_special_range s :
  65536 <= encode_special get_tokenizer s <= 65542.
Proof.
  unfold encode_special.
  destruct (special_tokens_map get_tokenizer !! s) as [i|] eqn:H.
  - rewrite init_special_tokens_map in H.
    repeat (apply lookup_insert_Some in H as [[_ <-]|[_ H]]; [simpl; lia|]).
    now rewrite lookup_empty in H.
  - change (65536 <= eos_token_id get_tokenizer <= 65542). destruct init_ids as (_ & -> & _). lia.
Qed.

Lemma encode_special_not_segment s :
  is_segment (encode_special get_tokenizer s) = false.
Proof.
  pose proof (encode_special_range s). unfold is_segment.
  destruct (Z.leb_spec (encode_special get_tokenizer s) 65535); [lia|].
  apply andb_false_r.
Qed.

(** *** What [decode] returns *)

Lemma decode_filter ids :
  decode get_tokenizer ids = decode get_tokenizer (List.filter is_segment ids).
Proof.
  unfold decode. now rewrite !decode_parts_filter, filter_segment_idem.
Qed.

Lemma hexw4_texts hs :
  Forall (fun p => truthy p = true /\ contains ":" p = false /\
                   contains "." p = false /\ contains "/" p = false /\
                   contains "%" p = false)
         (map (hexw 4) hs).
Proof.
  apply Forall_map, Forall_forall. intros h _. cbv beta. unfold compose.
  split; [apply truthy_hexw; lia|].
  repeat split; apply (contains_all_chars is_hex_digit);
    (reflexivity || apply all_chars_hexw).
Qed.

(** A list of four-digit groups that does not count eight groups is no
    address. *)
Lemma IPv6Address_groups_none hs :
  length hs <> 8%nat ->
  IPv6Address_of_str (join ":" (map (hexw 4) hs)) = None.
Proof.
  intros Hlen. pose proof (hexw4_texts hs) as HF.
  set (gs := map (hexw 4) hs) in *.
  assert (Hgl : length gs = length hs) by (unfold gs; apply length_map).
  unfold IPv6Address_of_str, _split_scope_id.
  rewrite contains_join;
    [|reflexivity|eapply Forall_impl; [apply HF|]; simpl; tauto].
  rewrite partition_not_found
    by (apply contains_join;
        [reflexivity|eapply Forall_impl; [apply HF|]; simpl; tauto]).
  cbn [negb mbind option_bind].
  enough (_ip_int_from_string (join ":" gs) = None) as -> by reflexivity.
  unfold _ip_int_from_string.
  destruct (truthy (join ":" gs)); [|reflexivity]. cbn [negb].
  destruct gs as [|g gs'] eqn:Hgs; [reflexivity|]. rewrite <- Hgs in *.
  rewrite split_join;
    [|rewrite Hgs; discriminate|eapply Forall_impl; [apply HF|]; simpl; tauto].
  unfold _ip_int_from_parts, _HEXTET_COUNT.
  destruct (Nat.ltb_spec (length gs) 3) as [|H3]; [reflexivity|].
  assert (Hdot : contains "." (last_part gs) = false).
  { apply (Forall_last_part (fun p => contains "." p = false));
      [reflexivity|]. eapply Forall_impl; [apply HF|]. simpl. tauto. }
  rewrite Hdot. cbn [mbind option_bind].
  destruct (Nat.ltb_spec (Z.to_nat (8 + 1)) (length gs)); [reflexivity|].
  assert (Hall : all_truthy gs)
    by (eapply Forall_impl; [apply HF|]; simpl; tauto).
  rewrite find_skip_none
    by (apply all_truthy_removelast, all_truthy_tail, Hall).
  cbn [mbind option_bind].
  destruct (Z.eqb_spec (Z.of_nat (length gs)) 8); [lia|]. reflexivity.
Qed.

Lemma decode_segments_8 segs :
  length segs = 8%nat -> Forall (fun h => 0 <= h < 65536) segs ->
  0 <= address_of_hextets segs < 2 ^ 128
  /\ decode get_tokenizer segs = compressed_text (address_of_hextets segs).
Proof.
  intros Hlen Hr.
  pose proof (address_of_hextets_range segs Hr) as Hv. rewrite Hlen in Hv.
  change (2 ^ (16 * Z.of_nat 8)) with (2 ^ 128) in Hv.
  split; [assumption|].
  rewrite <- (decode_hextets _ Hv). f_equal.
  rewrite <- Hlen. symmetry. now apply hextets_of_address.
Qed.

(** C9.  [decode] never fails, and its result is made of the ids in
    [[0, 65535]] alone, in their order: an id that names a control
    token, a negative id and an id above 65535 are passed over.  Each id
    that is kept is rendered as a group of four lower-case hexadecimal
    digits that reads back as the id.  The result is the empty string
    when no id is kept; otherwise it is these groups joined by [":"],
    unless there are exactly eight of them: eight groups spell an
    address in full, and the result is what [str] prints for that
    address. *)
Theorem decode_ignores_other_ids (ids : list Z) :
  let segments := List.filter is_segment ids in
  let groups := map (format_0x 4) segments in
  (forall idx, is_segment idx = true <-> 0 <= idx <= 65535)
  /\ (forall idx, is_special_id get_tokenizer idx = true -> is_segment idx = false)
  /\ decode_parts get_tokenizer [] ids = groups
  /\ Forall2 (fun idx group =>
                String.length group = 4%nat
                /\ all_chars is_lower_hex group = true
                /\ int16 group = Some idx)
             segments groups
  /\ (segments = [] -> decode get_tokenizer ids = EmptyString)
  /\ (segments <> [] -> length segments <> 8%nat ->
      decode get_tokenizer ids = join ":" groups)
  /\ (length segments = 8%nat ->
      exists addr,
        IPv6Address_of_str (join ":" groups) = Some addr
        /\ exploded addr = Some (join ":" groups)
        /\ str addr = Some (decode get_tokenizer ids)).
Proof.
  cbv zeta. pose proof (filter_segment_range ids) as Hr.
  assert (Hg : map (format_0x 4) (List.filter is_segment ids)
               = map (hexw 4) (List.filter is_segment ids)).
  { apply map_ext_Forall. eapply Forall_impl; [exact Hr|].
    intros h Hh. now apply format_04x_hexw. }
  split; [|split; [|split; [|split; [|split; [|split]]]]].
  - intros idx. unfold is_segment. lia.
  - apply special_not_segment.
  - apply decode_parts_filter.
  - rewrite Hg. change (map ?f ?l) with (f <$> l).
    apply Forall2_fmap_r, Forall_Forall2_diag.
    eapply Forall_impl; [exact Hr|]. intros h Hh. unfold compose.
    split; [apply length_hexw|].
    split; [apply all_chars_lower_hexw|now apply int16_hexw].
  - unfold decode. rewrite decode_parts_filter. now intros ->.
  - intros Hne Hlen. unfold decode. rewrite decode_parts_filter.
    cbn [app]. rewrite length_map.
    destruct (List.filter is_segment ids) as [|h segs] eqn:E;
      [contradiction|]. cbn [length Nat.eqb].
    rewrite Hg, IPv6Address_groups_none by assumption. reflexivity.
  - intros Hlen. rewrite decode_filter.
    destruct (decode_segments_8 _ Hlen Hr) as [Hv ->].
    assert (Hx : join ":" (map (format_0x 4) (List.filter is_segment ids))
                 = exploded_text (address_of_hextets (List.filter is_segment ids))).
    { unfold exploded_text. rewrite Hg, <- Hlen.
      now rewrite hextets_of_address. }
    rewrite Hx.
    exists {| _ip := address_of_hextets (List.filter is_segment ids);
              _scope_id := None |}.
    split; [now apply IPv6Address_exploded|].
    split; [now apply exploded_no_scope|now apply str_no_scope].
Qed.

Lemma decode_ignores_other_ids_witness :
  (List.filter is_segment [65536; 3512; -1; 70000] <> []
   /\ length (List.filter is_segment [65536; 3512; -1; 70000]) <> 8%nat)
  /\ decode get_tokenizer [65536; 3512; -1; 70000] = "0db8".
Proof.
  split; [split; vm_compute; discriminate|].
  refine (proj1 (proj2 (proj2 (proj2 (proj2 (proj2
            (decode_ignores_other_ids [65536; 3512; -1; 70000])))))) _ _);
    vm_compute; discriminate.
Defined.

Lemma decode_segments_other segs :
  length segs <> 8%nat -> Forall (fun h => 0 <= h < 65536) segs ->
  decode get_tokenizer segs
  = if (length segs =? 0)%nat then EmptyString
    else join ":" (map (format_0x 4) segs).
Proof.
  intros Hlen Hr. unfold decode.
  rewrite decode_parts_filter, filter_segment_all by assumption.
  cbn [app]. rewrite length_map.
  destruct (length segs =? 0)%nat; [reflexivity|].
  replace (map (format_0x 4) segs) with (map (hexw 4) segs).
  - now rewrite IPv6Address_groups_none.
  - apply map_ext_Forall. eapply Forall_impl; [exact Hr|].
    intros h Hh. symmetry. now apply format_04x_hexw.
Qed.

Lemma hextet_of_bits v k :
  hextet_of v k = Z.land (Z.shiftr v (16 * Z.of_nat k)) 65535.
Proof.
  unfold hextet_of. rewrite Z.shiftr_div_pow2 by lia.
  change 65535 with (Z.ones 16). rewrite Z.land_ones by lia. reflexivity.
Qed.

Lemma hextets_of_8_bits v :
  hextets_of 8 v
  = map (fun k => Z.land (Z.shiftr v (16 * k)) 65535) [7; 6; 5; 4; 3; 2; 1; 0].
Proof. cbn [hextets_of map]. now rewrite !hextet_of_bits. Qed.

(** X1.  [encode(text)] with no control token.  When [text.strip()] is an
    address without a zone, the result is its eight sixteen-bit groups,
    most significant first; for every other text (no address, or an
    address with a zone, whose [.exploded] raises) the result is empty. *)
Theorem encode_tokens_of_text (self : IPv6SegmentTokenizer) (text : string) :
  match IPv6Address_of_str (strip text) with
  | Some addr =>
      match _scope_id addr with
      | None =>
          encode self text None None
          = map (fun k => Z.land (Z.shiftr (_ip addr) (16 * k)) 65535)
                [7; 6; 5; 4; 3; 2; 1; 0]
      | Some _ => encode self text None None = []
      end
  | None => encode self text None None = []
  end.
Proof.
  rewrite encode_split. cbn [control_ids app]. rewrite app_nil_r.
  unfold body_tokens.
  destruct (IPv6Address_of_str (strip text)) as [[v [z|]]|];
    cbn [_scope_id _ip]; try reflexivity.
  apply hextets_of_8_bits.
Qed.

(** X2.  Blanks around the text never change the tokens: [encode] works on
    [text.strip()]. *)
Theorem encode_ignores_surrounding_blanks
        (self : IPv6SegmentTokenizer) (text : string)
        (prepend append : option (Z + string)) :
  encode self text prepend append = encode self (strip text) prepend append.
Proof.
  rewrite !encode_split. unfold body_tokens. now rewrite strip_idem.
Qed.

(** X3.  A text that, once stripped, holds a character other than a
    hexadecimal digit, [":"] and ["."] gives no body token: only the
    control tokens asked for are returned. *)
Theorem encode_foreign_text
        (self : IPv6SegmentTokenizer) (text : string)
        (prepend append : option (Z + string)) :
  all_chars is_address_char (strip text) = false ->
  encode self text prepend append
  = option_list (control_id self <$> prepend)
    ++ option_list (control_id self <$> append).
Proof.
  intros Hc. rewrite encode_split.
  replace (body_tokens text) with (@nil Z).
  - now destruct prepend, append.
  - unfold body_tokens.
    destruct (IPv6Address_of_str (strip text)) as [[v [z|]]|] eqn:H;
      cbn [_scope_id]; try reflexivity.
    apply IPv6Address_inv in H as (a & Ha & H). cbn [_scope_id] in H. subst a.
    apply ip_int_from_string_chars in Ha. congruence.
Qed.

Lemma encode_foreign_text_witness :
  all_chars is_address_char (strip "system prompt") = false
  /\ encode get_tokenizer "system prompt" (Some (inr "<|bos|>")) (Some (inl 65537))
     = [65536; 65537].
Proof.
  split; [reflexivity|].
  apply (encode_foreign_text get_tokenizer "system prompt"
           (Some (inr "<|bos|>")) (Some (inl 65537))).
  reflexivity.
Defined.

Lemma Forall_control_ids (P : Z -> Prop) c :
  Forall P (control_ids get_tokenizer c)
  <-> Forall (fun c => P (control_id get_tokenizer c)) (option_list c).
Proof.
  destruct c as [c|]; cbn [control_ids option_list];
    [|split; constructor].
  split; intros H; inversion_clear H; now repeat constructor.
Qed.

(** X4.  The ids [encode] returns and the vocabulary.  The body tokens are
    always valid ids, so the ids returned are all below the tokenizer's
    vocabulary size exactly when the control ids are; an integer control
    is taken as it is, a control given by name always is a valid id.
    The vocabulary fits the configured [vocab_size], and the sequence,
    at most ten ids long, the configured [max_seq_len]. *)
Theorem encode_within_vocab
        (text : string) (prepend append : option (Z + string)) :
  let ids := encode get_tokenizer text prepend append in
  let valid id := 0 <= id < get_vocab_size get_tokenizer in
  (Forall valid ids
   <-> Forall (fun c => valid (control_id get_tokenizer c))
              (option_list prepend ++ option_list append))
  /\ (forall id : Z, control_id get_tokenizer (inl id) = id)
  /\ (forall name : string, valid (control_id get_tokenizer (inr name)))
  /\ get_vocab_size get_tokenizer <= ipv6_mac.vocab_size
  /\ Z.of_nat (length ids) <= 10
  /\ 10 <= ipv6_mac.max_seq_len.
Proof.
  cbv zeta. rewrite encode_split.
  destruct (body_tokens_shape text) as [Hlen Hr].
  unfold get_vocab_size. destruct init_ids as (_ & _ & _ & ->).
  split; [|split; [reflexivity|split; [|split; [|split]]]].
  - rewrite !Forall_app, !Forall_control_ids.
    assert (Hb : Forall (fun id => 0 <= id < 65543) (body_tokens text)).
    { eapply Forall_impl; [exact Hr|]. cbv beta. lia. }
    tauto.
  - intros name. pose proof (encode_special_range name).
    cbn [control_id]. lia.
  - unfold ipv6_mac.vocab_size. lia.
  - rewrite !length_app.
    assert (Hc : forall c, (length (control_ids get_tokenizer c) <= 1)%nat)
      by (intros [c|]; simpl; lia).
    pose proof (Hc prepend). pose proof (Hc append).
    destruct Hlen as [->| ->]; simpl length; lia.
  - unfold ipv6_mac.max_seq_len. lia.
Qed.

(** X5.  Two address texts without a zone get the same tokens exactly when
    they denote the same 128-bit value: the tokens forget the spelling
    (upper or lower case, zero padding, [::]) and nothing else. *)
Theorem encode_injective
        (self : IPv6SegmentTokenizer) (a b : string) (x y : IPv6Address) :
  IPv6Address_of_str (strip a) = Some x ->
  IPv6Address_of_str (strip b) = Some y ->
  _scope_id x = None -> _scope_id y = None ->
  (encode self a None None = encode self b None None <-> _ip x = _ip y).
Proof.
  intros Ha Hb Hx Hy. destruct x as [v sx], y as [w sy].
  cbn [_scope_id _ip] in *. subst.
  rewrite !encode_split. cbn [control_ids app]. rewrite !app_nil_r.
  unfold body_tokens. rewrite Ha, Hb. cbn [_scope_id _ip].
  destruct (encode_body_unscoped _ _ Ha) as (Hv & _).
  destruct (encode_body_unscoped _ _ Hb) as (Hw & _).
  split; [now apply hextets_of_inj|congruence].
Qed.

Lemma encode_injective_witness :
  (IPv6Address_of_str (strip "2001:DB8::1")
   = Some {| _ip := 42540766411282592856903984951653826561; _scope_id := None |}
   /\ IPv6Address_of_str (strip " 2001:0db8:0:0:0:0:0:1 ")
      = Some {| _ip := 42540766411282592856903984951653826561; _scope_id := None |})
  /\ (encode get_tokenizer "2001:DB8::1" None None
      = encode get_tokenizer " 2001:0db8:0:0:0:0:0:1 " None None
      <-> 42540766411282592856903984951653826561
          = 42540766411282592856903984951653826561).
Proof.
  split; [split; vm_compute; reflexivity|].
  apply (encode_injective get_tokenizer "2001:DB8::1" " 2001:0db8:0:0:0:0:0:1 "
           {| _ip := 42540766411282592856903984951653826561; _scope_id := None |}
           {| _ip := 42540766411282592856903984951653826561; _scope_id := None |});
    vm_compute; reflexivity.
Defined.

(** X6.  The other round trip: whenever [ids] holds exactly eight segment
    ids (any number of other ids among them), encoding the text
    [decode] returns gives back those eight ids, in order. *)
Theorem encode_decode_segments (ids : list Z) :
  length (List.filter is_segment ids) = 8%nat ->
  encode get_tokenizer (decode get_tokenizer ids) None None
  = List.filter is_segment ids.
Proof.
  intros Hlen. rewrite decode_filter.
  pose proof (filter_segment_range ids) as Hr.
  destruct (decode_segments_8 _ Hlen Hr) as [Hv ->].
  destruct (encode_valid _ _ (IPv6Address_compressed _ Hv)) as [_ ->].
  rewrite <- Hlen. now apply hextets_of_address.
Qed.

Lemma encode_decode_segments_witness :
  length (List.filter is_segment [65536; 8193; 3512; 0; 0; 0; 0; 0; 1; 65537])
  = 8%nat
  /\ encode get_tokenizer
       (decode get_tokenizer [65536; 8193; 3512; 0; 0; 0; 0; 0; 1; 65537])
       None None
     = [8193; 3512; 0; 0; 0; 0; 0; 1].
Proof.
  split; [reflexivity|].
  apply (encode_decode_segments [65536; 8193; 3512; 0; 0; 0; 0; 0; 1; 65537]).
  reflexivity.
Defined.

(** X7.  What [decode] returns, by the number of segment ids (ids in
    [[0, 65535]]) in its argument: the empty string for none; for
    exactly eight, the text [str] prints for the address made of these
    groups, which is accepted again as that address; for any other
    number, the groups as four-digit lower-case hexadecimal texts
    joined by [":"], uncompressed, which is no address. *)
Theorem decode_cases (ids : list Z) :
  let segs := List.filter is_segment ids in
  (segs = [] -> decode get_tokenizer ids = EmptyString)
  /\ (length segs = 8%nat ->
      str {| _ip := address_of_hextets segs; _scope_id := None |}
      = Some (decode get_tokenizer ids)
      /\ IPv6Address_of_str (decode get_tokenizer ids)
         = Some {| _ip := address_of_hextets segs; _scope_id := None |})
  /\ (segs <> [] -> length segs <> 8%nat ->
      decode get_tokenizer ids = join ":" (map (format_0x 4) segs)
      /\ IPv6Address_of_str (decode get_tokenizer ids) = None).
Proof.
  cbv zeta. pose proof (filter_segment_range ids) as Hr.
  rewrite decode_filter. split; [|split].
  - now intros ->.
  - intros Hlen. destruct (decode_segments_8 _ Hlen Hr) as [Hv ->].
    split; [now apply str_no_scope|now apply IPv6Address_compressed].
  - intros Hne Hlen. rewrite decode_segments_other by assumption.
    destruct (List.filter is_segment ids) as [|h segs] eqn:E;
      [contradiction|]. cbn [length Nat.eqb].
    split; [reflexivity|].
    replace (map (format_0x 4) (h :: segs)) with (map (hexw 4) (h :: segs)).
    + now apply IPv6Address_groups_none.
    + apply map_ext_Forall. eapply Forall_impl; [exact Hr|].
      intros k Hk. symmetry. now apply format_04x_hexw.
Qed.

(** X8.  Control tokens never reach the decoded text.  A control given by
    name is never a segment id; and whenever the control ids are not
    segment ids, decoding an encoded text gives the same string with
    and without them. *)
Theorem decode_drops_controls (text : string) :
  (forall name : string,
      is_segment (control_id get_tokenizer (inr name)) = false)
  /\ (forall prepend append : option (Z + string),
         Forall (fun c => is_segment (control_id get_tokenizer c) = false)
                (option_list prepend ++ option_list append) ->
         decode get_tokenizer (encode get_tokenizer text prepend append)
         = decode get_tokenizer (encode get_tokenizer text None None)).
Proof.
  split; [intros name; apply encode_special_not_segment|].
  intros prepend append H. apply Forall_app in H as [Hp Ha].
  rewrite decode_filter, (decode_filter (encode _ _ None None)).
  rewrite !encode_split, !List.filter_app. f_equal.
  assert (Hc : forall c,
             Forall (fun c => is_segment (control_id get_tokenizer c) = false)
                    (option_list c) ->
             List.filter is_segment (control_ids get_tokenizer c) = []).
  { intros [c|] Hc; [|reflexivity]. inversion_clear Hc as [|? ? Hc' _].
    cbn. now rewrite Hc'. }
  rewrite (Hc _ Hp), (Hc _ Ha). reflexivity.
Qed.

Lemma id_to_special_token_segment idx :
  idx <= 65535 -> id_to_special_token get_tokenizer !! idx = None.
Proof.
  intros H. rewrite init_id_to_special_token.
  now rewrite !lookup_insert_ne, lookup_empty by lia.
Qed.

Lemma id_to_special_token_above idx :
  65543 <= idx -> id_to_special_token get_tokenizer !! idx = None.
Proof.
  intros H. rewrite init_id_to_special_token.
  now rewrite !lookup_insert_ne, lookup_empty by lia.
Qed.

Lemma id_to_token_segment idx :
  0 <= idx <= 65535 -> id_to_token get_tokenizer idx = hexw 4 idx.
Proof.
  intros H. unfold id_to_token. rewrite id_to_special_token_segment by lia.
  destruct (Z.leb_spec 0 idx), (Z.leb_spec idx 65535); try lia.
  cbn [andb]. apply format_04x_hexw. lia.
Qed.

Lemma special_id_cases idx :
  65536 <= idx < 65543 ->
  idx = 65536 \/ idx = 65537 \/ idx = 65538 \/ idx = 65539
  \/ idx = 65540 \/ idx = 65541 \/ idx = 65542.
Proof. lia. Qed.

(** X9.  [id_to_token] prints an id so that it can be read back: a segment
    id as four hexadecimal digits whose value is the id; a special id as
    the token name [encode_special] maps back to it; and any id outside
    the vocabulary as the empty string. *)
Theorem id_to_token_inverse (idx : Z) :
  (0 <= idx <= 65535 ->
   String.length (id_to_token get_tokenizer idx) = 4%nat
   /\ int16 (id_to_token get_tokenizer idx) = Some idx)
  /\ (65536 <= idx < get_vocab_size get_tokenizer ->
      SPECIAL_TOKENS !! Z.to_nat (idx - 65536)
      = Some (id_to_token get_tokenizer idx)
      /\ encode_special get_tokenizer (id_to_token get_tokenizer idx) = idx)
  /\ (idx < 0 \/ get_vocab_size get_tokenizer <= idx ->
      id_to_token get_tokenizer idx = EmptyString).
Proof.
  unfold get_vocab_size. destruct init_ids as (_ & _ & _ & ->).
  repeat split.
  - rewrite id_to_token_segment by assumption. apply length_hexw.
  - rewrite id_to_token_segment by assumption. apply int16_hexw. lia.
  - destruct (special_id_cases idx H) as [->|[->|[->|[->|[->|[->| ->]]]]]];
      reflexivity.
  - destruct (special_id_cases idx H) as [->|[->|[->|[->|[->|[->| ->]]]]]];
      reflexivity.
  - intros [H|H]; unfold id_to_token.
    + rewrite id_to_special_token_segment by lia.
      destruct (Z.leb_spec 0 idx); [lia|reflexivity].
    + rewrite id_to_special_token_above by lia.
      destruct (Z.leb_spec idx 65535); [lia|]. now rewrite andb_false_r.
Qed.

(** X10.  Distinct ids of the vocabulary are printed differently. *)
Theorem id_to_token_injective (i j : Z) :
  0 <= i < get_vocab_size get_tokenizer ->
  0 <= j < get_vocab_size get_tokenizer ->
  id_to_token get_tokenizer i = id_to_token get_tokenizer j ->
  i = j.
Proof.
  unfold get_vocab_size. destruct init_ids as (_ & _ & _ & ->).
  intros Hi Hj E.
  assert (Hseg : forall k, 0 <= k <= 65535 ->
             String.length (id_to_token get_tokenizer k) = 4%nat
             /\ int16 (id_to_token get_tokenizer k) = Some k).
  { intros k Hk. rewrite id_to_token_segment by assumption.
    split; [apply length_hexw|apply int16_hexw; lia]. }
  assert (Hsp : forall k, 65536 <= k < 65543 ->
             (7 <= String.length (id_to_token get_tokenizer k))%nat
             /\ encode_special get_tokenizer (id_to_token get_tokenizer k) = k).
  { intros k Hk.
    destruct (special_id_cases k Hk) as [->|[->|[->|[->|[->|[->| ->]]]]]];
      (split; [vm_compute; lia|reflexivity]). }
  destruct (Z.le_gt_cases i 65535) as [Hi'|Hi'],
           (Z.le_gt_cases j 65535) as [Hj'|Hj'].
  - destruct (Hseg i ltac:(lia)) as [_ Pi], (Hseg j ltac:(lia)) as [_ Pj].
    rewrite E in Pi. congruence.
  - destruct (Hseg i ltac:(lia)) as [Pi _], (Hsp j ltac:(lia)) as [Pj _].
    rewrite E in Pi. lia.
  - destruct (Hsp i ltac:(lia)) as [Pi _], (Hseg j ltac:(lia)) as [Pj _].
    rewrite E in Pi. lia.
  - destruct (Hsp i ltac:(lia)) as [_ Pi], (Hsp j ltac:(lia)) as [_ Pj].
    rewrite E in Pi. congruence.
Qed.

Lemma id_to_token_injective_witness :
  (0 <= 3512 < get_vocab_size get_tokenizer
   /\ id_to_token get_tokenizer 3512 = id_to_token get_tokenizer (3000 + 512))
  /\ 3512 = 3000 + 512.
Proof.
  split; [split; [vm_compute; split; [discriminate|reflexivity]|reflexivity]|].
  apply (id_to_token_injective 3512 (3000 + 512));
    [vm_compute; split; [discriminate|reflexivity]..|reflexivity].
Defined.

(** X11.  The two dictionaries [__init__] builds are inverse to each other,
    and they hold exactly the names of [SPECIAL_TOKENS], the name at
    position [i] with the id [TOKEN_OFFSET + i], below the vocabulary
    size.  The vocabulary is fixed: a tokenizer loaded from any
    directory, or "trained" on any texts for any requested size, is
    this same tokenizer. *)
Theorem special_token_maps_inverse
        (token : string) (token_id : Z)
        (tokenizer_dir : string) (text_iterator : list string) (vocab_size : Z) :
  (get_special_tokens get_tokenizer !! token = Some token_id
   <-> id_to_special_token get_tokenizer !! token_id = Some token)
  /\ (get_special_tokens get_tokenizer !! token = Some token_id
      <-> exists i : nat,
            SPECIAL_TOKENS !! i = Some token
            /\ token_id = TOKEN_OFFSET + Z.of_nat i
            /\ token_id < get_vocab_size get_tokenizer)
  /\ from_directory tokenizer_dir = get_tokenizer
  /\ train_from_iterator text_iterator vocab_size = get_tokenizer.
Proof.
  unfold get_special_tokens.
  enough ((special_tokens_map get_tokenizer !! token = Some token_id
           <-> id_to_special_token get_tokenizer !! token_id = Some token)
          /\ (special_tokens_map get_tokenizer !! token = Some token_id
              <-> exists i : nat,
                    SPECIAL_TOKENS !! i = Some token
                    /\ token_id = TOKEN_OFFSET + Z.of_nat i)) as [H1 H2].
  { split; [exact H1|]. split; [|split; reflexivity].
    rewrite H2. split.
    - intros (i & Hi & E). exists i. repeat split; try assumption.
      apply lookup_lt_Some in Hi. subst token_id.
      unfold get_vocab_size. destruct init_ids as (_ & _ & _ & ->).
      unfold TOKEN_OFFSET. simpl in Hi. lia.
    - intros (i & Hi & E & _). eauto. }
  assert (Hfwd : special_tokens_map get_tokenizer !! token = Some token_id ->
                 exists i : nat,
                   SPECIAL_TOKENS !! i = Some token
                   /\ token_id = TOKEN_OFFSET + Z.of_nat i).
  { rewrite init_special_tokens_map. intros H.
    apply lookup_insert_Some in H as [[<- <-]|[_ H]]; [now exists 6%nat|].
    apply lookup_insert_Some in H as [[<- <-]|[_ H]]; [now exists 5%nat|].
    apply lookup_insert_Some in H as [[<- <-]|[_ H]]; [now exists 4%nat|].
    apply lookup_insert_Some in H as [[<- <-]|[_ H]]; [now exists 3%nat|].
    apply lookup_insert_Some in H as [[<- <-]|[_ H]]; [now exists 2%nat|].
    apply lookup_insert_Some in H as [[<- <-]|[_ H]]; [now exists 1%nat|].
    apply lookup_insert_Some in H as [[<- <-]|[_ H]]; [now exists 0%nat|].
    now rewrite lookup_empty in H. }
  assert (Hbwd : id_to_special_token get_tokenizer !! token_id = Some token ->
                 exists i : nat,
                   SPECIAL_TOKENS !! i = Some token
                   /\ token_id = TOKEN_OFFSET + Z.of_nat i).
  { rewrite init_id_to_special_token. intros H.
    apply lookup_insert_Some in H as [[<- <-]|[_ H]]; [now exists 6%nat|].
    apply lookup_insert_Some in H as [[<- <-]|[_ H]]; [now exists 5%nat|].
    apply lookup_insert_Some in H as [[<- <-]|[_ H]]; [now exists 4%nat|].
    apply lookup_insert_Some in H as [[<- <-]|[_ H]]; [now exists 3%nat|].
    apply lookup_insert_Some in H as [[<- <-]|[_ H]]; [now exists 2%nat|].
    apply lookup_insert_Some in H as [[<- <-]|[_ H]]; [now exists 1%nat|].
    apply lookup_insert_Some in H as [[<- <-]|[_ H]]; [now exists 0%nat|].
    now rewrite lookup_empty in H. }
  assert (Hlist : forall i : nat,
             SPECIAL_TOKENS !! i = Some token ->
             token_id = TOKEN_OFFSET + Z.of_nat i ->
             special_tokens_map get_tokenizer !! token = Some token_id
             /\ id_to_special_token get_tokenizer !! token_id = Some token).
  { intros i Hi ->.
    do 7 (destruct i as [|i];
          [cbn in Hi; injection Hi as <-; split; reflexivity|]).
    discriminate Hi. }
  repeat split.
  - intros H. destruct (Hfwd H) as (i & Hi & E). now apply (Hlist i).
  - intros H. destruct (Hbwd H) as (i & Hi & E). now apply (Hlist i).
  - exact Hfwd.
  - intros (i & Hi & E). now apply (Hlist i).
Qed.

(** *** Rendering a conversation: the edges of the truncation *)

Lemma slice_list_drop_last {A} (m : Z) (l : list A) :
  m < 0 -> slice_list 0 m l = take (length l - Z.to_nat (- m)) l.
Proof.
  intros Hm. unfold slice_list.
  destruct (Z.ltb_spec m 0); [|lia]. destruct (Z.ltb_spec 0 0); [lia|].
  rewrite (Z.min_l 0) by lia. rewrite Z.sub_0_r. change (Z.to_nat 0) with 0%nat.
  rewrite drop_0. f_equal. lia.
Qed.

Lemma render_conversation_full self conv max_tokens :
  render_conversation self conv max_tokens
  = (slice_list 0 max_tokens (map fst (rendered_conversation self conv)),
     slice_list 0 max_tokens (map snd (rendered_conversation self conv))).
Proof.
  unfold render_conversation, get_bos_token_id.
  rewrite render_messages. reflexivity.
Qed.

Lemma length_rendered_message self m :
  (length (rendered_message self m) <= 9)%nat.
Proof.
  unfold rendered_message. rewrite encode_split. cbn [control_ids app].
  rewrite app_nil_r.
  destruct (body_tokens_shape (content m)) as [[E|E] _];
    destruct (String.eqb (role m) "user"), (String.eqb (role m) "assistant");
    rewrite ?length_app, ?length_map, ?E; simpl; lia.
Qed.

Lemma length_rendered_conversation self conv :
  (length (rendered_conversation self conv)
   <= 1 + 9 * length (messages conv))%nat.
Proof.
  unfold rendered_conversation. cbn [length].
  induction (messages conv) as [|m ms IH]; [simpl; lia|].
  cbn [map concat length]. rewrite length_app.
  pose proof (length_rendered_message self m). lia.
Qed.

(** X12.  A negative [max_tokens] does not bound the length: Python's slice
    [[:max_tokens]] then drops the last [-max_tokens] pairs of the
    rendered sequence and keeps all the others. *)
Theorem render_conversation_negative_max
        (self : IPv6SegmentTokenizer) (conv : conversation) (max_tokens : Z) :
  max_tokens < 0 ->
  let full := rendered_conversation self conv in
  let keep := (length full - Z.to_nat (- max_tokens))%nat in
  render_conversation self conv max_tokens
  = (map fst (take keep full), map snd (take keep full)).
Proof.
  intros Hm. cbv zeta. rewrite render_conversation_full.
  rewrite !slice_list_drop_last by assumption.
  now rewrite !length_map, !firstn_map.
Qed.

Lemma render_conversation_negative_max_witness :
  -2 < 0
  /\ render_conversation get_tokenizer
       {| messages := [ {| role := "assistant"; content := "::1" |} ] |} (-2)
     = ([65536; 0; 0; 0; 0; 0; 0; 0], [0; 1; 1; 1; 1; 1; 1; 1]).
Proof.
  split; [lia|].
  apply (render_conversation_negative_max get_tokenizer
           {| messages := [ {| role := "assistant"; content := "::1" |} ] |} (-2)).
  lia.
Defined.

(** X13.  A conversation of [n] messages renders to at most [1 + 9 n] pairs,
    so a [max_tokens] of at least that much cuts nothing off. *)
Theorem render_conversation_fits
        (self : IPv6SegmentTokenizer) (conv : conversation) (max_tokens : Z) :
  1 + 9 * Z.of_nat (length (messages conv)) <= max_tokens ->
  let full := rendered_conversation self conv in
  render_conversation self conv max_tokens = (map fst full, map snd full)
  /\ Z.of_nat (length full) <= 1 + 9 * Z.of_nat (length (messages conv)).
Proof.
  intros Hm. cbv zeta.
  pose proof (length_rendered_conversation self conv) as Hlen.
  split; [|lia].
  rewrite render_conversation_full, !slice_list_prefix by lia.
  now rewrite !take_ge by (rewrite length_map; lia).
Qed.

Lemma render_conversation_fits_witness :
  1 + 9 * Z.of_nat
            (length (messages
               {| messages := [ {| role := "user"; content := "::1" |};
                                {| role := "assistant"; content := "::2" |};
                                {| role := "system"; content := "::3" |} ] |}))
  <= ipv6_mac.max_seq_len
  /\ render_conversation get_tokenizer
       {| messages := [ {| role := "user"; content := "::1" |};
                        {| role := "assistant"; content := "::2" |};
                        {| role := "system"; content := "::3" |} ] |}
       ipv6_mac.max_seq_len
     = ([65536; 0; 0; 0; 0; 0; 0; 0; 1; 0; 0; 0; 0; 0; 0; 0; 2; 65537],
        [0; 0; 0; 0; 0; 0; 0; 0; 0; 1; 1; 1; 1; 1; 1; 1; 1; 1]).
Proof.
  split; [vm_compute; discriminate|].
  apply (render_conversation_fits get_tokenizer
           {| messages := [ {| role := "user"; content := "::1" |};
                            {| role := "assistant"; content := "::2" |};
                            {| role := "system"; content := "::3" |} ] |}
           ipv6_mac.max_seq_len).
  vm_compute; discriminate.
Defined.

(** X14.  The prompt for a completion is the first token of the rendered
    conversation, the start token, whatever the conversation holds. *)
Theorem render_for_completion_prefix
        (self : IPv6SegmentTokenizer) (conv : conversation) (max_tokens : Z) :
  1 <= max_tokens ->
  render_for_completion self conv
  = take 1 (fst (render_conversation self conv max_tokens))
  /\ render_for_completion self conv = [get_bos_token_id self].
Proof.
  intros Hm. split; [|reflexivity].
  rewrite render_conversation_full, slice_list_prefix by lia. cbn [fst].
  unfold rendered_conversation. cbn [map fst].
  destruct (Z.to_nat max_tokens) as [|n] eqn:E; [lia|]. reflexivity.
Qed.

Lemma render_for_completion_prefix_witness :
  1 <= 2048
  /\ render_for_completion get_tokenizer
       {| messages := [ {| role := "user"; content := "::1" |} ] |}
     = take 1 (fst (render_conversation get_tokenizer
                      {| messages := [ {| role := "user"; content := "::1" |} ] |}
                      2048)).
Proof.
  split; [lia|].
  apply (render_for_completion_prefix get_tokenizer
           {| messages := [ {| role := "user"; content := "::1" |} ] |} 2048).
  lia.
Defined.

(** ** Further properties of the verifier *)

Section verifier_extras.

Variable check_call : nat -> string -> outcome unit.
Variable random : nat -> Q.

(** What [ip_status] holds for an address once the futures [completed]
    have been handled: its old entry when no completed probe was for
    the address, and otherwise the score of the probe of the address
    that completed last. *)
Lemma collect_last ip_list completed : forall ip_status ip_status',
  collect check_call ip_list completed ip_status = Returned ip_status' ->
  forall ip,
    (ip_status' !! ip = ip_status !! ip
     /\ forall j, j ∈ completed -> ip_list !! j <> Some ip)
    \/ (exists before j after is_active,
           completed = before ++ j :: after
           /\ ip_list !! j = Some ip
           /\ (forall k, k ∈ after -> ip_list !! k <> Some ip)
           /\ _ping_single check_call j ip = Returned is_active
           /\ ip_status' !! ip = Some (score is_active)).
Proof.
  induction completed as [|future rest IH]; intros st st' H ip.
  - injection H as <-. left. split; [reflexivity|]. intros j Hj. inversion Hj.
  - cbn [collect] in H. destruct (ip_list !! future) as [ip0|] eqn:Hf.
    + destruct (_ping_single check_call future ip0) as [b0|e] eqn:Hb0;
        [|discriminate].
      destruct (IH _ _ H ip)
        as [[Heq Hnone] | (before & j & after & b & -> & Hj & Hafter & Hb & Hs)].
      * destruct (decide (ip0 = ip)) as [->|Hne].
        -- right. exists [], future, rest, b0.
           rewrite Heq, lookup_insert_eq. repeat split; assumption.
        -- left. rewrite Heq, lookup_insert_ne by assumption.
           split; [reflexivity|]. intros j Hj.
           apply elem_of_cons in Hj as [->|Hj]; [congruence | now apply Hnone].
      * right. exists (future :: before), j, after, b.
        repeat split; assumption.
    + destruct (IH _ _ H ip)
        as [[Heq Hnone] | (before & j & after & b & -> & Hj & Hafter & Hb & Hs)].
      * left. split; [assumption|]. intros j Hj.
        apply elem_of_cons in Hj as [->|Hj]; [congruence | now apply Hnone].
      * right. exists (future :: before), j, after, b.
        repeat split; assumption.
Qed.

(** A completed probe that raises an error [_ping_single] does not
    catch ends the loop with that error. *)
Lemma collect_other_error ip_list completed : forall ip_status j ip,
  j ∈ completed -> ip_list !! j = Some ip ->
  check_call j ip = Raised OtherError ->
  collect check_call ip_list completed ip_status = Raised OtherError.
Proof.
  induction completed as [|future rest IH]; intros st j ip Hj Hip Hr;
    [inversion Hj|].
  cbn [collect]. destruct (ip_list !! future) as [ip0|] eqn:Hf.
  - destruct (_ping_single check_call future ip0) as [b0|e] eqn:Hb0.
    + apply elem_of_cons in Hj as [->|Hj]; [|now apply (IH _ j ip)].
      rewrite Hip in Hf. injection Hf as <-.
      unfold _ping_single in Hb0. rewrite Hr in Hb0. discriminate.
    + apply ping_single_raised in Hb0 as [-> _]. reflexivity.
  - apply elem_of_cons in Hj as [->|Hj]; [congruence|now apply (IH _ j ip)].
Qed.

Variable as_completed : list nat.
Variable ip_list : list string.

(** X15.  In mock mode no probe is run.  Whatever the probes would do,
    [verify_batch] returns one score per address, each 0.0 or 1.0: at
    position [i] it is 1.0 when the [i]-th draw of [random.random()] is
    below one tenth and 0.0 otherwise.  (The draws are rationals here;
    a draw is a multiple of 2^-53, and for these being below the float
    0.1 and being below one tenth are the same.) *)
Theorem verify_batch_mock_mode :
  exists scores,
    verify_batch check_call random as_completed mock_scanner ip_list
    = Returned scores
    /\ length scores = length ip_list
    /\ Forall (fun s => s = 0%Q \/ s = 1%Q) scores
    /\ forall i : nat,
        (i < length ip_list)%nat ->
        ((random i < 1 # 10)%Q -> scores !! i = Some 1%Q)
        /\ ((1 # 10 <= random i)%Q -> scores !! i = Some 0%Q).
Proof.
  unfold verify_batch, mock_scanner. cbn [use_mock].
  eexists. split; [reflexivity|].
  split; [now rewrite length_map, length_seq|].
  split.
  - apply Forall_forall. intros s Hs.
    apply list_elem_of_In, in_map_iff in Hs as (i & <- & _).
    destruct (Qle_bool (1 # 10) (random i)); auto.
  - intros i Hi.
    change (map ?f ?l) with (f <$> l).
    rewrite list_lookup_fmap, lookup_seq_lt by assumption.
    cbn [fmap option_fmap option_map Nat.add].
    destruct (Qle_bool (1 # 10) (random i)) eqn:E.
    + apply Qle_bool_iff in E. split; [|reflexivity].
      intros Hlt. exfalso. now apply (Qlt_not_le _ _ Hlt).
    + split; [reflexivity|]. intros Hle. apply Qle_bool_iff in Hle. congruence.
Qed.

(** [as_completed] yields every submitted future exactly once, in some
    order. *)
Hypothesis every_future_completes :
  as_completed ≡ₚ seq 0 (length ip_list).

(** X16.  Scores go by address, not by position.  The result dictionary is
    keyed by the address text, so every position holding the address
    [ip] gets the score of the probe of [ip] that completed last; in
    particular two positions with the same address always get the same
    score. *)
Theorem verify_batch_last_completed :
  (forall i ip, ip_list !! i = Some ip -> has_verdict check_call i ip) ->
  exists scores,
    verify_batch check_call random as_completed real_scanner ip_list
    = Returned scores
    /\ (forall i ip,
           ip_list !! i = Some ip ->
           exists before j after is_active,
             as_completed = before ++ j :: after
             /\ ip_list !! j = Some ip
             /\ (forall k, k ∈ after -> ip_list !! k <> Some ip)
             /\ _ping_single check_call j ip = Returned is_active
             /\ scores !! i = Some (score is_active))
    /\ (forall i i' ip,
           ip_list !! i = Some ip -> ip_list !! i' = Some ip ->
           scores !! i = scores !! i').
Proof.
  intros Hv.
  destruct (verify_batch_scores check_call random as_completed ip_list
              every_future_completes Hv) as (scores & Hr & Hlen & _).
  exists scores. split; [assumption|].
  unfold verify_batch, real_scanner in Hr. cbn [use_mock] in Hr.
  destruct (collect check_call ip_list as_completed ∅) as [st|e] eqn:Hc;
    [|discriminate].
  injection Hr as <-.
  assert (Hscore : forall i ip,
             ip_list !! i = Some ip ->
             map (fun ip => default 0%Q (st !! ip)) ip_list !! i
             = Some (default 0%Q (st !! ip))).
  { intros i ip Hi. change (map ?f ?l) with (f <$> l).
    now rewrite list_lookup_fmap, Hi. }
  split.
  - intros i ip Hi. rewrite (Hscore i ip Hi).
    destruct (collect_last _ _ _ _ Hc ip)
      as [[_ Hnone] | (before & j & after & b & E & Hj & Hafter & Hb & Hs)].
    + exfalso. apply (Hnone i); [|assumption].
      rewrite every_future_completes. apply elem_of_seq.
      apply lookup_lt_Some in Hi. lia.
    + exists before, j, after, b. rewrite Hs. repeat split; assumption.
  - intros i i' ip Hi Hi'. now rewrite (Hscore i ip Hi), (Hscore i' ip Hi').
Qed.

(** X17.  An error of a probe that [_ping_single] does not catch (neither a
    non-zero exit nor a timeout) is not turned into a score: it ends
    [verify_batch], which then returns no score at all.  This is the
    only way [verify_batch] raises. *)
Theorem verify_batch_propagates_other_errors :
  verify_batch check_call random as_completed real_scanner ip_list
  = Raised OtherError
  <-> exists j ip,
        ip_list !! j = Some ip /\ check_call j ip = Raised OtherError.
Proof.
  unfold verify_batch, real_scanner. cbn [use_mock]. split.
  - intros H.
    destruct (collect check_call ip_list as_completed ∅) as [st|e] eqn:Hc;
      [discriminate|].
    apply collect_raised in Hc as (j & ip & _ & Hj & Hr).
    apply ping_single_raised in Hr as [_ Hr]. eauto.
  - intros (j & ip & Hj & Hr).
    rewrite (collect_other_error ip_list as_completed ∅ j ip);
      [reflexivity| |assumption|assumption].
    rewrite every_future_completes. apply elem_of_seq.
    apply lookup_lt_Some in Hj. lia.
Qed.

End verifier_extras.

Lemma verify_batch_last_completed_witness :
  [1; 0]%nat ≡ₚ seq 0 (length ["::1"; "::1"])
  /\ exists scores,
      verify_batch first_only_check_call (fun _ => 0%Q) [1; 0]%nat
                   real_scanner ["::1"; "::1"] = Returned scores
      /\ scores !! 0%nat = scores !! 1%nat.
Proof.
  assert (Hperm : [1; 0]%nat ≡ₚ seq 0 (length ["::1"; "::1"]))
    by apply Permutation_swap.
  split; [exact Hperm|].
  destruct (verify_batch_last_completed first_only_check_call (fun _ => 0%Q)
              [1; 0]%nat ["::1"; "::1"] Hperm) as (scores & Hr & _ & Hsame).
  { intros i ip _. unfold has_verdict, first_only_check_call.
    destruct (i =? 0)%nat; discriminate. }
  exists scores. split; [exact Hr|].
  apply (Hsame 0%nat 1%nat "::1"); reflexivity.
Defined.

Lemma verify_batch_propagates_other_errors_witness :
  [1; 0]%nat ≡ₚ seq 0 (length ["::1"; "::2"])
  /\ verify_batch broken_check_call (fun _ => 0%Q) [1; 0]%nat
                  real_scanner ["::1"; "::2"] = Raised OtherError.
Proof.
  assert (Hperm : [1; 0]%nat ≡ₚ seq 0 (length ["::1"; "::2"]))
    by apply Permutation_swap.
  split; [exact Hperm|].
  apply (verify_batch_propagates_other_errors broken_check_call (fun _ => 0%Q)
           [1; 0]%nat ["::1"; "::2"] Hperm).
  exists 0%nat, "::1". split; reflexivity.
Defined.

(** ** Further properties of the data preparation *)

(** *** [expand_ipv6] *)

Lemma expand_ipv6_Some a e :
  expand_ipv6 a = Some e ->
  exists v,
    IPv6Address_of_str a = Some {| _ip := v; _scope_id := None |}
    /\ 0 <= v < 2 ^ 128 /\ e = exploded_text v.
Proof.
  unfold expand_ipv6. intros H.
  destruct (IPv6Address_of_str a) as [[v [z|]]|] eqn:Ha;
    cbn [mbind option_bind] in H; [| |discriminate].
  - rewrite (exploded_scoped _ _ _ Ha eq_refl) in H. discriminate.
  - destruct (encode_valid _ _ Ha) as [Hv _].
    rewrite exploded_no_scope in H by assumption. injection H as <-. eauto.
Qed.

Lemma expand_ipv6_unscoped a v :
  IPv6Address_of_str a = Some {| _ip := v; _scope_id := None |} ->
  expand_ipv6 a = Some (exploded_text v).
Proof.
  intros Ha. destruct (encode_valid _ _ Ha) as [Hv _].
  unfold expand_ipv6. rewrite Ha. cbn [mbind option_bind].
  now apply exploded_no_scope.
Qed.

Lemma length_exploded_text v : String.length (exploded_text v) = 39%nat.
Proof.
  unfold exploded_text. cbn [hextets_of map]. unfold join. cbn [String.concat].
  rewrite !length_app_str, !length_hexw. reflexivity.
Qed.

Lemma exploded_text_inj v w :
  0 <= v < 2 ^ 128 -> 0 <= w < 2 ^ 128 ->
  exploded_text v = exploded_text w -> v = w.
Proof.
  intros Hv Hw E.
  pose proof (parse_exploded v Hv) as Pv. rewrite E, parse_exploded in Pv by assumption.
  congruence.
Qed.

Lemma exploded_text_chars v :
  all_chars is_exploded_char (exploded_text v) = true.
Proof.
  unfold exploded_text. apply all_chars_join; [reflexivity|].
  apply Forall_map, Forall_forall. intros h _. cbv beta. unfold compose.
  eapply all_chars_impl; [|apply all_chars_lower_hexw].
  intros c Hc. unfold is_exploded_char. now rewrite Hc.
Qed.

(** X18.  What [expand_ipv6] returns is in canonical form: 39 characters,
    lower-case hexadecimal digits and colons only; it is accepted as the
    same address as the text it was made from, and expanding it again
    changes nothing. *)
Theorem expand_ipv6_canonical (ip_str expanded : string) :
  expand_ipv6 ip_str = Some expanded ->
  String.length expanded = 39%nat
  /\ all_chars is_exploded_char expanded = true
  /\ IPv6Address_of_str expanded = IPv6Address_of_str ip_str
  /\ expand_ipv6 expanded = Some expanded.
Proof.
  intros H. apply expand_ipv6_Some in H as (v & Ha & Hv & ->).
  pose proof (IPv6Address_exploded v Hv) as He.
  split; [apply length_exploded_text|].
  split; [apply exploded_text_chars|].
  split; [congruence|].
  now apply expand_ipv6_unscoped.
Qed.

Lemma expand_ipv6_canonical_witness :
  expand_ipv6 "2001:DB8::1" = Some "2001:0db8:0000:0000:0000:0000:0000:0001"
  /\ expand_ipv6 "2001:0db8:0000:0000:0000:0000:0000:0001"
     = Some "2001:0db8:0000:0000:0000:0000:0000:0001".
Proof.
  split; [vm_compute; reflexivity|].
  apply (expand_ipv6_canonical "2001:DB8::1").
  vm_compute; reflexivity.
Defined.

(** X19.  Two texts are expanded to the same row exactly when they are
    accepted as the same address: deduplicating the expanded rows is
    deduplicating the addresses. *)
Theorem expand_ipv6_same_address (a b expanded : string) :
  expand_ipv6 a = Some expanded ->
  (expand_ipv6 b = Some expanded
   <-> IPv6Address_of_str b = IPv6Address_of_str a).
Proof.
  intros Ha. pose proof Ha as Ha'.
  apply expand_ipv6_Some in Ha' as (v & Hav & Hv & ->). split.
  - intros Hb. apply expand_ipv6_Some in Hb as (w & Hbw & Hw & E).
    apply exploded_text_inj in E; [|assumption..]. congruence.
  - intros E. rewrite Hav in E. now apply expand_ipv6_unscoped.
Qed.

Lemma expand_ipv6_same_address_witness :
  expand_ipv6 "::1" = Some "0000:0000:0000:0000:0000:0000:0000:0001"
  /\ (expand_ipv6 "0:0::0:01" = Some "0000:0000:0000:0000:0000:0000:0000:0001"
      <-> IPv6Address_of_str "0:0::0:01" = IPv6Address_of_str "::1").
Proof.
  split; [vm_compute; reflexivity|].
  apply (expand_ipv6_same_address "::1" "0:0::0:01").
  vm_compute; reflexivity.
Defined.

(** X20.  An address with a zone identifier is accepted by [IPv6Address], but
    [expand_ipv6] returns [None] for it ([.exploded] raises the
    [ValueError] it catches): such a line adds nothing to a bucket's set
    of rows. *)
Theorem expand_ipv6_zone
        (ip_str : string) (addr : IPv6Address) (zone : string) :
  IPv6Address_of_str ip_str = Some addr ->
  _scope_id addr = Some zone ->
  expand_ipv6 ip_str = None
  /\ forall (unique_ips : gset string) (line : string),
       strip line = ip_str -> dedup_step unique_ips line = unique_ips.
Proof.
  intros Ha Hz.
  assert (He : expand_ipv6 ip_str = None).
  { unfold expand_ipv6. rewrite Ha. cbn [mbind option_bind].
    now apply (exploded_scoped ip_str _ zone). }
  split; [exact He|].
  intros unique_ips line <-. unfold dedup_step. now rewrite He.
Qed.

Lemma expand_ipv6_zone_witness :
  IPv6Address_of_str "fe80::1%eth0"
  = Some {| _ip := 338288524927261089654018896841347694593;
            _scope_id := Some "eth0" |}
  /\ expand_ipv6 "fe80::1%eth0" = None.
Proof.
  split; [vm_compute; reflexivity|].
  apply (expand_ipv6_zone "fe80::1%eth0"
           {| _ip := 338288524927261089654018896841347694593;
              _scope_id := Some "eth0" |} "eth0");
    vm_compute; reflexivity.
Defined.

(** X21.  A row of the data set and the tokenizer.  The row [expand_ipv6]
    makes of a text is encoded to the same eight tokens as the text
    itself, and the row is exactly these tokens printed by
    [id_to_token] and joined with colons. *)
Theorem shard_row_tokens (ip_str expanded : string) :
  expand_ipv6 ip_str = Some expanded ->
  encode get_tokenizer expanded None None
  = encode get_tokenizer ip_str None None
  /\ length (encode get_tokenizer expanded None None) = 8%nat
  /\ expanded
     = join ":" (map (id_to_token get_tokenizer)
                     (encode get_tokenizer expanded None None)).
Proof.
  intros H. apply expand_ipv6_Some in H as (v & Ha & Hv & ->).
  destruct (encode_valid _ _ Ha) as [_ ->].
  destruct (encode_valid _ _ (IPv6Address_exploded v Hv)) as [_ ->].
  split; [reflexivity|]. split; [apply length_hextets_of|].
  unfold exploded_text. f_equal. apply map_ext_Forall.
  eapply Forall_impl; [apply Forall_hextets_of|].
  intros h Hh. cbv beta in *. symmetry. apply id_to_token_segment. lia.
Qed.

Lemma shard_row_tokens_witness :
  expand_ipv6 "2001:db8::1" = Some "2001:0db8:0000:0000:0000:0000:0000:0001"
  /\ encode get_tokenizer "2001:0db8:0000:0000:0000:0000:0000:0001" None None
     = encode get_tokenizer "2001:db8::1" None None.
Proof.
  split; [vm_compute; reflexivity|].
  apply (shard_row_tokens "2001:db8::1").
  vm_compute; reflexivity.
Defined.

(** *** Step 1: what the bucket files hold *)

Lemma concat_str_app xs ys :
  concat_str (xs ++ ys) = concat_str xs +:+ concat_str ys.
Proof.
  induction xs as [|x xs IH]; [reflexivity|].
  cbn [app concat_str]. now rewrite IH, app_assoc_str.
Qed.

Lemma written_lines_snoc ls s :
  written_lines (ls ++ [s]) = written_lines ls +:+ (s +:+ newline).
Proof.
  unfold written_lines. rewrite map_app, concat_str_app.
  cbn [map concat_str]. now rewrite app_nil_r_str.
Qed.

Lemma no_eol_cons c s :
  no_eol (String c s) = true ->
  Ascii.eqb c (ascii_of_nat 10) = false
  /\ Ascii.eqb c (ascii_of_nat 13) = false
  /\ no_eol s = true.
Proof.
  unfold no_eol. cbn [contains].
  destruct (Ascii.eqb c (ascii_of_nat 10)); [discriminate|].
  destruct (Ascii.eqb c (ascii_of_nat 13));
    [rewrite andb_false_r; discriminate|].
  auto.
Qed.

(** Reading back a line that was written with its newline. *)
Lemma readlines_from_line s : forall cur rest,
  no_eol s = true ->
  readlines_from cur (s +:+ (newline +:+ rest))
  = (cur +:+ (s +:+ newline)) :: readlines_from EmptyString rest.
Proof.
  induction s as [|c s IH]; intros cur rest H.
  - reflexivity.
  - apply no_eol_cons in H as (Hn & Hr & H).
    change (String c s +:+ (newline +:+ rest))
      with (String c (s +:+ (newline +:+ rest))).
    cbn [readlines_from]. rewrite Hn, Hr, IH by assumption.
    f_equal. rewrite app_assoc_str. reflexivity.
Qed.

Lemma readlines_written ls :
  Forall (fun s => no_eol s = true) ls ->
  readlines (written_lines ls) = map (fun s => s +:+ newline) ls.
Proof.
  unfold readlines, written_lines.
  induction 1 as [|s ls Hs _ IH]; [reflexivity|].
  cbn [map concat_str]. rewrite app_assoc_str.
  rewrite readlines_from_line by assumption. now rewrite IH.
Qed.

Lemma distribute_assign randint fin : forall drawn buckets,
  distribute randint drawn (written_lines <$> buckets) fin
  = written_lines <$> assign randint drawn buckets fin.
Proof.
  induction fin as [|line fin IH]; intros drawn buckets; [reflexivity|].
  cbn [distribute assign]. unfold kept.
  destruct (truthy (strip line)) eqn:Ht; cbn [negb orb andb]; [|apply IH].
  destruct (startswith "#" (strip line)) eqn:Hs; cbn [negb]; [apply IH|].
  unfold distribute_line. rewrite Ht, Hs. cbn [negb orb].
  rewrite <- IH. f_equal. symmetry. apply list_fmap_alter.
  apply Forall_forall. intros ls _. apply written_lines_snoc.
Qed.

Lemma length_assign randint fin : forall drawn buckets,
  length (assign randint drawn buckets fin) = length buckets.
Proof.
  induction fin as [|line fin IH]; intros drawn buckets; [reflexivity|].
  cbn [assign]. destruct (kept line); rewrite IH; [apply length_alter|reflexivity].
Qed.

Lemma Forall_alter_snoc {A} (P : A -> Prop) (x : A) i (buckets : list (list A)) :
  P x -> Forall (Forall P) buckets ->
  Forall (Forall P) (alter (fun ls => ls ++ [x]) i buckets).
Proof.
  intros Hx H. apply Forall_lookup. intros j ls Hj.
  rewrite list_lookup_alter in Hj. rewrite Forall_lookup in H.
  destruct (decide (i = j)) as [->|Hne]; [|now apply (H j)].
  destruct (buckets !! j) as [ls0|] eqn:E; [|discriminate].
  injection Hj as <-. apply Forall_app. split; [now apply (H j)|].
  now constructor.
Qed.

Lemma assign_Forall (P : string -> Prop) randint fin : forall drawn buckets,
  Forall (fun line => P (strip line)) fin ->
  Forall (Forall P) buckets ->
  Forall (Forall P) (assign randint drawn buckets fin).
Proof.
  induction fin as [|line fin IH]; intros drawn buckets Hfin Hb; [assumption|].
  inversion_clear Hfin as [|? ? Hl Hfin'].
  cbn [assign]. destruct (kept line); apply IH; try assumption.
  now apply Forall_alter_snoc.
Qed.

Lemma concat_alter_snoc {A} (x : A) i (buckets : list (list A)) :
  (i < length buckets)%nat ->
  concat (alter (fun ls => ls ++ [x]) i buckets) ≡ₚ concat buckets ++ [x].
Proof.
  revert i. induction buckets as [|b buckets IH]; intros i Hi;
    [simpl in Hi; lia|].
  destruct i as [|i]; cbn [alter list_alter concat].
  - rewrite <- !app_assoc. apply Permutation_app_head.
    apply Permutation_app_comm.
  - fold (alter (fun ls => ls ++ [x]) i buckets).
    rewrite IH by (simpl in Hi; lia). now rewrite app_assoc.
Qed.

(** Every kept line lands in exactly one bucket. *)
Lemma assign_perm randint fin : forall drawn buckets,
  (forall k, 0 <= randint k < Z.of_nat (length buckets)) ->
  concat (assign randint drawn buckets fin)
  ≡ₚ concat buckets ++ map strip (List.filter kept fin).
Proof.
  induction fin as [|line fin IH]; intros drawn buckets Hr.
  - cbn. now rewrite app_nil_r.
  - cbn [assign List.filter]. destruct (kept line).
    + rewrite IH by (now rewrite length_alter).
      rewrite concat_alter_snoc by (specialize (Hr drawn); lia).
      cbn [map]. now rewrite <- app_assoc.
    + now apply IH.
Qed.

(** The lines read back from the bucket files. *)
Lemma buckets_read_back randint fin n :
  Forall (fun line => no_eol (strip line) = true) fin ->
  map readlines (distribute randint 0 (replicate n EmptyString) fin)
  = map (map (fun s => s +:+ newline)) (assign randint 0 (replicate n []) fin).
Proof.
  intros Hfin.
  replace (replicate n EmptyString) with (written_lines <$> replicate n [])
    by (now rewrite fmap_replicate).
  rewrite distribute_assign.
  change (map readlines (written_lines <$> ?l))
    with (map readlines (map written_lines l)).
  rewrite map_map. apply map_ext_Forall.
  eapply Forall_impl.
  - apply (assign_Forall (fun s => no_eol s = true)); [exact Hfin|].
    apply Forall_replicate. constructor.
  - intros ls Hls. cbv beta. now apply readlines_written.
Qed.

(** X22.  Step 1 loses and invents nothing: the bucket files are as many as
    before, and the lines read back from them are, up to their order,
    the stripped kept lines of the input, each followed by a newline,
    provided the draws fall within the buckets and no stripped line
    holds a line terminator. *)
Theorem distribute_conserves_lines (randint : nat -> Z) (fin : list string) :
  (forall k, 0 <= randint k < NUM_BUCKETS) ->
  Forall (fun line => no_eol (strip line) = true) fin ->
  let bucket_files :=
    distribute randint 0 (replicate (Z.to_nat NUM_BUCKETS) EmptyString) fin in
  length bucket_files = Z.to_nat NUM_BUCKETS
  /\ concat (map readlines bucket_files)
     ≡ₚ map (fun line => strip line +:+ newline) (List.filter kept fin).
Proof.
  intros Hr Hfin. cbv zeta. split.
  - replace (replicate (Z.to_nat NUM_BUCKETS) EmptyString)
      with (written_lines <$> replicate (Z.to_nat NUM_BUCKETS) [])
      by (now rewrite fmap_replicate).
    rewrite distribute_assign, length_fmap, length_assign.
    apply length_replicate.
  - rewrite buckets_read_back by assumption.
    rewrite <- concat_map.
    rewrite assign_perm.
    + replace (concat (replicate (Z.to_nat NUM_BUCKETS) []))
        with (@nil string) by reflexivity.
      cbn [app]. now rewrite map_map.
    + intros k. rewrite length_replicate. specialize (Hr k). lia.
Qed.

Lemma distribute_conserves_lines_witness :
  ((forall k : nat, 0 <= 7 < NUM_BUCKETS)
   /\ Forall (fun line => no_eol (strip line) = true)
             ["# header" +:+ newline; " ::1 " +:+ newline; newline; "::2"])
  /\ concat (map readlines
               (distribute (fun _ => 7) 0
                  (replicate (Z.to_nat NUM_BUCKETS) EmptyString)
                  ["# header" +:+ newline; " ::1 " +:+ newline; newline; "::2"]))
     ≡ₚ ["::1" +:+ newline; "::2" +:+ newline].
Proof.
  split.
  - split; [intros _; vm_compute; split; [discriminate|reflexivity]|].
    repeat constructor.
  - apply (distribute_conserves_lines (fun _ => 7)
             ["# header" +:+ newline; " ::1 " +:+ newline; newline; "::2"]).
    + intros _. vm_compute. split; [discriminate|reflexivity].
    + repeat constructor.
Defined.

(** *** Step 2 over all the buckets *)

Lemma emit_app out c1 c2 : emit (emit out c1) c2 = emit out (c1 ++ c2).
Proof. unfold emit. now rewrite fold_left_app. Qed.

Lemma concat_concat {A} (ls : list (list (list A))) :
  concat (concat ls) = concat (map (@concat A) ls).
Proof.
  induction ls as [|l ls IH]; [reflexivity|].
  cbn [concat map]. now rewrite concat_app, IH.
Qed.

Lemma map_snd_imap {A} (chunks : list A) : forall z : Z,
  map snd (imap (fun i chunk => (z + Z.of_nat i, chunk)) chunks) = chunks.
Proof.
  induction chunks as [|ch l IH]; intros z; [reflexivity|].
  cbn [imap map snd]. f_equal.
  rewrite <- (IH (z + 1)) at 2. f_equal. apply imap_ext.
  intros i x _. cbn. f_equal. lia.
Qed.

Lemma map_fst_imap {A} (chunks : list A) : forall z : Z,
  map fst (imap (fun i chunk => (z + Z.of_nat i, chunk)) chunks)
  = map (fun i => z + Z.of_nat i) (seq 0 (length chunks)).
Proof.
  induction chunks as [|ch l IH]; intros z; [reflexivity|].
  cbn [imap map fst length seq]. f_equal.
  rewrite <- seq_shift, map_map.
  transitivity (map fst (imap (fun i chunk => (z + 1 + Z.of_nat i, chunk)) l)).
  { f_equal. apply imap_ext. intros i x _. cbn. f_equal. lia. }
  rewrite IH. apply map_ext. intros i. lia.
Qed.

(** Two members of a list of lists that share an element make the
    concatenation hold it twice. *)
Lemma not_NoDup_concat {A} (ls : list (list A)) : forall i j x y e,
  ls !! i = Some x -> ls !! j = Some y -> i <> j ->
  e ∈ x -> e ∈ y -> ~ NoDup (concat ls).
Proof.
  induction ls as [|b ls IH]; intros i j x y e Hi Hj Hne Hx Hy Hnd;
    [discriminate|].
  cbn [concat] in Hnd. apply NoDup_app in Hnd as (_ & Hdisj & Hrest).
  assert (Hin : forall k z, ls !! k = Some z -> e ∈ z -> e ∈ concat ls).
  { intros k z Hk Hz. apply list_elem_of_In, in_concat.
    exists z. split; apply list_elem_of_In; [|assumption].
    eapply list_elem_of_lookup_2, Hk. }
  destruct i as [|i], j as [|j]; cbn [lookup list_lookup] in Hi, Hj.
  - congruence.
  - injection Hi as <-. apply (Hdisj e Hx). now apply (Hin j y).
  - injection Hj as <-. apply (Hdisj e Hy). now apply (Hin i x).
  - apply (IH i j x y e); try assumption. congruence.
Qed.

Lemma dedup_step_mono (unique_ips : gset string) line x :
  x ∈ unique_ips -> x ∈ dedup_step unique_ips line.
Proof.
  intros H. unfold dedup_step.
  destruct (expand_ipv6 (strip line)) as [e|]; [|assumption].
  destruct (truthy e); [|assumption]. set_solver.
Qed.

Lemma dedup_fold_mono raw_lines : forall (acc : gset string) x,
  x ∈ acc -> x ∈ fold_left dedup_step raw_lines acc.
Proof.
  induction raw_lines as [|l ls IH]; intros acc x H; [assumption|].
  cbn [fold_left]. now apply IH, dedup_step_mono.
Qed.

Lemma truthy_expanded a e : expand_ipv6 a = Some e -> truthy e = true.
Proof.
  intros H. apply expand_ipv6_Some in H as (v & _ & _ & ->).
  apply truthy_length. rewrite length_exploded_text. lia.
Qed.

(** Every line of a bucket that expands leaves its row in the set. *)
Lemma dedup_complete raw_lines line x :
  line ∈ raw_lines -> expand_ipv6 (strip line) = Some x ->
  x ∈ dedup raw_lines.
Proof.
  unfold dedup. generalize (∅ : gset string).
  induction raw_lines as [|l ls IH]; intros acc Hl He; [inversion Hl|].
  cbn [fold_left]. apply elem_of_cons in Hl as [<-|Hl].
  - apply dedup_fold_mono. unfold dedup_step.
    rewrite He, (truthy_expanded _ _ He). set_solver.
  - now apply IH.
Qed.

(** A text that expands is kept by step 1, and holds no line
    terminator. *)
Lemma expand_kept line row :
  expand_ipv6 (strip line) = Some row ->
  kept line = true /\ no_eol (strip line) = true.
Proof.
  intros H. apply expand_ipv6_Some in H as (v & Ha & _ & _).
  apply IPv6Address_inv in Ha as (a & Ha & E). cbn [_scope_id] in E. subst a.
  pose proof (ip_int_from_string_chars _ _ Ha) as Hc.
  apply ip_int_from_string_strip in Ha as [_ Ht].
  split.
  - unfold kept. rewrite Ht. cbn [andb].
    destruct (strip line) as [|c s]; [discriminate|].
    cbn [startswith all_chars] in *. apply andb_prop in Hc as [Hc _].
    destruct (Ascii.eqb_spec c "#") as [->|]; [discriminate Hc|reflexivity].
  - unfold no_eol.
    rewrite (contains_all_chars is_address_char (ascii_of_nat 10) _ eq_refl Hc).
    now rewrite (contains_all_chars is_address_char (ascii_of_nat 13) _ eq_refl Hc).
Qed.

Section pipeline_properties.

Variable shuffle : list string -> list string.
Variable docs_per_shard : Z.
Hypothesis docs_per_shard_pos : 0 < docs_per_shard.

Lemma reduce_buckets_emit buckets : forall out,
  reduce_buckets shuffle docs_per_shard buckets out
  = Some (emit out
            (concat (map (bucket_chunks shuffle docs_per_shard) buckets))).
Proof.
  induction buckets as [|b buckets IH]; intros out; [reflexivity|].
  cbn [reduce_buckets map concat].
  rewrite (reduce_bucket_emit shuffle docs_per_shard docs_per_shard_pos).
  cbn [mbind option_bind]. now rewrite IH, emit_app.
Qed.

Lemma bucket_chunks_bounds raw_lines :
  Forall (fun chunk => 0 < Z.of_nat (length chunk) <= docs_per_shard)
         (bucket_chunks shuffle docs_per_shard raw_lines).
Proof.
  apply Forall_lookup. intros i chunk Hi. unfold bucket_chunks in Hi.
  apply chunked_lookup in Hi as [Hlt Hlen]; lia.
Qed.

(** X23.  The shards of all the buckets are numbered on from the running
    shard index without a gap, bucket after bucket; none of them is
    empty and none holds more than [docs_per_shard] rows; together
    they hold the rows of the buckets in order, and the row counter
    grows by their number. *)
Theorem reduce_buckets_numbering
        (buckets : list (list string)) (out : output) :
  exists chunks : list (list string),
    reduce_buckets shuffle docs_per_shard buckets out
    = Some {| shards :=
                shards out
                ++ imap (fun i chunk => (shard_index out + Z.of_nat i, chunk))
                        chunks;
              shard_index := shard_index out + Z.of_nat (length chunks);
              total_processed_ips :=
                total_processed_ips out + Z.of_nat (length (concat chunks)) |}
    /\ concat chunks = concat (map (bucket_ip_list shuffle) buckets)
    /\ Forall (fun chunk => 0 < Z.of_nat (length chunk) <= docs_per_shard)
              chunks.
Proof.
  exists (concat (map (bucket_chunks shuffle docs_per_shard) buckets)).
  split; [now rewrite reduce_buckets_emit, emit_spec|]. split.
  - rewrite concat_concat, map_map. f_equal. apply map_ext. intros b.
    apply (bucket_chunks_concat shuffle docs_per_shard docs_per_shard_pos).
  - apply Forall_concat, Forall_map, Forall_forall. intros b _.
    apply bucket_chunks_bounds.
Qed.

(** [random.shuffle] rearranges the list it is given. *)
Hypothesis shuffle_permutes : forall l, shuffle l ≡ₚ l.

Lemma bucket_rows_iff raw_lines row :
  row ∈ bucket_ip_list shuffle raw_lines
  <-> exists line, line ∈ raw_lines /\ expand_ipv6 (strip line) = Some row.
Proof.
  unfold bucket_ip_list. rewrite shuffle_permutes, elem_of_elements. split.
  - apply (dedup_elem docs_per_shard docs_per_shard_pos).
  - intros (line & Hl & He). now apply (dedup_complete raw_lines line).
Qed.

Lemma buckets_rows_iff buckets row :
  row ∈ concat (map (bucket_ip_list shuffle) buckets)
  <-> exists line,
        line ∈ concat buckets /\ expand_ipv6 (strip line) = Some row.
Proof.
  rewrite list_elem_of_In, in_concat. split.
  - intros (l & Hl & Hrow). apply in_map_iff in Hl as (b & <- & Hb).
    apply list_elem_of_In, bucket_rows_iff in Hrow as (line & Hline & He).
    exists line. split; [|assumption].
    apply list_elem_of_In, in_concat. exists b.
    split; [assumption|now apply list_elem_of_In].
  - intros (line & Hline & He).
    apply list_elem_of_In, in_concat in Hline as (b & Hb & Hline).
    exists (bucket_ip_list shuffle b). split; [now apply in_map|].
    apply list_elem_of_In, bucket_rows_iff. exists line.
    split; [now apply list_elem_of_In|assumption].
Qed.

End pipeline_properties.

Lemma reduce_buckets_numbering_witness :
  0 < 2
  /\ exists chunks : list (list string),
      reduce_buckets (@reverse string) 2 [sample_bucket; []; sample_bucket]
                     sample_output
      = Some {| shards := imap (fun i chunk => (7 + Z.of_nat i, chunk)) chunks;
                shard_index := 7 + Z.of_nat (length chunks);
                total_processed_ips := Z.of_nat (length (concat chunks)) |}
      /\ Forall (fun chunk => 0 < Z.of_nat (length chunk) <= 2) chunks.
Proof.
  split; [lia|].
  destruct (reduce_buckets_numbering (@reverse string) 2 ltac:(lia)
              [sample_bucket; []; sample_bucket] sample_output)
    as (chunks & H1 & _ & H3).
  exists chunks. split; [exact H1|exact H3].
Defined.

Lemma DOCS_PER_SHARD_pos : 0 < DOCS_PER_SHARD.
Proof. reflexivity. Qed.

(** [process_low_memory] from the lines of the buckets. *)
Lemma process_low_memory_emit randint shuffle fin :
  Forall (fun line => no_eol (strip line) = true) fin ->
  process_low_memory randint shuffle fin
  = Some (emit no_output
            (concat (map (bucket_chunks shuffle DOCS_PER_SHARD)
                         (map (map (fun s => s +:+ newline))
                              (assign randint 0
                                 (replicate (Z.to_nat NUM_BUCKETS) []) fin))))).
Proof.
  intros Hfin. unfold process_low_memory.
  rewrite buckets_read_back by assumption.
  apply (reduce_buckets_emit shuffle DOCS_PER_SHARD DOCS_PER_SHARD_pos).
Qed.

Lemma rows_emit chunks : rows (emit no_output chunks) = concat chunks.
Proof.
  unfold rows. rewrite emit_spec. cbn [shards no_output app].
  now rewrite map_snd_imap.
Qed.

(** X24.  The whole preparation, from the lines of the input file to the
    shards.  Provided the bucket draws fall within the buckets, the
    shuffle permutes, and no line holds a line terminator inside, the
    run ends, and
    - a text is a row of some shard exactly when it is the expanded
      form of a stripped input line;
    - the shards are numbered 0, 1, 2, ... without a gap, so that no
      shard file is written twice;
    - no shard is empty or holds more than [DOCS_PER_SHARD] rows;
    - the two counters report the number of shards and of rows. *)
Theorem process_low_memory_rows
        (randint : nat -> Z) (shuffle : list string -> list string)
        (fin : list string) :
  (forall k, 0 <= randint k < NUM_BUCKETS) ->
  (forall l, shuffle l ≡ₚ l) ->
  Forall (fun line => no_eol (strip line) = true) fin ->
  exists out,
    process_low_memory randint shuffle fin = Some out
    /\ (forall row,
           row ∈ rows out
           <-> exists line, line ∈ fin /\ expand_ipv6 (strip line) = Some row)
    /\ map fst (shards out) = map Z.of_nat (seq 0 (length (shards out)))
    /\ Forall (fun shard => 0 < Z.of_nat (length (snd shard)) <= DOCS_PER_SHARD)
              (shards out)
    /\ shard_index out = Z.of_nat (length (shards out))
    /\ total_processed_ips out = Z.of_nat (length (rows out)).
Proof.
  intros Hr Hs Hfin. eexists. split; [now apply process_low_memory_emit|].
  set (lines := assign randint 0 (replicate (Z.to_nat NUM_BUCKETS) []) fin).
  set (buckets := map (map (fun s => s +:+ newline)) lines).
  set (chunks := concat (map (bucket_chunks shuffle DOCS_PER_SHARD) buckets)).
  assert (Hcat : concat chunks = concat (map (bucket_ip_list shuffle) buckets)).
  { unfold chunks. rewrite concat_concat, map_map. f_equal.
    apply map_ext. intros b.
    apply (bucket_chunks_concat shuffle DOCS_PER_SHARD DOCS_PER_SHARD_pos). }
  assert (Hlines : concat buckets
                   ≡ₚ map (fun line => strip line +:+ newline)
                          (List.filter kept fin)).
  { unfold buckets, lines. rewrite <- concat_map, assign_perm.
    - replace (concat (replicate (Z.to_nat NUM_BUCKETS) []))
        with (@nil string) by reflexivity.
      cbn [app]. now rewrite map_map.
    - intros k. rewrite length_replicate. specialize (Hr k). lia. }
  rewrite rows_emit, emit_spec. cbn [shards shard_index total_processed_ips no_output app].
  split; [|split; [|split; [|split]]].
  - intros row. rewrite Hcat, (buckets_rows_iff shuffle DOCS_PER_SHARD DOCS_PER_SHARD_pos Hs). split.
    + intros (line' & Hl & He). rewrite Hlines in Hl.
      apply list_elem_of_In, in_map_iff in Hl as (line & <- & Hl).
      apply filter_In in Hl as [Hl _].
      rewrite strip_newline, strip_idem in He.
      exists line. split; [now apply list_elem_of_In|assumption].
    + intros (line & Hl & He). exists (strip line +:+ newline). split.
      * rewrite Hlines. apply list_elem_of_In, in_map_iff. exists line.
        split; [reflexivity|]. apply filter_In.
        split; [now apply list_elem_of_In|].
        now destruct (expand_kept _ _ He).
      * now rewrite strip_newline, strip_idem.
  - rewrite map_fst_imap, length_imap. apply map_ext. intros i. lia.
  - apply Forall_lookup. intros i [idx chunk] Hi.
    rewrite list_lookup_imap in Hi.
    destruct (chunks !! i) as [ch|] eqn:Hch; [|discriminate].
    injection Hi as _ <-. cbn [snd].
    assert (Hb : Forall (fun chunk =>
                           0 < Z.of_nat (length chunk) <= DOCS_PER_SHARD) chunks).
    { unfold chunks. apply Forall_concat, Forall_map, Forall_forall.
      intros b _. apply bucket_chunks_bounds. exact DOCS_PER_SHARD_pos. }
    rewrite Forall_lookup in Hb. now apply (Hb i).
  - rewrite length_imap. lia.
  - lia.
Qed.

Lemma process_low_memory_rows_witness :
  ((forall k : nat, 0 <= Z.of_nat (k mod 2) < NUM_BUCKETS)
   /\ (forall l : list string, reverse l ≡ₚ l)
   /\ Forall (fun line => no_eol (strip line) = true)
             ["# addresses" +:+ newline; " ::1" +:+ newline; "0::1" +:+ newline])
  /\ exists out,
      process_low_memory (fun k => Z.of_nat (k mod 2)) (@reverse string)
        ["# addresses" +:+ newline; " ::1" +:+ newline; "0::1" +:+ newline]
      = Some out
      /\ shard_index out = Z.of_nat (length (shards out)).
Proof.
  assert (Hr : forall k : nat, 0 <= Z.of_nat (k mod 2) < NUM_BUCKETS).
  { intros k. pose proof (Nat.mod_upper_bound k 2 ltac:(lia)).
    unfold NUM_BUCKETS. lia. }
  assert (Hfin : Forall (fun line => no_eol (strip line) = true)
                   ["# addresses" +:+ newline; " ::1" +:+ newline;
                    "0::1" +:+ newline])
    by (repeat constructor).
  split; [split; [exact Hr|split; [exact (fun l => reverse_Permutation l)|exact Hfin]]|].
  destruct (process_low_memory_rows (fun k => Z.of_nat (k mod 2)) (@reverse string)
              ["# addresses" +:+ newline; " ::1" +:+ newline; "0::1" +:+ newline]
              Hr (fun l => reverse_Permutation l) Hfin)
    as (out & Hout & _ & _ & _ & Hidx & _).
  exists out. split; [exact Hout|exact Hidx].
Defined.

(** X25.  Duplicates are removed within a bucket only.  When the same
    address comes twice in the input and the two lines are drawn into
    different buckets, its row is written twice. *)
Theorem duplicates_across_buckets
        (randint : nat -> Z) (shuffle : list string -> list string)
        (line : string) (row : string) :
  (forall k, 0 <= randint k < NUM_BUCKETS) ->
  (forall l, shuffle l ≡ₚ l) ->
  expand_ipv6 (strip line) = Some row ->
  randint 0%nat <> randint 1%nat ->
  exists out,
    process_low_memory randint shuffle [line; line] = Some out
    /\ ~ NoDup (rows out).
Proof.
  intros Hr Hs He Hne.
  destruct (expand_kept _ _ He) as [Hk Heol].
  eexists. split.
  { apply process_low_memory_emit. repeat constructor; assumption. }
  rewrite rows_emit, concat_concat, map_map.
  rewrite (map_ext _ (bucket_ip_list shuffle))
    by (intros b;
        apply (bucket_chunks_concat shuffle DOCS_PER_SHARD DOCS_PER_SHARD_pos)).
  cbn [assign]. rewrite Hk.
  set (i := Z.to_nat (randint 0%nat)). set (j := Z.to_nat (randint 1%nat)).
  assert (Hij : i <> j) by (unfold i, j; pose proof (Hr 0%nat); pose proof (Hr 1%nat); lia).
  assert (Hi : (i < Z.to_nat NUM_BUCKETS)%nat) by (unfold i; specialize (Hr 0%nat); lia).
  assert (Hj : (j < Z.to_nat NUM_BUCKETS)%nat) by (unfold j; specialize (Hr 1%nat); lia).
  set (lines := alter (fun ls => ls ++ [strip line]) j
                  (alter (fun ls => ls ++ [strip line]) i
                     (replicate (Z.to_nat NUM_BUCKETS) []))).
  assert (Li : lines !! i = Some [strip line]).
  { unfold lines. rewrite list_lookup_alter_ne by congruence.
    rewrite list_lookup_alter_eq, lookup_replicate_2 by assumption. reflexivity. }
  assert (Lj : lines !! j = Some [strip line]).
  { unfold lines. rewrite list_lookup_alter_eq.
    rewrite list_lookup_alter_ne by congruence.
    rewrite lookup_replicate_2 by assumption. reflexivity. }
  assert (Hrow : row ∈ bucket_ip_list shuffle [strip line +:+ newline]).
  { apply (bucket_rows_iff shuffle DOCS_PER_SHARD DOCS_PER_SHARD_pos Hs). exists (strip line +:+ newline).
    split; [constructor|]. now rewrite strip_newline, strip_idem. }
  apply (not_NoDup_concat _ i j
           (bucket_ip_list shuffle [strip line +:+ newline])
           (bucket_ip_list shuffle [strip line +:+ newline]) row);
    try assumption.
  - change (map ?f ?l) with (f <$> l). rewrite !list_lookup_fmap, Li. reflexivity.
  - change (map ?f ?l) with (f <$> l). rewrite !list_lookup_fmap, Lj. reflexivity.
Qed.

Lemma duplicates_across_buckets_witness :
  ((forall k : nat, 0 <= Z.of_nat (k mod 2) < NUM_BUCKETS)
   /\ (forall l : list string, reverse l ≡ₚ l)
   /\ expand_ipv6 (strip ("::1" +:+ newline))
      = Some "0000:0000:0000:0000:0000:0000:0000:0001")
  /\ exists out,
      process_low_memory (fun k => Z.of_nat (k mod 2)) (@reverse string)
        ["::1" +:+ newline; "::1" +:+ newline] = Some out
      /\ ~ NoDup (rows out).
Proof.
  assert (Hr : forall k : nat, 0 <= Z.of_nat (k mod 2) < NUM_BUCKETS).
  { intros k. pose proof (Nat.mod_upper_bound k 2 ltac:(lia)).
    unfold NUM_BUCKETS. lia. }
  split; [split; [exact Hr|split; [exact (fun l => reverse_Permutation l)|]]|].
  - vm_compute. reflexivity.
  - apply (duplicates_across_buckets (fun k => Z.of_nat (k mod 2)) (@reverse string)
             ("::1" +:+ newline) "0000:0000:0000:0000:0000:0000:0000:0001"
             Hr (fun l => reverse_Permutation l)).
    + vm_compute. reflexivity.
    + vm_compute. discriminate.
Defined.

(** *** The end of the writing loop *)

Lemma write_shards_stuck (c : Z) (l : list string) :
  c <= 0 -> l <> [] ->
  forall fuel idx out, idx <= 0 -> write_shards fuel c l idx out = None.
Proof.
  intros Hc Hl. induction fuel as [|fuel IH]; intros idx out Hidx;
    [reflexivity|].
  cbn [write_shards].
  destruct (Z.ltb_spec idx (Z.of_nat (length l))) as [_|Hge].
  - apply IH. lia.
  - destruct l; [contradiction|]. simpl length in Hge. lia.
Qed.

(** X26.  The loop that cuts a bucket into shards ends exactly when the
    chunk size is positive or the bucket is empty.  With a chunk size of
    zero or less and a row to write, [current_idx] never gets past the
    end of the list: no number of iterations is enough. *)
Theorem write_shards_terminates_iff
        (docs_per_shard : Z) (ip_list : list string) (out : output) :
  (exists fuel out',
      write_shards fuel docs_per_shard ip_list 0 out = Some out')
  <-> (0 < docs_per_shard \/ ip_list = []).
Proof.
  split.
  - intros (fuel & out' & H).
    destruct (Z.lt_ge_cases 0 docs_per_shard) as [Hc|Hc]; [now left|].
    destruct ip_list as [|ip ips]; [now right|].
    rewrite write_shards_stuck in H by (lia || discriminate). discriminate.
  - intros [Hc| ->].
    + exists (S (length ip_list)). eexists.
      change 0 with (Z.of_nat 0). apply write_shards_chunked; [assumption|lia].
    + exists 1%nat, out. reflexivity.
Qed.
